(** * The Arrow IPC stream writer ([arrow/ipc/writer.go]), embedded in Rocq.

    The development follows the Go source function by function.  Go
    integers are [Z] with the wrap-around of the fixed-width arithmetic
    written where the source computes in that width; a byte is a [Z] in
    [0, 256); a [*memory.Buffer] is [option (list Z)] ([None] is the nil
    pointer); a Go [map] is a [gmap]; a function that can return an
    [error] or panic returns a [result].  A buffer's capacity is taken to
    be its length, so that slicing past the length panics.  Reference
    counts of byte buffers are not part of the state: a buffer that the
    source retains and re-emits is the same value in the body. *)

From Stdlib Require Import ZArith List Lia Bool String.
From stdpp Require Import base option list strings gmap.

Local Open Scope Z_scope.
Set Warnings "-register-all".

(** ** Fixed-width integers *)

Module Int.

Definition wrap (w z : Z) : Z := (z + 2 ^ (w - 1)) mod 2 ^ w - 2 ^ (w - 1).

Definition i64 : Z -> Z := wrap 64.
Definition i32 : Z -> Z := wrap 32.

Definition MaxInt32 : Z := 2147483647.

Definition in_i64 (z : Z) : Prop := - 2 ^ 63 <= z < 2 ^ 63.
Definition in_i32 (z : Z) : Prop := - 2 ^ 31 <= z < 2 ^ 31.

End Int.

(** ** Errors and results *)

(** The error values the writer returns.  [errMaxRecursion], [errBigArray]
    and [errInconsistentSchema] are the package's sentinel errors
    (MaxRecursion, ArrayTooLarge, InconsistentSchema of the
    specification); [errDictReplacement] is the [errors.New] value of
    [writeDictionaryPayloads]; [Wrapf ctx e] is [fmt.Errorf(ctx + ": %w", e)];
    [errExternal n] is an error produced by a collaborator (sink, codec,
    dictionary collector); [errRecovered] is the error [Writer.Write]
    builds from a recovered panic. *)
Inductive error : Type :=
| errMaxRecursion
| errBigArray
| errInconsistentSchema
| errDictReplacement
| errExternal (code : Z)
| errRecovered (what : string)
| Wrapf (ctx : string) (e : error).

(** The innermost error of a chain of [%w] wrappings ([errors.Is] compares
    against every link; the sentinels are never wrappers themselves). *)
Fixpoint unwrap (e : error) : error :=
  match e with
  | Wrapf _ e' => unwrap e'
  | _ => e
  end.

Inductive result (A : Type) : Type :=
| Ok (a : A)
| Err (e : error)
| Panic (what : string).
Arguments Ok {A} a.
Arguments Err {A} e.
Arguments Panic {A} what.

Definition errorOf {A} (r : result A) : option error :=
  match r with Err e => Some e | _ => None end.

(** ** Buffers and bit utilities *)

Definition Buffer : Type := list Z.

Definition blen (b : Buffer) : Z := Z.of_nat (length b).

(** A freshly allocated buffer of [n] bytes ([NewResizableBuffer] followed
    by [Resize(n)]); the allocator hands out zeroed memory. *)
Definition zeros (n : Z) : Buffer := repeat 0 (Z.to_nat n).

Module bitutil.

(** Modelled from the spec: [bitutil.CeilByte64], the length plus the
    padding needed to reach the next 8-byte boundary. *)
Definition CeilByte64 (size : Z) : Z := (size + 7) / 8 * 8.

(** Modelled from the spec: [bitutil.IsMultipleOf8]. *)
Definition IsMultipleOf8 (v : Z) : bool := v mod 8 =? 0.

(** Modelled from the spec: [bytes_for_bits(n) = ceil(n / 8)]. *)
Definition BytesForBits (bits : Z) : Z := (bits + 7) / 8.

Definition BitIsSet (buf : Buffer) (i : Z) : bool :=
  Z.testbit (nth (Z.to_nat (i / 8)) buf 0) (i mod 8).

Definition SetBitTo (buf : Buffer) (i : Z) (v : bool) : Buffer :=
  let k := Z.to_nat (i / 8) in
  let b := nth k buf 0 in
  <[k := if v then Z.lor b (2 ^ (i mod 8)) else Z.land b (255 - 2 ^ (i mod 8))]> buf.

Fixpoint copyBits (n : nat) (src : Buffer) (srcOff : Z) (dst : Buffer) (dstOff : Z) : Buffer :=
  match n with
  | O => dst
  | S k => copyBits k src (srcOff + 1) (SetBitTo dst dstOff (BitIsSet src srcOff)) (dstOff + 1)
  end.

(** Go's [copy(dst[at:], src)]: overwrites [min(len dst - at, len src)] bytes. *)
Definition copyAt (dst : Buffer) (at_ : nat) (src : Buffer) : Buffer :=
  take at_ dst ++ take (length dst - at_) src ++ drop (at_ + length src) dst.

(** Modelled from the spec: [copy_bitmap(src, src_bit_offset, n_bits, dst,
    dst_bit_offset)], a bit-level copy with a byte-aligned fast path when
    [src_bit_offset % 8 == 0] (the fast path copies whole bytes).  [None]
    is the index-out-of-range panic of reading or writing past a slice. *)
Definition CopyBitmap (src : Buffer) (srcOffset nbits : Z) (dst : Buffer) (dstOffset : Z)
  : option Buffer :=
  if nbits =? 0 then Some dst
  else if (srcOffset <? 0) || (nbits <? 0) || (dstOffset <? 0) then None
  else if srcOffset mod 8 =? 0 then
    let nbytes := BytesForBits nbits in
    if (srcOffset / 8 + nbytes <=? blen src) && (dstOffset / 8 <=? blen dst)
    then Some (copyAt dst (Z.to_nat (dstOffset / 8))
                 (take (Z.to_nat nbytes) (drop (Z.to_nat (srcOffset / 8)) src)))
    else None
  else
    if (BytesForBits (srcOffset + nbits) <=? blen src)
       && (BytesForBits (dstOffset + nbits) <=? blen dst)
    then Some (copyBits (Z.to_nat nbits) src srcOffset dst dstOffset)
    else None.

End bitutil.

(** Modelled from the spec: [kArrowAlignment], the 8-byte alignment unit. *)
Definition kArrowAlignment : Z := 8.

(** Modelled from the spec: [padded_length(n, align) = ceil(n / align) * align]. *)
Definition paddedLength (nbytes alignment : Z) : Z :=
  (nbytes + alignment - 1) / alignment * alignment.

(** Modelled from the spec: [kMaxNestingDepth], the default depth budget. *)
Definition kMaxNestingDepth : Z := 64.

(** ** Little-endian 32-bit integers ([arrow.Int32Traits]) *)

Module Int32Traits.

Definition BytesRequired (n : Z) : Z := 4 * n.

Fixpoint le_bytes (n : nat) (z : Z) : list Z :=
  match n with
  | O => []
  | S k => z mod 256 :: le_bytes k (z / 256)
  end.

Fixpoint le_val (bs : list Z) : Z :=
  match bs with
  | [] => 0
  | b :: r => b + 256 * le_val r
  end.

Definition PutInt32 (v : Z) : list Z := le_bytes 4 v.
Definition GetInt32 (bs : list Z) : Z := Int.i32 (le_val bs).

Fixpoint castN (n : nat) (b : list Z) : list Z :=
  match n with
  | O => []
  | S k => GetInt32 (take 4 b) :: castN k (drop 4 b)
  end.

(** [CastFromBytes] reinterprets a byte slice as [len/4] int32 values. *)
Definition CastFromBytes (b : Buffer) : list Z := castN (length b / 4)%nat b.

(** The bytes behind a [[]int32]. *)
Definition CastToBytes (l : list Z) : Buffer := concat (map PutInt32 l).

End Int32Traits.

(** Go's [s[lo:hi]]; [None] is the slice-bounds-out-of-range panic. *)
Definition slice {A} (s : list A) (lo hi : Z) : option (list A) :=
  if (0 <=? lo) && (lo <=? hi) && (hi <=? Z.of_nat (length s))
  then Some (take (Z.to_nat (hi - lo)) (drop (Z.to_nat lo) s))
  else None.

(** Go's [s[i]]; [None] is the index-out-of-range panic. *)
Definition index {A} (s : list A) (i : Z) : option A :=
  if 0 <=? i then s !! Z.to_nat i else None.

(** ** Arrays *)

(** [array.Data]: length, null count, logical offset and buffers. *)
Record Data : Type := mkData {
  Len : Z;
  NullN : Z;
  Offset : Z;
  Buffers : list (option Buffer)
}.

(** An [arrow.Array] as the visitor sees it: the case of the type switch it
    falls in, its [Data], and what the accessors the visitor calls return
    ([Field(i)], [ListValues()], [Offsets()], [Indices()], [Storage()]).
    [FixedWidth] covers every [arrow.FixedWidthDataType] other than
    Boolean; [Other] is any type the switch has no case for. *)
Inductive Array : Type :=
| Null (d : Data)
| Boolean (d : Data)
| FixedWidth (bitWidth : Z) (d : Data)
| Binary (d : Data)
| Utf8 (d : Data)
| Struct (d : Data) (fields : list Array)
| Map (d : Data) (offsets : list Z) (values : Array)
| List (d : Data) (offsets : list Z) (values : Array)
| FixedSizeList (n : Z) (d : Data) (values : Array)
| Dictionary (d : Data) (indices : Array)
| Extension (d : Data) (storage : Array)
| Other (d : Data).

Definition data (arr : Array) : Data :=
  match arr with
  | Null d | Boolean d | FixedWidth _ d | Binary d | Utf8 d | Struct d _
  | Map d _ _ | List d _ _ | FixedSizeList _ d _ | Dictionary d _
  | Extension d _ | Other d => d
  end.

Definition isNull (arr : Array) : bool :=
  match arr with Null _ => true | _ => false end.

(** ** Payloads and encoder state *)

Inductive MessageType : Type :=
| MessageSchema | MessageDictionaryBatch | MessageRecordBatch.

Record fieldMetadata : Type := mkField { fLen : Z; fNulls : Z; fOffset : Z }.
Record bufferMetadata : Type := mkBufMeta { bOffset : Z; bLen : Z }.

(** Modelled from the spec: the header builder ([writeRecordMessage],
    [writeDictionaryMessage], the schema payload builder).  The header is
    kept as the tuple it is built from, not as flatbuffer bytes. *)
Inductive Header : Type :=
| SchemaHeader (n : Z)
| RecordHeader (nrows size : Z) (fs : list fieldMetadata)
    (bs : list bufferMetadata) (codec : Z)
| DictionaryHeader (id : Z) (isDelta : bool) (nrows size : Z)
    (fs : list fieldMetadata) (bs : list bufferMetadata) (codec : Z).

Record Payload : Type := mkPayload {
  msg : MessageType;
  pmeta : option Header;
  size : Z;
  body : list (option Buffer)
}.

Record recordEncoder : Type := mkEncoder {
  fields : list fieldMetadata;
  meta : list bufferMetadata;
  depth : Z;
  start : Z;
  allow64b : bool;
  codec : Z;
  compressNP : Z
}.

(** The encoder and the payload it fills are both reached through
    pointers; the visitor threads the pair. *)
Definition St : Type := recordEncoder * Payload.

Definition set_fields (f : list fieldMetadata) (w : recordEncoder) : recordEncoder :=
  mkEncoder f (meta w) (depth w) (start w) (allow64b w) (codec w) (compressNP w).
Definition set_meta (m : list bufferMetadata) (w : recordEncoder) : recordEncoder :=
  mkEncoder (fields w) m (depth w) (start w) (allow64b w) (codec w) (compressNP w).
Definition set_depth (d : Z) (w : recordEncoder) : recordEncoder :=
  mkEncoder (fields w) (meta w) d (start w) (allow64b w) (codec w) (compressNP w).
Definition set_start (s : Z) (w : recordEncoder) : recordEncoder :=
  mkEncoder (fields w) (meta w) (depth w) s (allow64b w) (codec w) (compressNP w).

Definition set_body (b : list (option Buffer)) (p : Payload) : Payload :=
  mkPayload (msg p) (pmeta p) (size p) b.
Definition set_size (n : Z) (p : Payload) : Payload :=
  mkPayload (msg p) (pmeta p) n (body p).
Definition set_pmeta (h : Header) (p : Payload) : Payload :=
  mkPayload (msg p) (Some h) (size p) (body p).

Definition appendField (f : fieldMetadata) (s : St) : St :=
  (set_fields (fields s.1 ++ [f]) s.1, s.2).
Definition appendBody (b : option Buffer) (s : St) : St :=
  (s.1, set_body (body s.2 ++ [b]) s.2).
(** [w.depth--] and [w.depth++]: the decrement follows the check
    [w.depth > 0] and the increment undoes it, so neither wraps. *)
Definition addDepth (k : Z) (s : St) : St :=
  (set_depth (depth s.1 + k) s.1, s.2).

Definition newRecordEncoder (startOffset maxDepth : Z) (allow64b : bool)
    (codec compressNP : Z) : recordEncoder :=
  mkEncoder [] [] maxDepth startOffset allow64b codec compressNP.

Definition reset (w : recordEncoder) : recordEncoder :=
  set_fields [] (set_start 0 w).

(** ** Buffer helpers of the visitor *)

Definition minI64 (a b : Z) : Z := if a <? b then a else b.

Definition needTruncate (offset : Z) (buf : option Buffer) (minLength : Z) : bool :=
  match buf with
  | None => false
  | Some b => negb (offset =? 0) || (minLength <? blen b)
  end.

Definition newTruncatedBitmap (offset length : Z) (input : option Buffer)
  : result (option Buffer) :=
  match input with
  | None => Ok None
  | Some inp =>
      let minLength := paddedLength (bitutil.BytesForBits length) kArrowAlignment in
      if negb (offset =? 0) || (minLength <? blen inp) then
        (* with a sliced array / non-zero offset, we must copy the bitmap *)
        match bitutil.CopyBitmap inp offset length (zeros minLength) 0 with
        | Some buf => Ok (Some buf)
        | None => Panic "index out of range"
        end
      else Ok (Some inp)
  end.

Definition getZeroBasedValueOffsets (d : Data) : result (option Buffer) :=
  match Buffers d !! 1%nat with
  | None => Panic "index out of range"
  | Some voffsets =>
      let offsetBytesNeeded := Int32Traits.BytesRequired (Len d + 1) in
      let shifted (src : Buffer) : result (option Buffer) :=
        match slice (Int32Traits.CastFromBytes src) (Offset d) (Offset d + Len d + 1) with
        | None => Panic "slice bounds out of range"
        | Some offsets =>
            match offsets with
            | [] => Panic "index out of range"
            | startOffset :: _ =>
                Ok (Some (Int32Traits.CastToBytes
                            (map (fun o => Int.i32 (o - startOffset)) offsets)))
            end
        end in
      let done (v : option Buffer) : result (option Buffer) :=
        match v with
        | Some b => if blen b =? 0 then Ok None else Ok (Some b)
        | None => Ok None
        end in
      match voffsets with
      | None => Panic "nil pointer dereference"
      | Some src =>
          if negb (Offset d =? 0) || (offsetBytesNeeded <? blen src) then
            match shifted src with
            | Ok v => done v
            | r => r
            end
          else done (Some src)
      end
  end.

(** Modelled from the spec: [len(arr.ValueBytes())] of a Binary or String
    array, the total data bytes [src_offsets[offset+len] - src_offsets[offset]]. *)
Definition ValueBytesLen (d : Data) : result Z :=
  match Buffers d !! 1%nat with
  | Some (Some src) =>
      let offs := Int32Traits.CastFromBytes src in
      match index offs (Offset d), index offs (Offset d + Len d) with
      | Some a, Some b => Ok (b - a)
      | _, _ => Panic "index out of range"
      end
  | _ => Panic "nil pointer dereference"
  end.

(** Modelled from the spec: [arr.ValueOffset(0)] of a Binary or String
    array, the first source offset [src_offsets[offset]]. *)
Definition ValueOffset0 (d : Data) : result Z :=
  match Buffers d !! 1%nat with
  | Some (Some src) =>
      match index (Int32Traits.CastFromBytes src) (Offset d) with
      | Some a => Ok a
      | None => Panic "index out of range"
      end
  | _ => Panic "nil pointer dereference"
  end.

(** *** The validity bitmap of [visit] (the [switch arr.NullN()]) *)
Definition validityBitmap (d : Data) : result (option Buffer) :=
  if NullN d =? 0 then
    (* there are no null values, drop the null bitmap *)
    Ok None
  else if NullN d =? Len d then
    (* every value is null, just use a new unset bitmap *)
    Ok (Some (zeros (paddedLength (bitutil.BytesForBits (Len d)) kArrowAlignment)))
  else
    match Buffers d !! 0%nat with
    | None => Panic "index out of range"
    | Some b => newTruncatedBitmap (Offset d) (Len d) b
    end.

(** *** The leaf cases of the type switch of [visit]: the buffers appended *)

Definition visitBoolean (d : Data) : result (list (option Buffer)) :=
  if negb (Len d =? 0) then
    match Buffers d !! 1%nat with
    | None => Panic "index out of range"
    | Some b =>
        match newTruncatedBitmap (Offset d) (Len d) b with
        | Ok bitm => Ok [bitm]
        | Err e => Err e
        | Panic m => Panic m
        end
    end
  else Ok [None].

Definition visitFixedWidth (bitWidth : Z) (d : Data) : result (list (option Buffer)) :=
  match Buffers d !! 1%nat with
  | None => Panic "index out of range"
  | Some values =>
      let arrLen := Len d in
      let typeWidth := Z.quot bitWidth 8 in
      let minLength := paddedLength (Int.i64 (arrLen * typeWidth)) kArrowAlignment in
      if needTruncate (Offset d) values minLength then
        (* non-zero offset: slice the buffer *)
        let offset := Int.i64 (Offset d * typeWidth) in
        let vb := default [] values in
        let len := minI64 (bitutil.CeilByte64 (Int.i64 (arrLen * typeWidth)))
                     (Int.i64 (blen vb - offset)) in
        match slice vb offset (offset + len) with
        | Some v => Ok [Some v]
        | None => Panic "slice bounds out of range"
        end
      else Ok [values]
  end.

(** The [*arrow.BinaryType] and [*arrow.StringType] cases are the same code. *)
Definition visitBinary (d : Data) : result (list (option Buffer)) :=
  match getZeroBasedValueOffsets d with
  | Err e => Err (Wrapf "could not retrieve zero-based value offsets" e)
  | Panic m => Panic m
  | Ok voffsets =>
      match Buffers d !! 2%nat with
      | None => Panic "index out of range"
      | Some values =>
          let total : result Z :=
            match voffsets with
            | Some _ => ValueBytesLen d
            | None => Ok 0
            end in
          match total with
          | Err e => Err e
          | Panic m => Panic m
          | Ok totalDataBytes =>
              if needTruncate (Offset d) values totalDataBytes then
                (* slice data buffer to include the range we need now. *)
                match ValueOffset0 d with
                | Err e => Err e
                | Panic m => Panic m
                | Ok beg =>
                    let len := minI64 (paddedLength totalDataBytes kArrowAlignment)
                                 totalDataBytes in
                    match slice (default [] values) beg (beg + len) with
                    | Some v => Ok [voffsets; Some v]
                    | None => Panic "slice bounds out of range"
                    end
                end
              else Ok [voffsets; values]
          end
      end
  end.

(** The values to recurse into for a Map or List array, after the offsets
    buffer [voffsets] has been computed. *)
Definition listValues (NewSlice : Array -> Z -> Z -> option Array)
    (d : Data) (offsets : list Z) (values : Array) (voffsets : option Buffer)
  : result Array :=
  let range : result (Z * Z) :=
    match voffsets with
    | Some _ =>
        match index offsets 0, index offsets (Len d) with
        | Some o0, Some oN => Ok (o0, oN - o0)
        | _, _ => Panic "index out of range"
        end
    | None => Ok (0, 0)
    end in
  match range with
  | Err e => Err e
  | Panic m => Panic m
  | Ok (values_offset, values_length) =>
      if negb (Z.of_nat (length offsets) =? 0) || (values_length <? Len (data values)) then
        (* must also slice the values *)
        match NewSlice values values_offset values_length with
        | Some v => Ok v
        | None => Panic "arrow/array: index out of range"
        end
      else Ok values
  end.

(** ** The visitor *)

Definition VisitFn : Type := Array -> St -> option (result unit * St).

(** The loop over the fields of a struct array. *)
Fixpoint visitFields (v : VisitFn) (fs : list Array) (s : St) : option (result unit * St) :=
  match fs with
  | [] => Some (Ok tt, s)
  | f :: rest =>
      match v f s with
      | Some (Ok _, s') => visitFields v rest s'
      | Some (Err e, s') => Some (Err (Wrapf "could not visit field of struct-array" e), s')
      | r => r
      end
  end.

(** A nested container: [w.depth--], visit the child, [w.depth++] (the
    increment is skipped when the visit fails). *)
Definition nested (v : VisitFn) (child : Array) (s : St) : option (result unit * St) :=
  match v child (addDepth (-1) s) with
  | Some (Ok _, s') => Some (Ok tt, addDepth 1 s')
  | Some (Err e, s') => Some (Err (Wrapf "could not visit list element for array" e), s')
  | r => r
  end.

Definition appendAll (bs : list (option Buffer)) (s : St) : St :=
  (s.1, set_body (body s.2 ++ bs) s.2).

Definition leaf (r : result (list (option Buffer))) (s : St) : option (result unit * St) :=
  match r with
  | Ok bs => Some (Ok tt, appendAll bs s)
  | Err e => Some (Err e, s)
  | Panic m => Some (Panic m, s)
  end.

Section Visitor.

(** [array.NewSlice], from the array package; [None] is its
    index-out-of-range panic. *)
Variable NewSlice : Array -> Z -> Z -> option Array.

(** The body of [visit].  The recursion into the storage of an extension
    array and the indices of a dictionary array is structural; the
    recursion into the children of nested containers, which the source
    bounds by [w.depth], goes through [sub] ([None]: no budget left). *)
Fixpoint visitWith (sub : option VisitFn) (arr : Array) (s : St) {struct arr}
  : option (result unit * St) :=
  if depth s.1 <=? 0 then Some (Err errMaxRecursion, s)
  else if negb (allow64b s.1) && (Len (data arr) >? Int.MaxInt32) then Some (Err errBigArray, s)
  else
    match arr with
    | Extension _ storage =>
        match visitWith sub storage s with
        | Some (Err e, s') => Some (Err (Wrapf "failed visiting storage of for array" e), s')
        | r => r
        end
    | Dictionary _ indices => visitWith sub indices s
    | _ =>
        let d := data arr in
        (* add all common elements *)
        let s := appendField (mkField (Len d) (NullN d) 0) s in
        if isNull arr then Some (Ok tt, s)
        else
          match validityBitmap d with
          | Err e => Some (Err e, s)
          | Panic m => Some (Panic m, s)
          | Ok bitmap =>
              let s := appendBody bitmap s in
              match arr with
              | Null _ => Some (Ok tt, s)
              | Boolean d => leaf (visitBoolean d) s
              | FixedWidth w d => leaf (visitFixedWidth w d) s
              | Binary d | Utf8 d => leaf (visitBinary d) s
              | Struct _ fs =>
                  let s := addDepth (-1) s in
                  match sub with
                  | None => None
                  | Some v =>
                      match visitFields v fs s with
                      | Some (Ok _, s') => Some (Ok tt, addDepth 1 s')
                      | r => r
                      end
                  end
              | Map d offsets values | List d offsets values =>
                  match getZeroBasedValueOffsets d with
                  | Err e =>
                      Some (Err (Wrapf "could not retrieve zero-based value offsets" e), s)
                  | Panic m => Some (Panic m, s)
                  | Ok voffsets =>
                      let s := appendBody voffsets s in
                      match listValues NewSlice d offsets values voffsets with
                      | Err e => Some (Err e, addDepth (-1) s)
                      | Panic m => Some (Panic m, addDepth (-1) s)
                      | Ok child =>
                          match sub with
                          | None => None
                          | Some v => nested v child s
                          end
                      end
                  end
              | FixedSizeList size d values =>
                  let beg := Int.i64 (Offset d * size) in
                  let end_ := Int.i64 (Int.i64 (Offset d + Len d) * size) in
                  match NewSlice values beg end_ with
                  | None => Some (Panic "arrow/array: index out of range", addDepth (-1) s)
                  | Some child =>
                      match sub with
                      | None => None
                      | Some v => nested v child s
                      end
                  end
              | Dictionary _ _ | Extension _ _ => Some (Ok tt, s)
              | Other _ => Some (Panic "arrow/ipc: unknown array", s)
              end
          end
    end.

(** [visit] with a budget of [n] levels of nested containers. *)
Fixpoint visitN (n : nat) : VisitFn :=
  visitWith (match n with O => None | S k => Some (visitN k) end).

(** [w.visit(p, arr)]: the budget is the encoder's own depth. *)
Definition visit (arr : Array) (s : St) : result unit * St :=
  match visitN (Z.to_nat (depth s.1)) arr s with
  | Some r => r
  | None => (Err errMaxRecursion, s)
  end.

End Visitor.

(** ** Records and the record encoder *)

(** [arrow.Type], the type ids. *)
Inductive TypeID : Type :=
| NULL | BOOL | INT32 | INT64 | FLOAT64 | STRING | BINARY | FIXED_SIZE_BINARY
| LIST | STRUCT | MAP | FIXED_SIZE_LIST | DICTIONARY | EXTENSION
| OTHER (id : Z).

Record Field : Type := mkFieldDef { Name : string; Type_ : TypeID; Nullable : bool }.

Definition Schema : Type := list Field.

#[global] Instance TypeID_eq_dec : EqDecision TypeID.
Proof. solve_decision. Defined.

#[global] Instance Field_eq_dec : EqDecision Field.
Proof. solve_decision. Defined.

(** [schema.Equal]: the same fields in the same order. *)
Definition schemaEqual (a b : Schema) : bool := bool_decide (a = b).

(** [arrow.Record]: schema, columns and number of rows. *)
Record Rec : Type := mkRec {
  recSchema : option Schema;
  Columns : list Array;
  NumRows : Z
}.

(** The running offsets of [encode]: for each body buffer its
    [bufferMetadata], and the offset after the last one. *)
Fixpoint layout (offset : Z) (bs : list (option Buffer)) : list bufferMetadata * Z :=
  match bs with
  | [] => ([], offset)
  | buf :: rest =>
      (* the buffer might be null if we are handling zero row lengths. *)
      let size := match buf with Some b => blen b | None => 0 end in
      let padding := match buf with
                     | Some b => bitutil.CeilByte64 size - size
                     | None => 0
                     end in
      let '(ms, last) := layout (Int.i64 (offset + (size + padding))) rest in
      (mkBufMeta offset size :: ms, last)
  end.

Section Encoder.

Variable NewSlice : Array -> Z -> Z -> option Array.

(** [getCompressor(codec)] and the [Reset], [Write], [Close] sequence on
    the compressor it returns: the bytes the compressor leaves in the
    output for an input buffer, or its error. *)
Variable getCompressor : Z -> Buffer -> result Buffer.

(** The outcome of the worker fan-out of [compressBodyBuffers] when
    [compressNP > 1] (goroutines and channels): the error returned and
    the body left behind. *)
Variable compressParallel :
  Z -> Z -> list (option Buffer) -> result unit * list (option Buffer).

(** The closure [compress] of [compressBodyBuffers], on one body entry. *)
Definition compress (codec : Z) (b : option Buffer) : result (option Buffer) :=
  match b with
  | None => Ok None
  | Some buf =>
      if blen buf =? 0 then Ok (Some buf)
      else
        match getCompressor codec buf with
        | Ok out => Ok (Some (Int32Traits.le_bytes 8 (blen buf) ++ out))
        | Err e => Err e
        | Panic m => Panic m
        end
  end.

Fixpoint compressSerial (codec : Z) (bs : list (option Buffer))
  : result unit * list (option Buffer) :=
  match bs with
  | [] => (Ok tt, [])
  | b :: rest =>
      match compress codec b with
      | Ok b' => let '(r, rest') := compressSerial codec rest in (r, b' :: rest')
      | Err e => (Err e, b :: rest)
      | Panic m => (Panic m, b :: rest)
      end
  end.

Definition compressBodyBuffers (w : recordEncoder) (p : Payload) : result unit * Payload :=
  let '(r, b) :=
    if compressNP w <=? 1 then compressSerial (codec w) (body p)
    else compressParallel (compressNP w) (codec w) (body p) in
  (r, set_body b p).

(** The loop of [encode] over the columns. *)
Fixpoint visitColumns (cols : list Array) (s : St) : result unit * St :=
  match cols with
  | [] => (Ok tt, s)
  | col :: rest =>
      match visit NewSlice col s with
      | (Ok _, s') => visitColumns rest s'
      | (Err e, s') => (Err (Wrapf "arrow/ipc: could not encode column" e), s')
      | r => r
      end
  end.

Definition encode (rec : Rec) (s : St) : result unit * St :=
  (* perform depth-first traversal of the row-batch *)
  match visitColumns (Columns rec) s with
  | (Ok _, (w, p)) =>
      let compressed : result unit * Payload :=
        if negb (codec w =? -1) then
          (* the returned error is not looked at *)
          match compressBodyBuffers w p with
          | (Panic m, p') => (Panic m, p')
          | (_, p') => (Ok tt, p')
          end
        else (Ok tt, p) in
      match compressed with
      | (Ok _, p) =>
          let '(ms, offset) := layout (start w) (body p) in
          let w := set_meta ms w in
          let p := set_size (Int.i64 (offset - start w)) p in
          if negb (bitutil.IsMultipleOf8 (size p)) then (Panic "not aligned", (w, p))
          else (Ok tt, (w, p))
      | (r, p) => (r, (w, p))
      end
  | r => r
  end.

(** [recordEncoder.encodeMetadata] and [recordEncoder.Encode]. *)
Definition encodeMetadata (nrows : Z) (s : St) : St :=
  (s.1, set_pmeta (RecordHeader nrows (size s.2) (fields s.1) (meta s.1) (codec s.1)) s.2).

Definition Encode (rec : Rec) (s : St) : result unit * St :=
  match encode rec s with
  | (Ok _, s') => (Ok tt, encodeMetadata (NumRows rec) s')
  | r => r
  end.

End Encoder.

(** ** Dictionaries as the tracker sees them *)

(** [arrow.ArrayData] as [hasNestedDict] reads it: the identity of the
    [Data] object (its address), the id of its type, and its children. *)
Inductive ArrayData : Type :=
| mkArrayData (ptr : Z) (id : TypeID) (children : list ArrayData).

Definition adPtr (d : ArrayData) : Z := match d with mkArrayData p _ _ => p end.
Definition adID (d : ArrayData) : TypeID := match d with mkArrayData _ i _ => i end.
Definition Children (d : ArrayData) : list ArrayData :=
  match d with mkArrayData _ _ c => c end.

Definition isDICTIONARY (t : TypeID) : bool :=
  match t with DICTIONARY => true | _ => false end.

Fixpoint hasNestedDict (data : ArrayData) : bool :=
  match data with
  | mkArrayData _ id children =>
      if isDICTIONARY id then true
      else
        (fix range (cs : list ArrayData) : bool :=
           match cs with
           | [] => false
           | c :: rest => if hasNestedDict c then true else range rest
           end) children
  end.

(** ** Sinks *)

(** The [PayloadWriter] interface. *)
Class PayloadWriter (PW : Type) : Type := {
  pwStart : PW -> option error * PW;
  WritePayload : Payload -> PW -> option error * PW;
  pwClose : PW -> option error * PW
}.

(** [io.Writer]: bytes written, error, and the writer afterwards. *)
Class IOWriter (W : Type) : Type := {
  ioWrite : list Z -> W -> (Z * option error) * W
}.

(** Modelled from the spec: [kEOS], the EOS marker: four bytes
    [0xFFFFFFFF] followed by four zero bytes. *)
Definition kEOS : list Z := [255; 255; 255; 255; 0; 0; 0; 0].

Record swriter (W : Type) : Type := mkSwriter { sw_w : W; pos : Z }.
Arguments mkSwriter {W} sw_w pos.
Arguments sw_w {W} s.
Arguments pos {W} s.

Section StreamSink.

Context {W : Type} `{IOWriter W}.

(** [writeIPCPayload], the wire framing of one payload (not part of this file). *)
Variable writeIPCPayload : swriter W -> Payload -> (Z * option error) * swriter W.

Definition swriter_Write (p : list Z) (w : swriter W) : (Z * option error) * swriter W :=
  let '((n, err), io) := ioWrite p (sw_w w) in
  ((n, err), mkSwriter io (Int.i64 (pos w + n))).

Definition swriter_Start (w : swriter W) : option error * swriter W := (None, w).

Definition swriter_Close (w : swriter W) : option error * swriter W :=
  let '((_, err), w') := swriter_Write kEOS w in (err, w').

Definition swriter_WritePayload (p : Payload) (w : swriter W) : option error * swriter W :=
  let '((_, err), w') := writeIPCPayload w p in (err, w').

#[local] Instance swriter_PayloadWriter : PayloadWriter (swriter W) := {
  pwStart := swriter_Start;
  WritePayload := swriter_WritePayload;
  pwClose := swriter_Close
}.

End StreamSink.

(** ** The dictionary tracker and the stream writer *)

Section Writer.

(** The values of a dictionary and their approximate equality
    ([array.ApproxEqual] with [WithNaNsEqual(true)] on one element). *)
Context {Elem : Type} (approx : Elem -> Elem -> bool).

(** An [arrow.Array] as the tracker uses it: its [Data()], its elements,
    and the array the encoder visits.  [Len()] is the number of elements. *)
Record DictArray : Type := mkDict {
  Data_ : ArrayData;
  elems : list Elem;
  col : Array
}.

Definition dLen (d : DictArray) : Z := Z.of_nat (length (elems d)).

Fixpoint approxList (a b : list Elem) : bool :=
  match a, b with
  | [], [] => true
  | x :: a', y :: b' => approx x y && approxList a' b'
  | _, _ => false
  end.

(** Modelled from the spec: [array.ApproxEqual(left, right, eqopt)],
    element-wise approximately equal, NaNs compare equal. *)
Definition ApproxEqual (left right : DictArray) : bool :=
  approxList (elems left) (elems right).

(** Modelled from the spec: [array.SliceApproxEqual], [ApproxEqual] of the
    elements [[lbeg, lend)] of [left] and [[rbeg, rend)] of [right]. *)
Definition SliceApproxEqual (left : DictArray) (lbeg lend : Z)
    (right : DictArray) (rbeg rend : Z) : bool :=
  approxList (take (Z.to_nat (lend - lbeg)) (drop (Z.to_nat lbeg) (elems left)))
             (take (Z.to_nat (rend - rbeg)) (drop (Z.to_nat rbeg) (elems right))).

Variable NewSlice : Array -> Z -> Z -> option Array.
Variable getCompressor : Z -> Buffer -> result Buffer.
Variable compressParallel :
  Z -> Z -> list (option Buffer) -> result unit * list (option Buffer).

(** The [Data] object [array.NewSlice] allocates for a slice of an array
    with the given [Data]. *)
Variable newSliceData : ArrayData -> ArrayData.

(** Modelled from the spec: [array.NewSlice(arr, i, j)] on a dictionary,
    the elements [[i, j)]; [None] is its index-out-of-range panic. *)
Definition NewSliceDict (d : DictArray) (i j : Z) : option DictArray :=
  match slice (elems d) i j, NewSlice (col d) i j with
  | Some es, Some a => Some (mkDict (newSliceData (Data_ d)) es a)
  | _, _ => None
  end.

(** [dictutils.Mapper] and the collaborators that use it. *)
Context {Mapper : Type}.
Variable ImportSchema : Schema -> Mapper -> Mapper.
Variable payloadFromSchema : Schema -> Mapper -> list Payload.
Variable CollectDictionaries : Rec -> Mapper -> result (list (Z * DictArray)).

Context {PW : Type} `{PayloadWriter PW}.

(** Reference-count events on dictionary arrays. *)
Inductive RefEvent : Type :=
| Retain (d : DictArray)
| Release (d : DictArray).

(** [dictEncoder.Encode]. *)
Definition dictEncoder_Encode (id : Z) (isDelta : bool) (dict : DictArray) (s : St)
  : result unit * St :=
  let s := (set_start 0 s.1, s.2) in
  let schema := [mkFieldDef "dictionary" (adID (Data_ dict)) true] in
  let batch := mkRec (Some schema) [col dict] (dLen dict) in
  match encode NewSlice getCompressor compressParallel batch s with
  | (Ok _, (w, p)) =>
      (Ok tt, (set_start 0 w,
               set_pmeta (DictionaryHeader id isDelta (NumRows batch) (size p)
                            (fields w) (meta w) (codec w)) p))
  | (r, (w, p)) => (r, (set_start 0 w, p))
  end.

(** What [writeDictionaryPayloads] works on: the map of last written
    dictionaries, the payload writer, the encoder, and the log of
    reference-count events. *)
Record Tracker : Type := mkTracker {
  lastWrittenDicts : gmap Z DictArray;
  pw : option PW;
  encoder : recordEncoder;
  refLog : list RefEvent
}.

Definition logRef (e : list RefEvent) (t : Tracker) : Tracker :=
  mkTracker (lastWrittenDicts t) (pw t) (encoder t) (refLog t ++ e).

(** [pw.WritePayload(data)] on a possibly nil interface value. *)
Definition sinkWrite (p : Payload) (o : option PW) : result unit * option PW :=
  match o with
  | None => (Panic "nil pointer dereference", None)
  | Some s =>
      match WritePayload p s with
      | (None, s') => (Ok tt, Some s')
      | (Some e, s') => (Err e, Some s')
      end
  end.

(** The prologue of one iteration of the loop of
    [writeDictionaryPayloads]: [None] is [continue]; otherwise the
    [deltaStart] to emit from. *)
Definition deltaStartOf (isFileFormat emitDictDeltas : bool)
    (lastDict : option DictArray) (dict : DictArray) : result (option Z) :=
  match lastDict with
  | Some lastDict =>
      if adPtr (Data_ lastDict) =? adPtr (Data_ dict) then Ok None
      else
        let newLen := dLen dict in
        let lastLen := dLen lastDict in
        if (lastLen =? newLen) && ApproxEqual lastDict dict then
          (* same dictionary by value *)
          Ok None
        else if isFileFormat then Err errDictReplacement
        else if (newLen >? lastLen) && emitDictDeltas
                && negb (hasNestedDict (Data_ dict))
                && SliceApproxEqual lastDict 0 lastLen dict 0 lastLen
        then Ok (Some lastLen)
        else Ok (Some 0)
  | None => Ok (Some 0)
  end.

(** The tail of one iteration, from [enc.Encode] on: encode [dict] as the
    batch for [id], hand it to the payload writer, and make [pdict] the
    last written dictionary of [id]. *)
Definition emitDict (id : Z) (isDelta : bool) (lastDict : option DictArray)
    (pdict dict : DictArray) (t : Tracker) : result unit * Tracker :=
  let data := mkPayload MessageDictionaryBatch None 0 [] in
  match dictEncoder_Encode id isDelta dict (encoder t, data) with
  | (Ok _, (w, data)) =>
      match sinkWrite data (pw t) with
      | (Ok _, s) =>
          (Ok tt,
           mkTracker (<[id := pdict]> (lastWrittenDicts t)) s w
             (refLog t
              ++ match lastDict with Some l => [Release l] | None => [] end
              ++ [Retain pdict]))
      | (r, s) => (r, mkTracker (lastWrittenDicts t) s w (refLog t))
      end
  | (r, (w, _)) => (r, mkTracker (lastWrittenDicts t) (pw t) w (refLog t))
  end.

(** One iteration of the loop: the outcome ([Ok] is fall through to the
    next pair), the tracker, and the slice whose release was deferred. *)
Definition dictStep (isFileFormat emitDictDeltas : bool) (pr : Z * DictArray)
    (t : Tracker) : result unit * Tracker * option DictArray :=
  let '(id, pdict) := pr in
  let t := mkTracker (lastWrittenDicts t) (pw t) (reset (encoder t)) (refLog t) in
  let lastDict := lastWrittenDicts t !! id in
  match deltaStartOf isFileFormat emitDictDeltas lastDict pdict with
  | Err e => (Err e, t, None)
  | Panic m => (Panic m, t, None)
  | Ok None => (Ok tt, t, None)
  | Ok (Some deltaStart) =>
      if deltaStart >? 0 then
        match NewSliceDict pdict deltaStart (dLen pdict) with
        | Some dict => (emitDict id (deltaStart >? 0) lastDict pdict dict t, Some dict)
        | None => (Panic "arrow/array: index out of range", t, None)
        end
      else (emitDict id (deltaStart >? 0) lastDict pdict pdict t, None)
  end.

(** The loop; the deferred release of a slice runs when the function
    returns, after those deferred later. *)
Fixpoint dictLoop (isFileFormat emitDictDeltas : bool) (pairs : list (Z * DictArray))
    (t : Tracker) : result unit * Tracker :=
  match pairs with
  | [] => (Ok tt, t)
  | pr :: rest =>
      let '(r, t', deferred) := dictStep isFileFormat emitDictDeltas pr t in
      let '(r', t'') :=
        match r with
        | Ok _ => dictLoop isFileFormat emitDictDeltas rest t'
        | _ => (r, t')
        end in
      (r', logRef (match deferred with Some d => [Release d] | None => [] end) t'')
  end.

Definition writeDictionaryPayloads (batch : Rec) (isFileFormat emitDictDeltas : bool)
    (mapper : Mapper) (t : Tracker) : result unit * Tracker :=
  match CollectDictionaries batch mapper with
  | Err e => (Err e, t)
  | Panic m => (Panic m, t)
  | Ok dictionaries =>
      let '(r, t') := dictLoop isFileFormat emitDictDeltas dictionaries t in
      (r, logRef (map (fun pr => Release pr.2) dictionaries) t')
  end.

(** *** The writer *)

(** What [newConfig(opts...)] returns, as far as the constructors read it. *)
Record config : Type := mkConfig {
  cfg_schema : Schema;
  cfg_codec : Z;
  cfg_compressNP : Z
}.

(** [Writer].  The map, the payload writer and the log of reference-count
    events are the [Tracker] that [writeDictionaryPayloads] is handed;
    the field [w] (the output stream, reached through [pw] only) is left
    out. *)
Record Writer : Type := mkWriter {
  w_pw : option PW;
  started : bool;
  schema : Schema;
  mapper : Mapper;
  w_codec : Z;
  w_compressNP : Z;
  w_lastWrittenDicts : gmap Z DictArray;
  emitDictDeltas : bool;
  w_refLog : list RefEvent
}.

(** The zero value of [dictutils.Mapper]. *)
Variable zeroMapper : Mapper.

Definition NewWriterWithPayloadWriter (pw : PW) (cfg : config) : Writer :=
  mkWriter (Some pw) false (cfg_schema cfg) zeroMapper (cfg_codec cfg)
    (cfg_compressNP cfg) ∅ false [].

Definition set_pw (o : option PW) (w : Writer) : Writer :=
  mkWriter o (started w) (schema w) (mapper w) (w_codec w) (w_compressNP w)
    (w_lastWrittenDicts w) (emitDictDeltas w) (w_refLog w).

(** The loop of [start] over the schema payloads. *)
Fixpoint writePayloads (ps : list Payload) (o : option PW) : result unit * option PW :=
  match ps with
  | [] => (Ok tt, o)
  | data :: rest =>
      match sinkWrite data o with
      | (Ok _, o') => writePayloads rest o'
      | r => r
      end
  end.

Definition Writer_start (w : Writer) : result unit * Writer :=
  let m := ImportSchema (schema w) (mapper w) in
  (* write out schema payloads *)
  let ps := payloadFromSchema (schema w) m in
  let '(r, o) := writePayloads ps (w_pw w) in
  (r, mkWriter o true (schema w) m (w_codec w) (w_compressNP w) ∅
        (emitDictDeltas w) (w_refLog w)).

Definition releaseAll (m : gmap Z DictArray) : list RefEvent :=
  map (fun kv => Release kv.2) (map_to_list m).

(** [Writer.Close].  The third component is the payload writer after the
    call: the object outlives the reference [w.pw], which is set to nil. *)
Definition Writer_Close (w : Writer) : result unit * Writer * option PW :=
  let '(r, w) := if negb (started w) then Writer_start w else (Ok tt, w) in
  match r with
  | Ok _ =>
      match w_pw w with
      | None => (Ok tt, w, None)
      | Some p =>
          match pwClose p with
          | (Some e, p') =>
              (Err (Wrapf "arrow/ipc: could not close payload writer" e),
               set_pw (Some p') w, Some p')
          | (None, p') =>
              (Ok tt,
               mkWriter None (started w) (schema w) (mapper w) (w_codec w)
                 (w_compressNP w) (w_lastWrittenDicts w) (emitDictDeltas w)
                 (w_refLog w ++ releaseAll (w_lastWrittenDicts w)),
               Some p')
          end
      end
  | _ => (r, w, w_pw w)
  end.

(** [Writer.Write] up to its deferred [recover]. *)
Definition Writer_write (rec : Rec) (w : Writer) : result unit * Writer :=
  let '(r, w) := if negb (started w) then Writer_start w else (Ok tt, w) in
  match r with
  | Ok _ =>
      if match recSchema rec with
         | None => true
         | Some sc => negb (schemaEqual sc (schema w))
         end
      then (Err errInconsistentSchema, w)
      else
        let allow64b := true in
        let data := mkPayload MessageRecordBatch None 0 [] in
        let enc := newRecordEncoder 0 kMaxNestingDepth allow64b (w_codec w) (w_compressNP w) in
        let '(r, t) :=
          writeDictionaryPayloads rec false (emitDictDeltas w) (mapper w)
            (mkTracker (w_lastWrittenDicts w) (w_pw w) enc (w_refLog w)) in
        let w := mkWriter (pw t) (started w) (schema w) (mapper w) (w_codec w)
                   (w_compressNP w) (lastWrittenDicts t) (emitDictDeltas w) (refLog t) in
        match r with
        | Err e => (Err (Wrapf "arrow/ipc: failure writing dictionary batches" e), w)
        | Panic m => (Panic m, w)
        | Ok _ =>
            let enc := reset (encoder t) in
            match Encode NewSlice getCompressor compressParallel rec (enc, data) with
            | (Err e, _) =>
                (Err (Wrapf "arrow/ipc: could not encode record to payload" e), w)
            | (Panic m, _) => (Panic m, w)
            | (Ok _, (_, data)) =>
                let '(r, o) := sinkWrite data (w_pw w) in (r, set_pw o w)
            end
        end
  | _ => (r, w)
  end.

(** [Writer.Write]: a panic is recovered into an error. *)
Definition Writer_Write (rec : Rec) (w : Writer) : option error * Writer :=
  match Writer_write rec w with
  | (Ok _, w') => (None, w')
  | (Err e, w') => (Some e, w')
  | (Panic m, w') => (Some (errRecovered m), w')
  end.

End Writer.

(** [NewWriter]: the payload writer is a [swriter] on the output stream. *)
Definition NewWriter {Elem Mapper W : Type} (zeroMapper : Mapper) (w : W) (cfg : config)
  : @Writer Elem Mapper (swriter W) :=
  mkWriter (Some (mkSwriter w 0)) false (cfg_schema cfg) zeroMapper (cfg_codec cfg)
    0 ∅ false [].

(** ** The layout of a body, as the specification words it *)

(** The length of a body buffer and its length padded to the next 8-byte
    boundary; an absent buffer counts for nothing. *)
Definition bufLen (b : option Buffer) : Z :=
  match b with Some x => blen x | None => 0 end.

Definition paddedLen (b : option Buffer) : Z := bitutil.CeilByte64 (bufLen b).

(** The sum of the padded buffer lengths. *)
Definition bodySize (bs : list (option Buffer)) : Z :=
  foldr (fun b acc => paddedLen b + acc) 0 bs.

(** Cumulative offsets: each buffer starts where the padded previous one ends. *)
Fixpoint offsetsFrom (o : Z) (bs : list (option Buffer)) : list bufferMetadata :=
  match bs with
  | [] => []
  | b :: rest => mkBufMeta o (bufLen b) :: offsetsFrom (o + paddedLen b) rest
  end.

(** ** The validity bitmap, as the specification words it *)

(** The arrays that go through the common part of [visit]: all but Null
    arrays (which contribute no buffer) and extension and dictionary
    arrays (which are visited as their storage and their indices). *)
Definition common (arr : Array) : bool :=
  match arr with
  | Null _ | Dictionary _ _ | Extension _ _ => false
  | _ => true
  end.

(** The validity entry [bm] for an array with data [d] and validity
    buffer [vb]. *)
Definition validitySpec (d : Data) (vb bm : option Buffer) : Prop :=
  let minLength := paddedLength (bitutil.BytesForBits (Len d)) kArrowAlignment in
  if NullN d =? 0 then bm = None
  else if NullN d =? Len d then bm = Some (zeros minLength)
  else
    match vb with
    | None => bm = None
    | Some src =>
        if negb (Offset d =? 0) || (minLength <? blen src)
        then exists out,
               bm = Some out
               /\ blen out = minLength
               /\ (forall i, 0 <= i < Len d ->
                     bitutil.BitIsSet out i = bitutil.BitIsSet src (Offset d + i))
               /\ (forall k, bitutil.BytesForBits (Len d) <= Z.of_nat k -> nth k out 0 = 0)
        else bm = Some src
    end.

(** The arrays with an offsets buffer: Binary, String, List and Map. *)
Definition variableWidth (arr : Array) : bool :=
  match arr with
  | Binary _ | Utf8 _ | List _ _ _ | Map _ _ _ => true
  | _ => false
  end.

(** The offsets entry [vo] for an array with data [d] and offsets buffer
    [src]: a new buffer of [len + 1] entries [src[offset + i] -
    src[offset]] when the offset is nonzero or [src] holds more than
    [len + 1] entries, [src] itself otherwise; but no buffer for an
    empty [src]. *)
Definition offsetsSpec (d : Data) (src : Buffer) (vo : option Buffer) : Prop :=
  let offs := Int32Traits.CastFromBytes src in
  if blen src =? 0 then vo = None
  else if negb (Offset d =? 0) || (Len d + 1 <? Z.of_nat (length offs))
  then exists out,
         vo = Some out
         /\ Z.of_nat (length (Int32Traits.CastFromBytes out)) = Len d + 1
         /\ (forall i, 0 <= i <= Len d ->
               Int32Traits.CastFromBytes out !! Z.to_nat i
               = Some (nth (Z.to_nat (Offset d + i)) offs 0 - nth (Z.to_nat (Offset d)) offs 0))
         /\ Int32Traits.CastFromBytes out !! 0%nat = Some 0
  else vo = Some src.

(** ** Predicates of the statements *)

(** The visitor [v] relates the state it is given to the state it leaves
    by [R], whatever it returns. *)
Definition preserves (R : St -> St -> Prop) (v : VisitFn) : Prop :=
  forall arr s r s', v arr s = Some (r, s') -> R s s'.

(** [v] returns on every state of depth at most [d0], and a successful
    visit leaves the depth as it found it. *)
Definition returns (d0 : Z) (v : VisitFn) : Prop :=
  forall arr s, depth s.1 <= d0 ->
    exists r s', v arr s = Some (r, s') /\ (r = Ok tt -> depth s'.1 = depth s.1).

(** The dictionary last written for the id of the pair is the same as the
    dictionary of the pair: by identity of its [Data], or by length and
    approximate value. *)
Definition unchanged {Elem PW : Type} (approx : Elem -> Elem -> bool)
    (t : @Tracker Elem PW) (pr : Z * @DictArray Elem) : Prop :=
  exists L, lastWrittenDicts t !! pr.1 = Some L /\
    (adPtr (Data_ L) = adPtr (Data_ pr.2)
     \/ (dLen L = dLen pr.2 /\ ApproxEqual approx L pr.2 = true)).

(** The tracker after [enc.reset()]. *)
Definition resetEncoder {Elem PW : Type} (t : @Tracker Elem PW) : @Tracker Elem PW :=
  mkTracker (lastWrittenDicts t) (pw t) (reset (encoder t)) (refLog t).

(** The visitor leaves the configuration of the encoder alone. *)
Definition sameConfig (s s' : St) : Prop :=
  start s'.1 = start s.1 /\ allow64b s'.1 = allow64b s.1
  /\ codec s'.1 = codec s.1 /\ compressNP s'.1 = compressNP s.1
  /\ msg s'.2 = msg s.2.

(** The helpers of the visitor return a value or panic: none of them
    returns an error. *)
Definition noErr {A} (r : result A) : Prop := forall e, r <> Err e.

(** The result is not the too-large error, however wrapped. *)
Definition notBig (r : result unit) : Prop :=
  forall e, r = Err e -> unwrap e <> errBigArray.

(** With 64-bit lengths allowed, [v] does not return the too-large error
    and leaves them allowed. *)
Definition lenient (v : VisitFn) : Prop :=
  forall arr s r s', allow64b s.1 = true -> v arr s = Some (r, s') ->
    notBig r /\ allow64b s'.1 = true.

(** The fields appended between two states all have offset 0. *)
Definition zeroOffsets (s s' : St) : Prop :=
  exists extra, fields s'.1 = fields s.1 ++ extra /\ Forall (fun f => fOffset f = 0) extra.

(** The body only grows. *)
Definition grows (s s' : St) : Prop := exists rest, body s'.2 = body s.2 ++ rest.

(** ** A reference environment

    Simple implementations of the collaborators, for the concrete
    examples: arrays without nulls are sliced by moving offset and
    length, the codec stores its input, the payload writer keeps the
    payloads it is handed, the output stream is a byte buffer. *)
Module Example.

Definition sliceData (d : Data) (i j : Z) : option Data :=
  if (0 <=? i) && (i <=? j) && (j <=? Len d) && (NullN d =? 0)
  then Some (mkData (j - i) 0 (Offset d + i) (Buffers d))
  else None.

Definition NewSlice (a : Array) (i j : Z) : option Array :=
  match a with
  | Null d => Null <$> sliceData d i j
  | Boolean d => Boolean <$> sliceData d i j
  | FixedWidth w d => FixedWidth w <$> sliceData d i j
  | Binary d => Binary <$> sliceData d i j
  | Utf8 d => Utf8 <$> sliceData d i j
  | FixedSizeList n d v => (fun d' => FixedSizeList n d' v) <$> sliceData d i j
  | _ => None
  end.

Definition store : Z -> Buffer -> result Buffer := fun _ b => Ok b.
Definition failing : Z -> Buffer -> result Buffer := fun _ _ => Err (errExternal 1).

Definition noParallel : Z -> Z -> list (option Buffer) -> result unit * list (option Buffer) :=
  fun _ _ bs => (Ok tt, bs).

Definition newSliceData (d : ArrayData) : ArrayData :=
  mkArrayData (adPtr d + 1000) (adID d) (Children d).

(** A payload writer that keeps what it is handed; [closed] counts the
    calls of [Close]. *)
Record Log : Type := mkLog { written : list Payload; closed : Z }.

#[global] Instance Log_PayloadWriter : PayloadWriter Log := {
  pwStart l := (None, l);
  WritePayload p l := (None, mkLog (written l ++ [p]) (closed l));
  pwClose l := (None, mkLog (written l) (closed l + 1))
}.

(** An in-memory output stream. *)
#[global] Instance Bytes_IOWriter : IOWriter (list Z) := {
  ioWrite p w := ((Z.of_nat (length p), None), w ++ p)
}.

(** A framing of one payload: continuation marker, an 8-byte header that
    holds the message kind, and the body buffers. *)
Definition frame (w : swriter (list Z)) (p : Payload) : (Z * option error) * swriter (list Z) :=
  swriter_Write ([255; 255; 255; 255] ++ Int32Traits.le_bytes 4 8
                 ++ [match msg p with
                     | MessageSchema => 1
                     | MessageDictionaryBatch => 2
                     | MessageRecordBatch => 3
                     end; 0; 0; 0; 0; 0; 0; 0]
                 ++ concat (map (default []) (body p))) w.

Definition int32s (l : list Z) : Array :=
  FixedWidth 32 (mkData (Z.of_nat (length l)) 0 0 [None; Some (Int32Traits.CastToBytes l)]).

(** A dictionary of int32 values whose [Data] lives at address [ptr]. *)
Definition dict (ptr : Z) (l : list Z) : @DictArray Z :=
  mkDict (mkArrayData ptr INT32 []) l (int32s l).

Definition enc0 : recordEncoder := newRecordEncoder 0 kMaxNestingDepth true (-1) 0.

Definition tracker0 (m : gmap Z (@DictArray Z)) : @Tracker Z Log :=
  mkTracker m (Some (mkLog [] 0)) enc0 [].

(** An approximate comparison with an absolute tolerance of one unit. *)
Definition within1 (a b : Z) : bool := Z.abs (a - b) <=? 1.

(** A schema with one field, its one schema payload, and records without
    dictionary columns. *)
Definition schemaX : Schema := [mkFieldDef "x" INT32 true].

Definition importSchema : Schema -> unit -> unit := fun _ m => m.

Definition schemaPayloads : Schema -> unit -> list Payload :=
  fun _ _ => [mkPayload MessageSchema (Some (SchemaHeader 1)) 0 []].

Definition noDicts : Rec -> unit -> result (list (Z * @DictArray Z)) := fun _ _ => Ok [].

Definition payload0 : Payload := mkPayload MessageRecordBatch None 0 [].

(** The record [x = [1, 2, 3]]. *)
Definition rec3 : Rec := mkRec (Some schemaX) [int32s [1; 2; 3]] 3.

(** A column of 2^31 int32 values over the values buffer [vals], and the
    record with that column. *)
Definition bigColumn (vals : Buffer) : Array :=
  FixedWidth 32 (mkData 2147483648 0 0 [None; Some vals]).

Definition bigRec (vals : Buffer) : Rec :=
  mkRec (Some schemaX) [bigColumn vals] 2147483648.

(** [n] fixed-size lists of one list of one element around [a]. *)
Fixpoint wrapped (n : nat) (a : Array) : Array :=
  match n with
  | O => a
  | S k => FixedSizeList 1 (mkData 1 0 0 [None]) (wrapped k a)
  end.

(** An array of 2^31 nulls, as the one element of a fixed-size list of
    size 2^31, 64 levels below the column. *)
Definition nulls31 : Array := Null (mkData 2147483648 0 0 []).

Definition deepRec : Rec :=
  mkRec (Some schemaX)
    [wrapped 63 (FixedSizeList 2147483648 (mkData 1 0 0 [None]) nulls31)] 1.

(** [Write] on a writer with the payload writer [Log]. *)
Definition WriteLog (gc : Z -> Buffer -> result Buffer) :=
  @Writer_Write Z Z.eqb NewSlice gc noParallel newSliceData unit importSchema
    schemaPayloads noDicts Log _.

Definition writerLog (codec np : Z) : @Writer Z unit Log :=
  NewWriterWithPayloadWriter tt (mkLog [] 0) (mkConfig schemaX codec np).

End Example.

(** *** Runs of the dictionary tracker *)

Module TrackerExamples.
Import Example.

Definition one (ptr : Z) (l : list Z) : gmap Z (@DictArray Z) := <[7 := dict ptr l]> ∅.

Definition collect (pairs : list (Z * @DictArray Z)) : Rec -> unit -> result (list (Z * @DictArray Z)) :=
  fun _ _ => Ok pairs.

Definition batch0 : Rec := mkRec (Some []) [] 0.

Definition stepZ := @dictStep Z Z.eqb NewSlice store noParallel newSliceData Log _.
Definition step1 := @dictStep Z within1 NewSlice store noParallel newSliceData Log _.
Definition writeZ pairs :=
  @writeDictionaryPayloads Z Z.eqb NewSlice store noParallel newSliceData unit (collect pairs) Log _.

Definition sliced : Array :=
  FixedWidth 32 (mkData 1 0 1 [None; Some [10; 0; 0; 0; 20; 0; 0; 0]]).

(** A record with one dictionary-encoded column of two rows, and a
    writer for its schema; [collect] hands out the dictionary. *)
Definition schemaD : Schema := [mkFieldDef "d" DICTIONARY true].

Definition recD : Rec :=
  mkRec (Some schemaD) [Dictionary (mkData 2 0 0 [None]) (int32s [0; 1])] 2.

Definition writeD pairs :=
  @Writer_write Z Z.eqb NewSlice store noParallel newSliceData unit importSchema
    schemaPayloads (collect pairs) Log _.

Definition writerD : @Writer Z unit Log :=
  NewWriterWithPayloadWriter tt (mkLog [] 0) (mkConfig schemaD (-1) 0).

End TrackerExamples.

(** ** Further predicates of the statements *)

(** [d'] is [d] or lies below it in the tree of [Children]. *)
Inductive within (d' : ArrayData) : ArrayData -> Prop :=
| within_self : within d' d'
| within_child d c : In c (Children d) -> within d' c -> within d' d.

(** What a visit may change: [s'] has the fields and the body of [s]
    with entries appended, the new fields with offset 0, and is [s]
    elsewhere but for the depth. *)
Definition appendsTo (s s' : St) : Prop :=
  (exists fs, fields s'.1 = fields s.1 ++ fs /\ Forall (fun f => fOffset f = 0) fs)
  /\ (exists bs, body s'.2 = body s.2 ++ bs)
  /\ meta s'.1 = meta s.1 /\ start s'.1 = start s.1 /\ allow64b s'.1 = allow64b s.1
  /\ codec s'.1 = codec s.1 /\ compressNP s'.1 = compressNP s.1
  /\ msg s'.2 = msg s.2 /\ pmeta s'.2 = pmeta s.2 /\ size s'.2 = size s.2.

(** The number of nested containers (struct, list, map, fixed-size list)
    above the deepest leaf of an array; extension and dictionary arrays
    count as their storage and indices. *)
Fixpoint height (arr : Array) : nat :=
  match arr with
  | Struct _ fs =>
      S ((fix over (l : list Array) : nat :=
            match l with
            | [] => O
            | f :: rest => Nat.max (height f) (over rest)
            end) fs)
  | Map _ _ v | List _ _ v | FixedSizeList _ _ v => S (height v)
  | Dictionary _ i => height i
  | Extension _ st => height st
  | _ => O
  end.

(** The result is not the recursion error, however wrapped. *)
Definition notRec (r : result unit) : Prop :=
  forall e, r = Err e -> unwrap e <> errMaxRecursion.

(** On states of depth at most [d0], [v] does not return the recursion
    error for an array of a height below the depth. *)
Definition fits (d0 : Z) (v : VisitFn) : Prop :=
  forall arr s r s', depth s.1 <= d0 -> Z.of_nat (height arr) < depth s.1 ->
    v arr s = Some (r, s') -> notRec r.

(** The number of body buffers of an array without children. *)
Definition leafBuffers (arr : Array) : option nat :=
  match arr with
  | Null _ => Some 0%nat
  | Boolean _ | FixedWidth _ _ => Some 2%nat
  | Binary _ | Utf8 _ => Some 3%nat
  | _ => None
  end.

(** What the closure [compress] makes of one body entry when it returns
    no error: nil and empty buffers stay; any other buffer becomes its
    length as 8 little-endian bytes followed by the compressor's output. *)
Definition compressed (getCompressor : Z -> Buffer -> result Buffer)
    (codec : Z) (b b' : option Buffer) : Prop :=
  match b with
  | None => b' = None
  | Some buf =>
      if blen buf =? 0 then b' = Some buf
      else exists out,
             getCompressor codec buf = Ok out
             /\ b' = Some (Int32Traits.le_bytes 8 (blen buf) ++ out)
             /\ (blen buf < 2 ^ 64 ->
                 Int32Traits.le_val (take 8 (Int32Traits.le_bytes 8 (blen buf) ++ out))
                 = blen buf)
  end.

(** A payload writer that also keeps, in order, the payloads it is
    handed, whether it accepts them or not; and the payloads a possibly
    nil one has kept. *)
Definition traced {PW : Type} (H : PayloadWriter PW) : PayloadWriter (PW * list Payload) := {|
  pwStart x := ((pwStart x.1).1, ((pwStart x.1).2, x.2));
  WritePayload p x := ((WritePayload p x.1).1, ((WritePayload p x.1).2, x.2 ++ [p]));
  pwClose x := ((pwClose x.1).1, ((pwClose x.1).2, x.2))
|}.

Definition trace {PW : Type} (o : option (PW * list Payload)) : list Payload :=
  match o with Some x => x.2 | None => [] end.

(** A dictionary batch, which is no delta when deltas are off. *)
Definition dictionaryBatch (deltas : bool) (p : Payload) : Prop :=
  msg p = MessageDictionaryBatch
  /\ exists id isDelta nrows sz fs bs c,
       pmeta p = Some (DictionaryHeader id isDelta nrows sz fs bs c)
       /\ (deltas = false -> isDelta = false).

(** The record batch of a record of [nrows] rows. *)
Definition recordBatch (nrows : Z) (p : Payload) : Prop :=
  msg p = MessageRecordBatch
  /\ exists sz fs bs c, pmeta p = Some (RecordHeader nrows sz fs bs c).

(** Handing the payloads [ps] to a payload writer in state [x], one after
    the other, each to the state the call before left, and stopping
    right after the first one that is refused: [sent] are the payloads
    handed over, [r] is the outcome (the error of the refusal, if any)
    and [x'] the payload writer after the last call. *)
Inductive handedOver {PW : Type} `{PayloadWriter PW}
  : PW -> list Payload -> list Payload -> result unit -> PW -> Prop :=
| handed_all x : handedOver x [] [] (Ok tt) x
| handed_next x p ps sent r x1 x' :
    WritePayload p x = (None, x1) ->
    handedOver x1 ps sent r x' ->
    handedOver x (p :: ps) (p :: sent) r x'
| handed_refused x p ps e x1 :
    WritePayload p x = (Some e, x1) ->
    handedOver x (p :: ps) [p] (Err e) x1.

(** ** Further cases of the reference environment *)

Module Cases.
Import Example.

(** The state of a fresh encoder with the default budget and an empty
    record batch payload. *)
Definition s0 : St := (enc0, payload0).

(** 63 fixed-size lists around an int32 array. *)
Definition tower : Array := wrapped 63 (int32s [1]).

(** An int32 array of the elements 1 and 2 of a four-element buffer. *)
Definition slicedInts : Data :=
  mkData 2 0 1 [None; Some (Int32Traits.CastToBytes [7; 8; 9; 10])].

(** A string array of the elements 1 and 2 of the three strings "a",
    "bc", "def". *)
Definition slicedStrings : Data :=
  mkData 2 0 1 [None; Some (Int32Traits.CastToBytes [0; 1; 3; 6]);
                Some [97; 98; 99; 100; 101; 102]].

(** A boolean array of the bits 1 to 3 of the byte 22. *)
Definition slicedBits : Data := mkData 3 0 1 [None; Some [22]].

(** A body with a nil, a three-byte and an empty buffer. *)
Definition body3 : Payload :=
  mkPayload MessageRecordBatch None 0 [None; Some [1; 2; 3]; Some []].

Definition encZ : recordEncoder := newRecordEncoder 0 kMaxNestingDepth true 0 0.

(** A payload writer that refuses every payload. *)
Record Refusing : Type := mkRefusing { refused : Z }.

Definition Refusing_PayloadWriter : PayloadWriter Refusing := {|
  pwStart l := (None, l);
  WritePayload p l := (Some (errExternal 2), mkRefusing (refused l + 1));
  pwClose l := (None, l)
|}.

(** A writer that has been started, with one dictionary in its map. *)
Definition startedWriter : @Writer Z unit Log :=
  mkWriter (Some (mkLog [] 0)) true schemaX tt (-1) 0 (TrackerExamples.one 1 [10]) false [].

(** A writer whose payload writer refuses the schema payload. *)
Definition refusedWriter : @Writer Z unit Refusing :=
  mkWriter (Some (mkRefusing 0)) false schemaX tt (-1) 0 ∅ false [].

(** A record of another schema. *)
Definition recY : Rec := mkRec (Some [mkFieldDef "y" INT32 true]) [int32s [1]] 1.

(** A started writer for [TrackerExamples.recD] whose payload writer
    keeps what it is handed. *)
Definition tracedWriter : @Writer Z unit (Log * list Payload) :=
  mkWriter (Some (mkLog [] 0, [])) true TrackerExamples.schemaD tt (-1) 0 ∅ false [].

(** A string array of no elements, with an empty offsets buffer. *)
Definition emptyStrings : Data := mkData 0 0 0 [None; Some []; Some []].

(** A payload writer that takes [quota] payloads and refuses the next. *)
Record Quota : Type := mkQuota { quota : Z; taken : list Payload }.

Definition Quota_PayloadWriter : PayloadWriter Quota := {|
  pwStart q := (None, q);
  WritePayload p q :=
    if 0 <? quota q then (None, mkQuota (quota q - 1) (taken q ++ [p]))
    else (Some (errExternal 3), q);
  pwClose q := (None, q)
|}.

(** Three schema payloads. *)
Definition schemaPayloads3 : Schema -> unit -> list Payload :=
  fun _ _ => map (fun n => mkPayload MessageSchema (Some (SchemaHeader n)) 0 []) [1; 2; 3].

(** A writer whose payload writer takes one payload. *)
Definition quotaWriter : @Writer Z unit Quota :=
  mkWriter (Some (mkQuota 1 [])) false schemaX tt (-1) 0 ∅ false [].

End Cases.

(** * Properties *)

(** ** Fixed-width integers *)

Lemma i64_id z : Int.in_i64 z -> Int.i64 z = z.
Proof.
  unfold Int.in_i64, Int.i64, Int.wrap. intros H.
  change (2 ^ (64 - 1)) with (2 ^ 63). change (2 ^ 64) with (2 * 2 ^ 63).
  rewrite Z.mod_small by lia. lia.
Qed.

Lemma i32_id z : Int.in_i32 z -> Int.i32 z = z.
Proof.
  unfold Int.in_i32, Int.i32, Int.wrap. intros H.
  change (2 ^ (32 - 1)) with (2 ^ 31). change (2 ^ 32) with (2 * 2 ^ 31).
  rewrite Z.mod_small by lia. lia.
Qed.

Lemma i32_range z : Int.in_i32 (Int.i32 z).
Proof.
  unfold Int.in_i32, Int.i32, Int.wrap.
  change (2 ^ (32 - 1)) with (2 ^ 31). change (2 ^ 32) with (2 * 2 ^ 31).
  pose proof (Z.mod_pos_bound (z + 2 ^ 31) (2 * 2 ^ 31)). lia.
Qed.

Lemma i64_mod8 z : (Int.i64 z) mod 8 = z mod 8.
Proof.
  unfold Int.i64, Int.wrap.
  change (2 ^ (64 - 1)) with (8 * 2 ^ 60). change (2 ^ 64) with (8 * 2 ^ 61).
  rewrite (Z.mod_eq (z + 8 * 2 ^ 60) (8 * 2 ^ 61)) by lia.
  replace (z + 8 * 2 ^ 60 - 8 * 2 ^ 61 * ((z + 8 * 2 ^ 60) / (8 * 2 ^ 61)) - 8 * 2 ^ 60)
    with (z + (- (2 ^ 61 * ((z + 8 * 2 ^ 60) / (8 * 2 ^ 61)))) * 8) by lia.
  apply Z.mod_add. lia.
Qed.

(** ** The visitor only appends *)

(** A relation between the state before and after that holds across
    every elementary update of the visitor holds across a visit. *)
Section VisitInvariant.

Variable NewSlice : Array -> Z -> Z -> option Array.
Variable R : St -> St -> Prop.
Hypothesis R_refl : forall s, R s s.
Hypothesis R_trans : forall a b c, R a b -> R b c -> R a c.
Hypothesis R_field : forall l n s, R s (appendField (mkField l n 0) s).
Hypothesis R_body : forall bs s, R s (appendAll bs s).
Hypothesis R_depth : forall k s, R s (addDepth k s).

Lemma R_appendBody b s : R s (appendBody b s).
Proof using R_body. apply (R_body [b]). Qed.

Lemma visitFields_preserves v fs :
  preserves R v -> forall s r s', visitFields v fs s = Some (r, s') -> R s s'.
Proof using R_refl R_trans.
  intros Hv. induction fs as [|f fs IH]; simpl; intros s r s' E.
  - inversion E; subst. apply R_refl.
  - destruct (v f s) as [[[[]|e|m] s1]|] eqn:Ev; try discriminate.
    + eapply R_trans; [eapply Hv; eauto | eapply IH; eauto].
    + inversion E; subst. eapply Hv; eauto.
    + inversion E; subst. eapply Hv; eauto.
Qed.

Lemma nested_preserves v child :
  preserves R v -> forall s r s', nested v child s = Some (r, s') -> R s s'.
Proof using R_trans R_depth.
  intros Hv s r s'. unfold nested.
  destruct (v child (addDepth (-1) s)) as [[[[]|e|m] s1]|] eqn:Ev; intros E;
    inversion E; subst; clear E.
  - eapply R_trans; [apply R_depth|]. eapply R_trans; [eapply Hv; eauto|]. apply R_depth.
  - eapply R_trans; [apply R_depth|]. eapply Hv; eauto.
  - eapply R_trans; [apply R_depth|]. eapply Hv; eauto.
Qed.

Lemma leaf_preserves r0 s r s' : leaf r0 s = Some (r, s') -> R s s'.
Proof using R_refl R_body.
  unfold leaf. destruct r0; intros E; inversion E; subst; auto.
Qed.

Lemma visitWith_preserves sub :
  (forall v, sub = Some v -> preserves R v) -> preserves R (visitWith NewSlice sub).
Proof using All.
  intros Hsub arr.
  induction arr as [d|d|bw d|d|d|d fs|d offs vals IH|d offs vals IH|k d vals IH|d idx IH|d st IH|d];
    intros s r s'; simpl;
    (destruct (depth s.1 <=? 0); [intros E; inversion E; subst; apply R_refl|]);
    (destruct (negb (allow64b s.1) && _); [intros E; inversion E; subst; apply R_refl|]).
  all: try match goal with
           | |- context [validityBitmap ?x] => destruct (validityBitmap x) as [bm|e|m]; simpl
           end.
  all: try (intros E; inversion E; subst; clear E; solve
         [ apply R_field
         | eapply R_trans; [apply R_field|]; apply R_appendBody ]).
  all: try (intros E; eapply R_trans; [apply R_field|];
            eapply R_trans; [apply R_appendBody|]; eapply leaf_preserves; eauto; fail).
  - (* Struct *)
    destruct sub as [v|]; [|discriminate].
    destruct (visitFields v fs _) as [[[[]|e|m] s1]|] eqn:Ev; intros E;
      inversion E; subst; clear E;
      (eapply R_trans; [apply R_field|]; eapply R_trans; [apply R_appendBody|];
       eapply R_trans; [apply R_depth|]).
    + eapply R_trans; [|apply R_depth]. eapply visitFields_preserves; eauto.
    + eapply visitFields_preserves; eauto.
    + eapply visitFields_preserves; eauto.
  - (* Map *)
    destruct (getZeroBasedValueOffsets d) as [vo|e|m]; simpl;
      try (intros E; inversion E; subst; clear E;
           eapply R_trans; [apply R_field|]; apply R_appendBody).
    destruct (listValues NewSlice d offs vals vo) as [child|e|m]; simpl.
    + destruct sub as [v|]; [|discriminate]. intros E.
      eapply R_trans; [apply R_field|]. eapply R_trans; [apply R_appendBody|].
      eapply R_trans; [apply R_appendBody|]. eapply nested_preserves; eauto.
    + intros E; inversion E; subst; clear E.
      eapply R_trans; [apply R_field|]. eapply R_trans; [apply R_appendBody|].
      eapply R_trans; [apply R_appendBody|]. apply R_depth.
    + intros E; inversion E; subst; clear E.
      eapply R_trans; [apply R_field|]. eapply R_trans; [apply R_appendBody|].
      eapply R_trans; [apply R_appendBody|]. apply R_depth.
  - (* List *)
    destruct (getZeroBasedValueOffsets d) as [vo|e|m]; simpl;
      try (intros E; inversion E; subst; clear E;
           eapply R_trans; [apply R_field|]; apply R_appendBody).
    destruct (listValues NewSlice d offs vals vo) as [child|e|m]; simpl.
    + destruct sub as [v|]; [|discriminate]. intros E.
      eapply R_trans; [apply R_field|]. eapply R_trans; [apply R_appendBody|].
      eapply R_trans; [apply R_appendBody|]. eapply nested_preserves; eauto.
    + intros E; inversion E; subst; clear E.
      eapply R_trans; [apply R_field|]. eapply R_trans; [apply R_appendBody|].
      eapply R_trans; [apply R_appendBody|]. apply R_depth.
    + intros E; inversion E; subst; clear E.
      eapply R_trans; [apply R_field|]. eapply R_trans; [apply R_appendBody|].
      eapply R_trans; [apply R_appendBody|]. apply R_depth.
  - (* FixedSizeList *)
    destruct (NewSlice vals _ _) as [child|].
    + destruct sub as [v|]; [|discriminate]. intros E.
      eapply R_trans; [apply R_field|]. eapply R_trans; [apply R_appendBody|].
      eapply nested_preserves; eauto.
    + intros E; inversion E; subst; clear E.
      eapply R_trans; [apply R_field|]. eapply R_trans; [apply R_appendBody|].
      apply R_depth.
  - (* Dictionary *)
    intros E. eapply IH; eauto.
  - (* Extension *)
    destruct (visitWith NewSlice sub st s) as [[[[]|e|m] s1]|] eqn:Ev; intros E;
      inversion E; subst; clear E; eapply IH; eauto.
Qed.

Lemma visitN_preserves n : preserves R (visitN NewSlice n).
Proof using All.
  induction n as [|n IH]; simpl; apply visitWith_preserves; intros v Hv;
    [discriminate | inversion Hv; subst; exact IH].
Qed.

Lemma visit_preserves arr s r s' : visit NewSlice arr s = (r, s') -> R s s'.
Proof using All.
  unfold visit. destruct (visitN NewSlice _ arr s) as [[r0 s0]|] eqn:E; intros E'.
  - inversion E'; subst. eapply visitN_preserves; eauto.
  - inversion E'; subst. apply R_refl.
Qed.

End VisitInvariant.

(** ** The budget of [visit] is enough *)

Section VisitBudget.

Variable NewSlice : Array -> Z -> Z -> option Array.

Lemma visitFields_returns d0 v fs :
  returns d0 v -> forall s, depth s.1 <= d0 ->
    exists r s', visitFields v fs s = Some (r, s') /\ (r = Ok tt -> depth s'.1 = depth s.1).
Proof.
  intros Hv. induction fs as [|f fs IH]; simpl; intros s Hs.
  - eauto.
  - destruct (Hv f s Hs) as (r1 & s1 & E1 & D1). rewrite E1.
    destruct r1 as [[]|e|m].
    + specialize (D1 eq_refl). destruct (IH s1) as (r2 & s2 & E2 & D2); [lia|].
      exists r2, s2. split; [done|]. intros ->. rewrite D2 by done. done.
    + eexists _, _. split; [done|]. discriminate.
    + eexists _, _. split; [done|]. discriminate.
Qed.

Lemma nested_returns d0 v child s :
  returns (d0 - 1) v -> depth s.1 <= d0 ->
  exists r s', nested v child s = Some (r, s') /\ (r = Ok tt -> depth s'.1 = depth s.1).
Proof.
  intros Hv Hs. unfold nested.
  destruct (Hv child (addDepth (-1) s)) as (r1 & s1 & E1 & D1); [simpl; lia|].
  rewrite E1. destruct r1 as [[]|e|m].
  - eexists _, _. split; [done|]. intros _. simpl. rewrite D1 by done. simpl. lia.
  - eexists _, _. split; [done|]. discriminate.
  - eexists _, _. split; [done|]. discriminate.
Qed.

Lemma leaf_returns r0 s :
  exists r s', leaf r0 s = Some (r, s') /\ (r = Ok tt -> depth s'.1 = depth s.1).
Proof.
  unfold leaf. destruct r0; eexists _, _; (split; [done|]); try discriminate. done.
Qed.

Ltac finish_returns :=
  eexists _, _; (split; [reflexivity|]); first [discriminate | intros _; simpl; lia | done].

Lemma visitWith_returns d0 sub :
  (0 < d0 -> exists v, sub = Some v /\ returns (d0 - 1) v) ->
  returns d0 (visitWith NewSlice sub).
Proof.
  intros Hsub arr.
  induction arr as [d|d|bw d|d|d|d fs|d offs vals IH|d offs vals IH|k d vals IH|d idx IH|d st IH|d];
    intros s Hs; simpl;
    (destruct (depth s.1 <=? 0) eqn:Hd; [finish_returns|]);
    (destruct (negb (allow64b s.1) && _); [finish_returns|]);
    apply Z.leb_gt in Hd.
  all: try match goal with
           | |- context [validityBitmap ?x] => destruct (validityBitmap x) as [bm|e|m]; simpl
           end.
  all: try finish_returns.
  all: try (match goal with |- context [leaf ?r ?s] => destruct (leaf_returns r s) as (r1 & s1 & E1 & D1) end;
            exists r1, s1; split; [done|]; intros Hr; rewrite D1 by done; done).
  - (* Struct *)
    destruct Hsub as (v & -> & Hv); [lia|].
    match goal with |- context [visitFields v fs ?s0] =>
      destruct (visitFields_returns (d0 - 1) v fs Hv s0) as (r1 & s1 & E1 & D1);
        [simpl; lia|]; rewrite E1 end.
    destruct r1 as [[]|e|m]; try finish_returns.
    eexists _, _. split; [done|]. intros _. simpl. rewrite D1 by done. simpl. lia.
  - (* Map *)
    destruct (getZeroBasedValueOffsets d) as [vo|e|m]; simpl; try finish_returns.
    destruct (listValues NewSlice d offs vals vo) as [child|e|m]; simpl; try finish_returns.
    destruct Hsub as (v & -> & Hv); [lia|].
    match goal with |- context [nested v child ?s0] =>
      destruct (nested_returns d0 v child s0 Hv) as (r1 & s1 & E1 & D1); [simpl; lia|] end.
    exists r1, s1. split; [done|]. intros Hr. rewrite D1 by done. done.
  - (* List *)
    destruct (getZeroBasedValueOffsets d) as [vo|e|m]; simpl; try finish_returns.
    destruct (listValues NewSlice d offs vals vo) as [child|e|m]; simpl; try finish_returns.
    destruct Hsub as (v & -> & Hv); [lia|].
    match goal with |- context [nested v child ?s0] =>
      destruct (nested_returns d0 v child s0 Hv) as (r1 & s1 & E1 & D1); [simpl; lia|] end.
    exists r1, s1. split; [done|]. intros Hr. rewrite D1 by done. done.
  - (* FixedSizeList *)
    destruct (NewSlice vals _ _) as [child|]; try finish_returns.
    destruct Hsub as (v & -> & Hv); [lia|].
    match goal with |- context [nested v child ?s0] =>
      destruct (nested_returns d0 v child s0 Hv) as (r1 & s1 & E1 & D1); [simpl; lia|] end.
    exists r1, s1. split; [done|]. intros Hr. rewrite D1 by done. done.
  - (* Dictionary *)
    apply IH; done.
  - (* Extension *)
    destruct (IH s Hs) as (r1 & s1 & E1 & D1). rewrite E1.
    destruct r1 as [[]|e|m]; eexists _, _; (split; [done|]); try discriminate. done.
Qed.

Lemma visitN_returns n : returns (Z.of_nat n) (visitN NewSlice n).
Proof.
  induction n as [|n IH]; simpl; apply visitWith_returns.
  - lia.
  - intros _. eexists; split; [done|]. replace (Z.of_nat (S n) - 1) with (Z.of_nat n) by lia.
    exact IH.
Qed.

(** [visit] always has budget: its result is the result of [visitN]. *)
Lemma visit_visitN arr s :
  visitN NewSlice (Z.to_nat (depth s.1)) arr s = Some (visit NewSlice arr s).
Proof.
  unfold visit.
  destruct (visitN_returns (Z.to_nat (depth s.1)) arr s) as (r & s' & E & _); [lia|].
  by rewrite E.
Qed.

Lemma visit_depth arr s s' :
  visit NewSlice arr s = (Ok tt, s') -> depth s'.1 = depth s.1.
Proof.
  intros E. pose proof (visit_visitN arr s) as E'. rewrite E in E'.
  destruct (visitN_returns (Z.to_nat (depth s.1)) arr s) as (r & s1 & E1 & D1); [lia|].
  rewrite E1 in E'. inversion E'; subst. by apply D1.
Qed.

End VisitBudget.

(** ** The dictionary tracker *)

Section TrackerProps.

Context {Elem : Type} (approx : Elem -> Elem -> bool).
Variable NewSlice : Array -> Z -> Z -> option Array.
Variable getCompressor : Z -> Buffer -> result Buffer.
Variable compressParallel :
  Z -> Z -> list (option Buffer) -> result unit * list (option Buffer).
Variable newSliceData : ArrayData -> ArrayData.
Context {Mapper : Type}.
Variable CollectDictionaries : Rec -> Mapper -> result (list (Z * @DictArray Elem)).
Context {PW : Type} `{PayloadWriter PW}.

#[local] Arguments dictStep : simpl never.
#[local] Arguments emitDict : simpl never.
#[local] Arguments dictEncoder_Encode : simpl never.

Local Abbreviation step := (dictStep approx NewSlice getCompressor compressParallel newSliceData).
Local Abbreviation loop := (dictLoop approx NewSlice getCompressor compressParallel newSliceData).
Local Abbreviation emit := (emitDict NewSlice getCompressor compressParallel).
Local Abbreviation writeDicts :=
  (writeDictionaryPayloads approx NewSlice getCompressor compressParallel newSliceData
     CollectDictionaries).

Lemma lastWrittenDicts_logRef ev (t : @Tracker Elem PW) :
  lastWrittenDicts (logRef ev t) = lastWrittenDicts t.
Proof. done. Qed.

Lemma pw_logRef ev (t : @Tracker Elem PW) : pw (logRef ev t) = pw t.
Proof. done. Qed.

Lemma deltaStartOf_unchanged f e L D :
  adPtr (Data_ L) = adPtr (Data_ D)
  \/ (dLen L = dLen D /\ ApproxEqual approx L D = true) ->
  deltaStartOf approx f e (Some L) D = Ok None.
Proof.
  intros Hc. unfold deltaStartOf.
  destruct (adPtr (Data_ L) =? adPtr (Data_ D)) eqn:Ep; [done|].
  apply Z.eqb_neq in Ep. destruct Hc as [Hc|[Hl Ha]]; [done|].
  rewrite Hl, Z.eqb_refl, Ha. done.
Qed.

Lemma step_unchanged f e pr t :
  unchanged approx t pr -> step f e pr t = (Ok tt, resetEncoder t, None).
Proof.
  destruct pr as [id D]. intros (L & HL & Hc). simpl in *.
  unfold dictStep. cbn [lastWrittenDicts]. rewrite HL.
  rewrite (deltaStartOf_unchanged f e L D Hc). done.
Qed.

Lemma unchanged_resetEncoder (t : @Tracker Elem PW) pr :
  unchanged approx t pr -> unchanged approx (resetEncoder t) pr.
Proof. done. Qed.

Lemma loop_unchanged f e pairs t :
  Forall (unchanged approx t) pairs ->
  exists t', loop f e pairs t = (Ok tt, t')
    /\ pw t' = pw t /\ lastWrittenDicts t' = lastWrittenDicts t /\ refLog t' = refLog t.
Proof.
  revert t. induction pairs as [|pr pairs IH]; intros t Hall; simpl.
  - eauto.
  - inversion Hall as [|? ? Hpr Hrest]; subst.
    rewrite (step_unchanged f e pr t Hpr).
    destruct (IH (resetEncoder t)) as (t' & E & Hpw & Hl & Hr).
    { eapply Forall_impl; [exact Hrest|]. intros x. apply unchanged_resetEncoder. }
    rewrite E. eexists. split; [done|]. simpl. rewrite Hpw, Hl, Hr. simpl.
    by rewrite app_nil_r.
Qed.

(** What one iteration can do to the map: nothing, or make the pair's
    dictionary the last written one of its id. *)
Lemma emit_lookup id isDelta lastD pdict dict (t t' : @Tracker Elem PW) r :
  emit id isDelta lastD pdict dict t = (r, t') ->
  (r = Ok tt /\ lastWrittenDicts t' = <[id := pdict]> (lastWrittenDicts t))
  \/ (r <> Ok tt /\ lastWrittenDicts t' = lastWrittenDicts t).
Proof.
  unfold emitDict.
  destruct (dictEncoder_Encode _ _ _ _ _ _ _) as [[[]|e|m] [w p]];
    try (intros E; inversion E; subst; right; done).
  destruct (sinkWrite p (pw t)) as [[[]|e|m] s]; intros E; inversion E; subst;
    [left | right | right]; done.
Qed.

Lemma step_lookup f e id D (t t' : @Tracker Elem PW) r def :
  step f e (id, D) t = (r, t', def) ->
  (r = Ok tt /\ unchanged approx t (id, D) /\ lastWrittenDicts t' = lastWrittenDicts t)
  \/ (r = Ok tt /\ lastWrittenDicts t' = <[id := D]> (lastWrittenDicts t))
  \/ (r <> Ok tt /\ lastWrittenDicts t' = lastWrittenDicts t).
Proof.
  unfold dictStep. cbn [lastWrittenDicts].
  destruct (deltaStartOf approx f e (lastWrittenDicts t !! id) D) as [[ds|]|err|m] eqn:Ed.
  - destruct (ds >? 0).
    + destruct (NewSliceDict _ _ _ _ _) as [S|].
      * intros E. inversion E as [[E1 E2]]. clear E.
        destruct (emit_lookup _ _ _ _ _ _ _ _ E1) as [[? ?]|[? ?]]; [right; left|right; right]; done.
      * intros E; inversion E; subst. right; right; done.
    + intros E. inversion E as [[E1 E2]]. clear E.
      destruct (emit_lookup _ _ _ _ _ _ _ _ E1) as [[? ?]|[? ?]]; [right; left|right; right]; done.
  - intros E; inversion E; subst. left. split; [done|]. split; [|done].
    unfold deltaStartOf in Ed.
    destruct (lastWrittenDicts t !! id) as [L|] eqn:HL; [|done].
    exists L. split; [done|]. simpl.
    destruct (adPtr (Data_ L) =? adPtr (Data_ D)) eqn:Ep.
    { left. by apply Z.eqb_eq. }
    destruct ((dLen L =? dLen D) && ApproxEqual approx L D) eqn:Ea.
    { apply andb_true_iff in Ea as [El Ea]. right. split; [by apply Z.eqb_eq|done]. }
    destruct f; [done|]. by destruct (_ && _ && _ && _) in Ed.
  - intros E; inversion E; subst. right; right; done.
  - intros E; inversion E; subst. right; right; done.
Qed.

Lemma loop_lookup_other f e pairs (t t' : @Tracker Elem PW) r id :
  id ∉ pairs.*1 -> loop f e pairs t = (r, t') ->
  lastWrittenDicts t' !! id = lastWrittenDicts t !! id.
Proof.
  revert t t' r. induction pairs as [|[i D] pairs IH]; intros t t' r Hid; simpl.
  - intros E; by inversion E.
  - apply not_elem_of_cons in Hid as [Hne Hid]. simpl in Hne.
    destruct (step f e (i, D) t) as [[r1 t1] def] eqn:Es.
    assert (lastWrittenDicts t1 !! id = lastWrittenDicts t !! id) as H1.
    { destruct (step_lookup _ _ _ _ _ _ _ _ Es) as [(_ & _ & ->)|[(_ & ->)|(_ & ->)]];
        try done. by rewrite lookup_insert_ne. }
    destruct r1 as [[]|err|m].
    + destruct (loop f e pairs t1) as [r2 t2] eqn:El. intros E; inversion E; subst.
      rewrite lastWrittenDicts_logRef, (IH _ _ _ Hid El). done.
    + intros E; inversion E; subst. done.
    + intros E; inversion E; subst. done.
Qed.

(** After a pass that returned without error, every pair of the pass is
    unchanged with respect to the map, when no id occurs twice. *)
Lemma loop_settles f e pairs (t t' : @Tracker Elem PW) :
  NoDup pairs.*1 -> loop f e pairs t = (Ok tt, t') -> Forall (unchanged approx t') pairs.
Proof.
  revert t t'. induction pairs as [|[i D] pairs IH]; intros t t' Hnd; simpl.
  - intros _. constructor.
  - apply NoDup_cons in Hnd as [Hi Hnd].
    destruct (step f e (i, D) t) as [[r1 t1] def] eqn:Es.
    destruct r1 as [[]|err|m]; try (intros E; inversion E; fail).
    destruct (loop f e pairs t1) as [r2 t2] eqn:El. intros E; inversion E; subst.
    constructor.
    + pose proof (loop_lookup_other _ _ _ _ _ _ _ Hi El) as Hsame.
      destruct (step_lookup _ _ _ _ _ _ _ _ Es) as [(_ & (L & HL & Hc) & Hm)|[(_ & Hm)|(? & _)]];
        try done.
      * exists L. split; [|done]. rewrite lastWrittenDicts_logRef, Hsame, Hm. done.
      * exists D. split; [|by left]. rewrite lastWrittenDicts_logRef, Hsame, Hm.
        apply lookup_insert_eq.
    + eapply Forall_impl; [exact (IH _ _ Hnd El)|].
      intros x (L & HL & Hc). exists L. done.
Qed.

Lemma loop_replacement e pre id D post L (t t1 : @Tracker Elem PW) :
  loop true e pre t = (Ok tt, t1) ->
  lastWrittenDicts t1 !! id = Some L ->
  adPtr (Data_ L) <> adPtr (Data_ D) ->
  (dLen L =? dLen D) && ApproxEqual approx L D = false ->
  exists t2, loop true e (pre ++ (id, D) :: post) t = (Err errDictReplacement, t2)
    /\ pw t2 = pw t1 /\ lastWrittenDicts t2 = lastWrittenDicts t1.
Proof.
  revert t t1. induction pre as [|x pre IH]; intros t t1; simpl.
  - intros E HL Hp Ha. inversion E; subst.
    unfold dictStep. cbn [lastWrittenDicts]. rewrite HL. unfold deltaStartOf.
    apply Z.eqb_neq in Hp. rewrite Hp, Ha. eexists. split; [done|]. done.
  - destruct (step true e x t) as [[r1 t'] def] eqn:Es.
    destruct r1 as [[]|err|m]; try (intros E; inversion E; fail).
    destruct (loop true e pre t') as [r2 t1'] eqn:El. intros E; inversion E; subst.
    rewrite lastWrittenDicts_logRef. intros HL Hp Ha.
    destruct (IH _ _ El HL Hp Ha) as (t2 & E2 & Hpw & Hl). rewrite E2.
    eexists. split; [done|]. by rewrite !pw_logRef, !lastWrittenDicts_logRef.
Qed.

Lemma emit_ok id isDelta lastD pdict dict (t t' : @Tracker Elem PW) :
  emit id isDelta lastD pdict dict t = (Ok tt, t') ->
  exists sink p sink' w,
    pw t = Some sink
    /\ dictEncoder_Encode NewSlice getCompressor compressParallel id isDelta dict
         (encoder t, mkPayload MessageDictionaryBatch None 0 []) = (Ok tt, (w, p))
    /\ WritePayload p sink = (None, sink')
    /\ pw t' = Some sink'
    /\ lastWrittenDicts t' = <[id := pdict]> (lastWrittenDicts t)
    /\ exists sz fs bs c, pmeta p = Some (DictionaryHeader id isDelta (dLen dict) sz fs bs c).
Proof.
  unfold emitDict.
  destruct (dictEncoder_Encode _ _ _ _ _ _ _) as [[[]|e|m] [w p]] eqn:Ee;
    try (intros E; inversion E; fail).
  unfold sinkWrite. destruct (pw t) as [sink|]; [|intros E; inversion E].
  destruct (WritePayload p sink) as [[e|] sink'] eqn:Ew; intros E; inversion E; subst.
  exists sink, p, sink', w. repeat (split; [done|]).
  unfold dictEncoder_Encode in Ee.
  destruct (encode _ _ _ _ _) as [[[]|e|m] [w0 p0]]; inversion Ee; subst.
  simpl. eauto.
Qed.

Lemma approxList_eq (a b : list Elem) :
  (forall x y, approx x y = true -> x = y) -> approxList approx a b = true -> a = b.
Proof.
  intros Hx. revert b. induction a as [|x a IH]; intros [|y b]; simpl; try done.
  intros E. apply andb_true_iff in E as [E1 E2]. f_equal; auto.
Qed.

(** C1 (as amended): when a dictionary [L] was written for [id], deltas
    are enabled, the stream format is in use, the new dictionary [D] has
    no nested dictionary type, is longer than [L] and its first [dLen L]
    elements are approximately equal to [L] (arrays that share their
    [Data] have the same length):
    - if [L] has at least one element, the iteration of
      [writeDictionaryPayloads] for [(id, D)] emits the slice
      [[dLen L, dLen D)] of [D] with [isDelta = true]: the batch handed
      to the payload writer carries [id], [isDelta = true] and
      [dLen D - dLen L] rows; the first [dLen L] elements of [D] followed
      by the slice are [D], and so is [L] followed by the slice when
      approximate equality is equality;
    - if [L] is empty, the iteration emits the whole of [D] with
      [isDelta = false];
    - [L] is approximately equal to the first [dLen L] elements of [D]. *)
Theorem delta_is_emitted id D L (t : @Tracker Elem PW) :
  lastWrittenDicts t !! id = Some L ->
  (adPtr (Data_ L) = adPtr (Data_ D) -> dLen L = dLen D) ->
  dLen L < dLen D ->
  hasNestedDict (Data_ D) = false ->
  SliceApproxEqual approx L 0 (dLen L) D 0 (dLen L) = true ->
  (0 < dLen L ->
   forall sl, NewSlice (col D) (dLen L) (dLen D) = Some sl ->
     let S := mkDict (newSliceData (Data_ D)) (drop (length (elems L)) (elems D)) sl in
     step false true (id, D) t = (emit id true (Some L) D S (resetEncoder t), Some S)
     /\ (forall t', emit id true (Some L) D S (resetEncoder t) = (Ok tt, t') ->
          exists sink p sink' sz fs bs c,
            pw t = Some sink /\ WritePayload p sink = (None, sink') /\ pw t' = Some sink'
            /\ pmeta p = Some (DictionaryHeader id true (dLen D - dLen L) sz fs bs c)
            /\ lastWrittenDicts t' = <[id := D]> (lastWrittenDicts t))
     /\ take (length (elems L)) (elems D) ++ elems S = elems D
     /\ ((forall x y, approx x y = true -> x = y) -> elems L ++ elems S = elems D))
  /\ (dLen L = 0 ->
      step false true (id, D) t = (emit id false (Some L) D D (resetEncoder t), None))
  /\ approxList approx (elems L) (take (length (elems L)) (elems D)) = true.
Proof.
  intros HL Hsame Hlen Hn Hs.
  assert (Hpre : approxList approx (elems L) (take (length (elems L)) (elems D)) = true).
  { unfold SliceApproxEqual in Hs. rewrite Z.sub_0_r in Hs. unfold dLen in Hs.
    rewrite Nat2Z.id in Hs. simpl in Hs. rewrite take_ge in Hs by done. exact Hs. }
  assert (Hp : (adPtr (Data_ L) =? adPtr (Data_ D)) = false).
  { apply Z.eqb_neq. intros E. specialize (Hsame E). lia. }
  assert (Hstart : deltaStartOf approx false true (Some L) D = Ok (Some (dLen L))).
  { unfold deltaStartOf. rewrite Hp.
    replace (dLen L =? dLen D) with false by (symmetry; apply Z.eqb_neq; lia).
    simpl. rewrite Hn, Hs.
    by replace (dLen D >? dLen L) with true by (symmetry; apply Z.gtb_lt; lia). }
  split; [|split; [|done]].
  - intros Hpos sl Hsl S.
    assert (HS : NewSliceDict NewSlice newSliceData D (dLen L) (dLen D) = Some S).
    { unfold NewSliceDict, slice. rewrite Hsl.
      replace ((0 <=? dLen L) && (dLen L <=? dLen D)
               && (dLen D <=? Z.of_nat (length (elems D)))) with true.
      2:{ symmetry. unfold dLen in *. rewrite !andb_true_iff, !Z.leb_le. lia. }
      unfold S. do 3 f_equal. unfold dLen. rewrite Nat2Z.id.
      apply take_ge. rewrite length_drop. unfold dLen in Hlen. lia. }
    split; [|split; [|split]].
    + unfold dictStep. cbn [lastWrittenDicts]. rewrite HL, Hstart.
      replace (dLen L >? 0) with true by (symmetry; apply Z.gtb_lt; lia).
      rewrite HS. done.
    + intros t' E. destruct (emit_ok _ _ _ _ _ _ _ E)
        as (sink & p & sink' & w & H1 & _ & H3 & H4 & H5 & (sz & fs & bs & c & H6)).
      exists sink, p, sink', sz, fs, bs, c. repeat (split; [done|]). split; [|done].
      rewrite H6. do 2 f_equal. unfold dLen, S. simpl. rewrite length_drop.
      unfold dLen in Hlen. lia.
    + apply take_drop.
    + intros Hx. rewrite (approxList_eq _ _ Hx Hpre) at 1. apply take_drop.
  - intros H0. unfold dictStep. cbn [lastWrittenDicts]. rewrite HL, Hstart, H0. done.
Qed.

(** C8: in the file format, when the pairs before [(id, D)] have been
    processed without error and the dictionary last written for [id] is
    neither the same [Data] as [D] nor of the same length and
    approximately equal to it, [writeDictionaryPayloads] returns the
    dictionary-replacement error, and nothing is handed to the payload
    writer for [(id, D)] or after it. *)
Theorem file_format_replacement_fails e batch m pre id D post L (t t1 : @Tracker Elem PW) :
  CollectDictionaries batch m = Ok (pre ++ (id, D) :: post) ->
  loop true e pre t = (Ok tt, t1) ->
  lastWrittenDicts t1 !! id = Some L ->
  adPtr (Data_ L) <> adPtr (Data_ D) ->
  (dLen L =? dLen D) && ApproxEqual approx L D = false ->
  exists t2, writeDicts batch true e m t = (Err errDictReplacement, t2)
    /\ pw t2 = pw t1 /\ lastWrittenDicts t2 = lastWrittenDicts t1.
Proof.
  intros Hc El HL Hp Ha. unfold writeDictionaryPayloads. rewrite Hc.
  destruct (loop_replacement e pre id D post L t t1 El HL Hp Ha) as (t2 & E & Hpw & Hl).
  rewrite E. eexists. split; [done|]. by rewrite pw_logRef, lastWrittenDicts_logRef.
Qed.

End TrackerProps.

(** *** Concrete runs of the tracker *)

Lemma delta_is_emitted_witness :
  let S := mkDict (Example.newSliceData (Data_ (Example.dict 2 [10; 20]))) [20]
             TrackerExamples.sliced in
  TrackerExamples.stepZ false true (7, Example.dict 2 [10; 20])
    (Example.tracker0 (TrackerExamples.one 1 [10]))
  = (emitDict Example.NewSlice Example.store Example.noParallel 7 true
       (Some (Example.dict 1 [10])) (Example.dict 2 [10; 20]) S
       (resetEncoder (Example.tracker0 (TrackerExamples.one 1 [10]))),
     Some S).
Proof.
  refine (proj1 (proj1 (delta_is_emitted Z.eqb Example.NewSlice Example.store
                          Example.noParallel Example.newSliceData 7
                          (Example.dict 2 [10; 20]) (Example.dict 1 [10])
                          (Example.tracker0 (TrackerExamples.one 1 [10])) _ _ _ _ _)
                   _ TrackerExamples.sliced _)).
  - reflexivity.
  - vm_compute. discriminate.
  - vm_compute. reflexivity.
  - reflexivity.
  - reflexivity.
  - vm_compute. reflexivity.
  - reflexivity.
Defined.

(** C1 as stated fails when the dictionary written before is empty: the
    whole new dictionary goes out with [isDelta = false]; and with an
    approximate comparison the previous dictionary followed by the delta
    need not be the new dictionary. *)
Lemma delta_counterexample :
  (let L := Example.dict 1 [] in
   let D := Example.dict 2 [5] in
   let t := Example.tracker0 (TrackerExamples.one 1 []) in
   lastWrittenDicts t !! 7 = Some L
   /\ hasNestedDict (Data_ D) = false
   /\ dLen L < dLen D
   /\ SliceApproxEqual Z.eqb L 0 (dLen L) D 0 (dLen L) = true
   /\ Example.written <$> pw (TrackerExamples.stepZ false true (7, D) t).1.2
      = Some [mkPayload MessageDictionaryBatch
                (Some (DictionaryHeader 7 false 1 8 [mkField 1 0 0]
                         [mkBufMeta 0 0; mkBufMeta 0 4] (-1)))
                8 [None; Some [5; 0; 0; 0]]])
  /\
  (let L := Example.dict 1 [10] in
   let D := Example.dict 2 [11; 20] in
   let t := Example.tracker0 (TrackerExamples.one 1 [10]) in
   lastWrittenDicts t !! 7 = Some L
   /\ hasNestedDict (Data_ D) = false
   /\ dLen L < dLen D
   /\ SliceApproxEqual Example.within1 L 0 (dLen L) D 0 (dLen L) = true
   /\ exists S, (TrackerExamples.step1 false true (7, D) t).2 = Some S
        /\ Example.written <$> pw (TrackerExamples.step1 false true (7, D) t).1.2
           = Some [mkPayload MessageDictionaryBatch
                     (Some (DictionaryHeader 7 true 1 8 [mkField 1 0 0]
                              [mkBufMeta 0 0; mkBufMeta 0 4] (-1)))
                     8 [None; Some [20; 0; 0; 0]]]
        /\ elems L ++ elems S <> elems D).
Proof.
  split.
  - vm_compute. repeat split; reflexivity.
  - cbv zeta. repeat (split; [vm_compute; reflexivity|]).
    eexists. split; [vm_compute; reflexivity|]. split; [vm_compute; reflexivity|].
    vm_compute. discriminate.
Qed.

Lemma file_format_replacement_fails_witness :
  exists t2,
    TrackerExamples.writeZ [(7, Example.dict 2 [10; 30])] TrackerExamples.batch0 true false tt
      (Example.tracker0 (TrackerExamples.one 1 [10; 20]))
    = (Err errDictReplacement, t2)
    /\ pw t2 = pw (Example.tracker0 (TrackerExamples.one 1 [10; 20]))
    /\ lastWrittenDicts t2 = TrackerExamples.one 1 [10; 20].
Proof.
  apply (file_format_replacement_fails Z.eqb Example.NewSlice Example.store Example.noParallel
           Example.newSliceData (TrackerExamples.collect [(7, Example.dict 2 [10; 30])])
           false TrackerExamples.batch0 tt [] 7 (Example.dict 2 [10; 30]) []
           (Example.dict 1 [10; 20])).
  - reflexivity.
  - reflexivity.
  - reflexivity.
  - vm_compute. discriminate.
  - reflexivity.
Defined.

(** ** The writer *)

Section WriterProps.

Context {Elem Mapper W : Type} `{IOWriter W}.
Variable writeIPCPayload : swriter W -> Payload -> (Z * option error) * swriter W.
Variable ImportSchema : Schema -> Mapper -> Mapper.
Variable payloadFromSchema : Schema -> Mapper -> list Payload.

#[local] Existing Instance swriter_PayloadWriter.

Local Abbreviation Close :=
  (@Writer_Close Elem Mapper ImportSchema payloadFromSchema (swriter W)
     (swriter_PayloadWriter writeIPCPayload)).
Local Abbreviation writeAll :=
  (@writePayloads (swriter W) (swriter_PayloadWriter writeIPCPayload)).

Lemma releaseAll_empty : @releaseAll Elem ∅ = [].
Proof. unfold releaseAll. by rewrite map_to_list_empty. Qed.

(** C9: [Close] on a writer that was never started runs [start], which
    hands the schema payloads to the payload writer; then the stream
    payload writer writes the EOS marker (four bytes 255, four bytes 0)
    to the output stream, the writer lets go of its payload writer and
    releases the dictionaries of its map (none: [start] has just made the
    map); a second [Close] changes nothing and returns no error. *)
Theorem Close_never_started (w : @Writer Elem Mapper (swriter W)) sw sw1 n io2 :
  started w = false ->
  w_pw w = Some sw ->
  writeAll (payloadFromSchema (schema w) (ImportSchema (schema w) (mapper w))) (Some sw)
    = (Ok tt, Some sw1) ->
  ioWrite kEOS (sw_w sw1) = ((n, None), io2) ->
  exists w1,
    Close w = (Ok tt, w1, Some (mkSwriter io2 (Int.i64 (pos sw1 + n))))
    /\ started w1 = true
    /\ w_pw w1 = None
    /\ w_refLog w1 = w_refLog w
    /\ kEOS = [255; 255; 255; 255; 0; 0; 0; 0]
    /\ Close w1 = (Ok tt, w1, None).
Proof.
  intros Hs Hpw Hsch Hio. unfold Writer_Close, Writer_start. rewrite Hs, Hpw. simpl.
  rewrite Hsch. simpl. unfold swriter_Close, swriter_Write. rewrite Hio.
  eexists. split; [reflexivity|]. simpl.
  rewrite releaseAll_empty, app_nil_r. done.
Qed.

(** [Close] on a started writer releases each dictionary of the map once. *)
Lemma Close_releases (w : @Writer Elem Mapper (swriter W)) sw w1 sw' :
  started w = true -> w_pw w = Some sw -> Close w = (Ok tt, w1, Some sw') ->
  w_refLog w1 = w_refLog w ++ map (fun kv => Release kv.2) (map_to_list (w_lastWrittenDicts w))
  /\ w_pw w1 = None.
Proof.
  intros Hs Hpw. unfold Writer_Close. rewrite Hs. simpl. rewrite Hpw.
  destruct (swriter_Close sw) as [[e|] p']; intros E; inversion E; subst. done.
Qed.

End WriterProps.

(** C10: [NewWriter] leaves [compressNP] at zero whatever the
    configuration says, so the encoder that [Write] builds for such a
    writer compresses the body buffers with the serial loop;
    [NewWriterWithPayloadWriter] takes [compressNP] from the
    configuration. *)
Theorem NewWriter_compressNP {Elem Mapper W PW : Type} (zm : Mapper) (w : W) (pw : PW)
    (cfg : config) getCompressor compressParallel (p : Payload) :
  let wr := @NewWriter Elem Mapper W zm w cfg in
  w_compressNP wr = 0
  /\ compressBodyBuffers getCompressor compressParallel
       (newRecordEncoder 0 kMaxNestingDepth true (w_codec wr) (w_compressNP wr)) p
     = (let '(r, b) := compressSerial getCompressor (cfg_codec cfg) (body p) in
        (r, set_body b p))
  /\ w_compressNP (@NewWriterWithPayloadWriter Elem Mapper PW zm pw cfg) = cfg_compressNP cfg.
Proof. done. Qed.

(** ** The layout of the body *)

Lemma CeilByte64_mod8 n : bitutil.CeilByte64 n mod 8 = 0.
Proof. unfold bitutil.CeilByte64. apply Z.mod_mul. lia. Qed.

Lemma CeilByte64_ge n : n <= bitutil.CeilByte64 n.
Proof.
  unfold bitutil.CeilByte64.
  pose proof (Z.div_mod (n + 7) 8 ltac:(lia)). pose proof (Z.mod_pos_bound (n + 7) 8 ltac:(lia)).
  lia.
Qed.

Lemma blen_nonneg b : 0 <= blen b.
Proof. unfold blen. lia. Qed.

Lemma paddedLen_nonneg b : 0 <= paddedLen b.
Proof.
  unfold paddedLen. pose proof (CeilByte64_ge (bufLen b)).
  destruct b; simpl in *; [pose proof (blen_nonneg b)|]; lia.
Qed.

Lemma bodySize_nonneg bs : 0 <= bodySize bs.
Proof.
  induction bs as [|b bs IH]; simpl; [lia|]. pose proof (paddedLen_nonneg b). lia.
Qed.

Lemma bodySize_mod8 bs : bodySize bs mod 8 = 0.
Proof.
  induction bs as [|b bs IH]; simpl; [done|].
  rewrite Z.add_mod by lia. unfold paddedLen at 1. rewrite CeilByte64_mod8, IH. done.
Qed.

(** The step of the loop of [encode] advances the offset by the padded length. *)
Lemma layout_step o b :
  o + (bufLen b + match b with
                  | Some x => bitutil.CeilByte64 (blen x) - blen x
                  | None => 0
                  end) = o + paddedLen b.
Proof.
  destruct b; unfold paddedLen, bufLen; [lia|].
  change (bitutil.CeilByte64 0) with 0. lia.
Qed.

Lemma layout_cons o b bs :
  layout o (b :: bs)
  = (mkBufMeta o (bufLen b) :: (layout (Int.i64 (o + paddedLen b)) bs).1,
     (layout (Int.i64 (o + paddedLen b)) bs).2).
Proof.
  rewrite <- layout_step. destruct b as [x|]; simpl; destruct (layout _ bs); done.
Qed.

(** Whatever the offsets wrap to, the last one is congruent to the first. *)
Lemma layout_last_mod8 bs o : (layout o bs).2 mod 8 = o mod 8.
Proof.
  revert o. induction bs as [|b bs IH]; intros o; [done|].
  rewrite layout_cons. simpl. rewrite IH, i64_mod8.
  rewrite Z.add_mod by lia. unfold paddedLen. rewrite CeilByte64_mod8.
  rewrite Z.add_0_r. apply Z.mod_mod. lia.
Qed.

Lemma layout_offsets_mod8 bs o :
  o mod 8 = 0 -> Forall (fun m => bOffset m mod 8 = 0) (layout o bs).1.
Proof.
  revert o. induction bs as [|b bs IH]; intros o Ho; [constructor|].
  rewrite layout_cons. simpl. constructor; [done|]. apply IH.
  rewrite i64_mod8, Z.add_mod by lia. unfold paddedLen. rewrite CeilByte64_mod8, Ho. done.
Qed.

(** Without overflow the loop computes the cumulative padded offsets. *)
Lemma layout_offsetsFrom bs o :
  - 2 ^ 63 <= o -> o + bodySize bs < 2 ^ 63 ->
  layout o bs = (offsetsFrom o bs, o + bodySize bs).
Proof.
  revert o. induction bs as [|b bs IH]; intros o Hlo Hhi; simpl bodySize in *.
  - simpl. f_equal. lia.
  - rewrite layout_cons. pose proof (paddedLen_nonneg b). pose proof (bodySize_nonneg bs).
    rewrite i64_id by (unfold Int.in_i64; lia).
    rewrite IH by lia. simpl. f_equal. lia.
Qed.

Lemma offsetsFrom_ascending bs o i m m' :
  offsetsFrom o bs !! i = Some m -> offsetsFrom o bs !! S i = Some m' ->
  bOffset m' = bOffset m + bitutil.CeilByte64 (bLen m) /\ bOffset m <= bOffset m'.
Proof.
  revert o i. induction bs as [|b bs IH]; intros o i; [done|].
  destruct i as [|i]; simpl.
  - intros E. inversion E; subst. destruct bs as [|b' bs]; [done|]. simpl.
    intros E'. inversion E'; subst. simpl. pose proof (paddedLen_nonneg b).
    unfold paddedLen in *. lia.
  - apply IH.
Qed.

Lemma offsetsFrom_lengths bs o :
  map bLen (offsetsFrom o bs) = map bufLen bs.
Proof. revert o. induction bs as [|b bs IH]; intros o; simpl; [done|]. by rewrite IH. Qed.

Section EncodeProps.

Variable NewSlice : Array -> Z -> Z -> option Array.
Variable getCompressor : Z -> Buffer -> result Buffer.
Variable compressParallel :
  Z -> Z -> list (option Buffer) -> result unit * list (option Buffer).

Local Abbreviation encode' := (encode NewSlice getCompressor compressParallel).
Local Abbreviation compressAll := (compressBodyBuffers getCompressor compressParallel).

Lemma visit_sameConfig arr s r s' : visit NewSlice arr s = (r, s') -> sameConfig s s'.
Proof.
  apply (visit_preserves NewSlice sameConfig); unfold sameConfig.
  - done.
  - intros a b c (-> & -> & -> & -> & ->) (-> & -> & -> & -> & ->). done.
  - done.
  - done.
  - done.
Qed.

Lemma visitColumns_sameConfig cols s r s' :
  visitColumns NewSlice cols s = (r, s') -> sameConfig s s'.
Proof.
  revert s. induction cols as [|c cols IH]; intros s; simpl.
  - intros E; inversion E; subst. done.
  - destruct (visit NewSlice c s) as [[[]|e|m] s1] eqn:Ev;
      pose proof (visit_sameConfig _ _ _ _ Ev) as (H1 & H2 & H3 & H4 & H5).
    + intros E. destruct (IH _ E) as (G1 & G2 & G3 & G4 & G5).
      unfold sameConfig. by rewrite G1, G2, G3, G4, G5.
    + intros E; inversion E; subst. done.
    + intros E; inversion E; subst. done.
Qed.

(** What [encode] returns once the columns are visited: the alignment
    check cannot fail, and the outcome of the compression is looked at
    for a panic only. *)
Lemma encode_after_visit rec s w p :
  visitColumns NewSlice (Columns rec) s = (Ok tt, (w, p)) ->
  let p1 := if negb (codec w =? -1) then (compressAll w p).2 else p in
  (forall m, negb (codec w =? -1) = true -> (compressAll w p).1 <> Panic m) ->
  encode' rec s
  = (Ok tt, (set_meta (layout (start w) (body p1)).1 w,
             set_size (Int.i64 ((layout (start w) (body p1)).2 - start w)) p1)).
Proof.
  intros Hv p1 Hnp. unfold encode. rewrite Hv.
  assert (match (if negb (codec w =? -1)
                 then match compressAll w p with
                      | (Panic m, p') => (Panic m, p')
                      | (_, p') => (Ok tt, p')
                      end
                 else (Ok tt, p)) with
          | (r, q) => r = Ok tt /\ q = p1
          end) as Hc.
  { unfold p1. destruct (negb (codec w =? -1)) eqn:Ec; [|done].
    specialize (fun m => Hnp m eq_refl).
    destruct (compressAll w p) as [[[]|e|m] p']; simpl in *; try done.
    by destruct (Hnp m). }
  match type of Hc with (let (_, _) := ?X in _) => destruct X as [r q] end.
  destruct Hc as [-> ->].
  destruct (layout (start w) (body p1)) as [ms off] eqn:El. simpl.
  unfold bitutil.IsMultipleOf8.
  pose proof (layout_last_mod8 (body p1) (start w)) as Hm. rewrite El in Hm. simpl in Hm.
  rewrite i64_mod8. rewrite Zminus_mod, Hm, Z.sub_diag. done.
Qed.

Lemma encode_ok_inv rec s w p :
  encode' rec s = (Ok tt, (w, p)) ->
  exists w0 p1,
    start w0 = start s.1
    /\ w = set_meta (layout (start w0) (body p1)).1 w0
    /\ p = set_size (Int.i64 ((layout (start w0) (body p1)).2 - start w0)) p1.
Proof.
  unfold encode.
  destruct (visitColumns NewSlice (Columns rec) s) as [[[]|e|m] [w0 p0]] eqn:Ev;
    try (intros E; inversion E; fail).
  pose proof (visitColumns_sameConfig _ _ _ _ Ev) as (Hst & _). simpl in Hst.
  match goal with |- context [let (_, _) := ?X in _] => destruct X as [[[]|e|m] p1] end;
    try (intros E; inversion E; fail).
  destruct (layout (start w0) (body p1)) as [ms off] eqn:El.
  destruct (negb _); intros E; inversion E; subst.
  exists w0, p1. rewrite El. done.
Qed.

(** [encode] and [Encode] leave the kind of the message alone. *)
Lemma encode_msg rec s r s' : encode' rec s = (r, s') -> msg s'.2 = msg s.2.
Proof.
  unfold encode.
  destruct (visitColumns NewSlice (Columns rec) s) as [r0 [w0 p0]] eqn:Ev.
  pose proof (visitColumns_sameConfig _ _ _ _ Ev) as (_ & _ & _ & _ & Hm). simpl in Hm.
  destruct r0 as [[]|e|m]; try (intros E; inversion E; subst; done).
  assert (forall q, msg (compressAll w0 q).2 = msg q) as Hq.
  { intros q. unfold compressBodyBuffers. by destruct (if compressNP w0 <=? 1 then _ else _). }
  destruct (negb (codec w0 =? -1)).
  - specialize (Hq p0).
    destruct (compressAll w0 p0) as [[[]|e|m] p1]; simpl in Hq.
    + destruct (layout _ _). destruct (negb _); intros E; inversion E; subst; simpl; congruence.
    + destruct (layout _ _). destruct (negb _); intros E; inversion E; subst; simpl; congruence.
    + intros E; inversion E; subst; simpl; congruence.
  - destruct (layout _ _). destruct (negb _); intros E; inversion E; subst; simpl; congruence.
Qed.

Lemma Encode_msg rec s r s' :
  Encode NewSlice getCompressor compressParallel rec s = (r, s') -> msg s'.2 = msg s.2.
Proof.
  unfold Encode. destruct (encode' rec s) as [r0 s0] eqn:E0.
  pose proof (encode_msg _ _ _ _ E0) as Hm.
  destruct r0 as [[]|e|m]; intros E; inversion E; subst; done.
Qed.

(** C5: in the payload that [encode] fills, for an encoder whose start
    offset is a multiple of 8 (it is 0 after [reset] and in
    [dictEncoder.Encode]) and a body that fits the 64-bit offsets: every
    buffer-metadata offset is a multiple of 8; the entries are the
    cumulative padded offsets, so each offset is the previous one plus
    the previous length padded to 8 bytes and the offsets do not
    decrease; each metadata length is the unpadded length of its buffer;
    the body size is the sum of the padded buffer lengths and a multiple
    of 8. *)
Theorem encode_layout rec s w p :
  encode' rec s = (Ok tt, (w, p)) ->
  start s.1 mod 8 = 0 ->
  0 <= start s.1 ->
  start s.1 + bodySize (body p) < 2 ^ 63 ->
  Forall (fun m => bOffset m mod 8 = 0) (meta w)
  /\ meta w = offsetsFrom (start s.1) (body p)
  /\ (forall i m m', meta w !! i = Some m -> meta w !! S i = Some m' ->
        bOffset m' = bOffset m + bitutil.CeilByte64 (bLen m) /\ bOffset m <= bOffset m')
  /\ map bLen (meta w) = map bufLen (body p)
  /\ size p = bodySize (body p)
  /\ size p mod 8 = 0.
Proof.
  intros E Hm Hlo Hhi. destruct (encode_ok_inv _ _ _ _ E) as (w0 & p1 & Hst & -> & ->).
  simpl in *. rewrite Hst in *.
  pose proof (layout_offsets_mod8 (body p1) (start s.1) Hm) as Hall.
  rewrite (layout_offsetsFrom (body p1) (start s.1)) in * by lia. simpl in *.
  replace (start s.1 + bodySize (body p1) - start s.1) with (bodySize (body p1)) by ring.
  pose proof (bodySize_nonneg (body p1)).
  rewrite i64_id by (unfold Int.in_i64; lia).
  split; [done|]. split; [done|]. split; [apply offsetsFrom_ascending|].
  split; [apply offsetsFrom_lengths|]. split; [done|]. apply bodySize_mod8.
Qed.

(** C4, what the code does: when the columns are visited, a codec is
    configured and [compressBodyBuffers] returns an error, [encode]
    returns without error all the same, with the body the failed
    compression pass left behind. *)
Theorem compression_error_is_dropped rec s w p e p' :
  visitColumns NewSlice (Columns rec) s = (Ok tt, (w, p)) ->
  codec w <> -1 ->
  compressAll w p = (Err e, p') ->
  exists w' p'', encode' rec s = (Ok tt, (w', p'')) /\ body p'' = body p'.
Proof.
  intros Hv Hc He. apply Z.eqb_neq in Hc.
  rewrite (encode_after_visit rec s w p Hv).
  - rewrite Hc, He. simpl. eauto.
  - intros m _. rewrite He. done.
Qed.

End EncodeProps.

(** *** Concrete runs of the encoder *)

Lemma encode_layout_witness :
  let r := encode Example.NewSlice Example.store Example.noParallel Example.rec3
             (Example.enc0, Example.payload0) in
  meta r.2.1 = [mkBufMeta 0 0; mkBufMeta 0 12]
  /\ body r.2.2 = [None; Some [1; 0; 0; 0; 2; 0; 0; 0; 3; 0; 0; 0]]
  /\ size r.2.2 = 16
  /\ (Forall (fun m => bOffset m mod 8 = 0) (meta r.2.1)
      /\ meta r.2.1 = offsetsFrom (start Example.enc0) (body r.2.2)
      /\ (forall i m m', meta r.2.1 !! i = Some m -> meta r.2.1 !! S i = Some m' ->
            bOffset m' = bOffset m + bitutil.CeilByte64 (bLen m) /\ bOffset m <= bOffset m')
      /\ map bLen (meta r.2.1) = map bufLen (body r.2.2)
      /\ size r.2.2 = bodySize (body r.2.2)
      /\ size r.2.2 mod 8 = 0).
Proof.
  intros r. split; [reflexivity|]. split; [reflexivity|]. split; [reflexivity|].
  apply (encode_layout Example.NewSlice Example.store Example.noParallel Example.rec3
           (Example.enc0, Example.payload0) r.2.1 r.2.2).
  - vm_compute. reflexivity.
  - reflexivity.
  - vm_compute. discriminate.
  - vm_compute. reflexivity.
Defined.

(** C4 at a concrete input: the record [x = [1, 2, 3]], a codec
    configured, and a compressor that fails.  [compressBodyBuffers]
    returns the compressor's error, [encode] returns without error, and
    [Write] returns no error and hands the payload writer the record
    batch with the body not compressed. *)
Lemma compression_error_is_dropped_witness :
  let w := newRecordEncoder 0 kMaxNestingDepth true 0 0 in
  (visitColumns Example.NewSlice (Columns Example.rec3) (w, Example.payload0)).1 = Ok tt
  /\ (compressBodyBuffers Example.failing Example.noParallel w
        (visitColumns Example.NewSlice (Columns Example.rec3) (w, Example.payload0)).2.2).1
     = Err (errExternal 1)
  /\ body (compressBodyBuffers Example.failing Example.noParallel w
             (visitColumns Example.NewSlice (Columns Example.rec3) (w, Example.payload0)).2.2).2
     = [None; Some [1; 0; 0; 0; 2; 0; 0; 0; 3; 0; 0; 0]]
  /\ (exists w' p'',
        encode Example.NewSlice Example.failing Example.noParallel Example.rec3
          (w, Example.payload0) = (Ok tt, (w', p''))
        /\ body p''
           = body (compressBodyBuffers Example.failing Example.noParallel w
                     (visitColumns Example.NewSlice (Columns Example.rec3)
                        (w, Example.payload0)).2.2).2)
  /\ (Example.WriteLog Example.failing Example.rec3 (Example.writerLog 0 0)).1 = None
  /\ Example.written
       <$> w_pw (Example.WriteLog Example.failing Example.rec3 (Example.writerLog 0 0)).2
     = Some [mkPayload MessageSchema (Some (SchemaHeader 1)) 0 [];
             mkPayload MessageRecordBatch
               (Some (RecordHeader 3 16 [mkField 3 0 0] [mkBufMeta 0 0; mkBufMeta 0 12] 0))
               16 [None; Some [1; 0; 0; 0; 2; 0; 0; 0; 3; 0; 0; 0]]].
Proof.
  intros w. split; [reflexivity|]. split; [reflexivity|]. split; [reflexivity|].
  split; [|split; reflexivity].
  apply (compression_error_is_dropped Example.NewSlice Example.failing Example.noParallel
           Example.rec3 (w, Example.payload0)
           (visitColumns Example.NewSlice (Columns Example.rec3) (w, Example.payload0)).2.1
           (visitColumns Example.NewSlice (Columns Example.rec3) (w, Example.payload0)).2.2
           (errExternal 1)).
  - vm_compute. reflexivity.
  - vm_compute. discriminate.
  - vm_compute. reflexivity.
Defined.

(** *** Concrete runs of the writer *)

Lemma Close_never_started_witness :
  let w := @NewWriter Z unit (list Z) tt [] (mkConfig Example.schemaX (-1) 4) in
  exists w1,
    @Writer_Close Z unit Example.importSchema Example.schemaPayloads (swriter (list Z))
      (swriter_PayloadWriter Example.frame) w
    = (Ok tt, w1,
       Some (mkSwriter ([255; 255; 255; 255; 8; 0; 0; 0; 1; 0; 0; 0; 0; 0; 0; 0]
                        ++ [255; 255; 255; 255; 0; 0; 0; 0]) 24))
    /\ started w1 = true
    /\ w_pw w1 = None
    /\ w_refLog w1 = w_refLog w
    /\ kEOS = [255; 255; 255; 255; 0; 0; 0; 0]
    /\ @Writer_Close Z unit Example.importSchema Example.schemaPayloads (swriter (list Z))
         (swriter_PayloadWriter Example.frame) w1
       = (Ok tt, w1, None).
Proof.
  intros w.
  apply (Close_never_started Example.frame Example.importSchema Example.schemaPayloads w
           (mkSwriter [] 0)
           (mkSwriter [255; 255; 255; 255; 8; 0; 0; 0; 1; 0; 0; 0; 0; 0; 0; 0] 16) 8
           ([255; 255; 255; 255; 8; 0; 0; 0; 1; 0; 0; 0; 0; 0; 0; 0]
            ++ [255; 255; 255; 255; 0; 0; 0; 0])).
  - reflexivity.
  - reflexivity.
  - reflexivity.
  - reflexivity.
Defined.

(** ** Writing a record twice *)

Section WriteTwice.

Context {Elem : Type} (approx : Elem -> Elem -> bool).
Variable NewSlice : Array -> Z -> Z -> option Array.
Variable getCompressor : Z -> Buffer -> result Buffer.
Variable compressParallel :
  Z -> Z -> list (option Buffer) -> result unit * list (option Buffer).
Variable newSliceData : ArrayData -> ArrayData.
Context {Mapper : Type}.
Variable ImportSchema : Schema -> Mapper -> Mapper.
Variable payloadFromSchema : Schema -> Mapper -> list Payload.
Variable CollectDictionaries : Rec -> Mapper -> result (list (Z * @DictArray Elem)).
Context {PW : Type} `{PayloadWriter PW}.

#[local] Arguments dictStep : simpl never.
#[local] Arguments emitDict : simpl never.
#[local] Arguments dictEncoder_Encode : simpl never.
#[local] Arguments encode : simpl never.
#[local] Arguments Encode : simpl never.

Local Abbreviation step := (dictStep approx NewSlice getCompressor compressParallel newSliceData).
Local Abbreviation loop := (dictLoop approx NewSlice getCompressor compressParallel newSliceData).
Local Abbreviation writeDicts :=
  (writeDictionaryPayloads approx NewSlice getCompressor compressParallel newSliceData
     CollectDictionaries).
Local Abbreviation write :=
  (Writer_write approx NewSlice getCompressor compressParallel newSliceData
     ImportSchema payloadFromSchema CollectDictionaries).

Lemma unchanged_same_map (t u : @Tracker Elem PW) pr :
  lastWrittenDicts t = lastWrittenDicts u -> unchanged approx t pr -> unchanged approx u pr.
Proof. intros Hl (L & HL & Hc). exists L. by rewrite <- Hl. Qed.

(** A second call of [writeDictionaryPayloads] on the same record hands
    nothing to the payload writer. *)
Lemma writeDictionaryPayloads_again f e batch m pairs (t0 t : @Tracker Elem PW) :
  CollectDictionaries batch m = Ok pairs ->
  NoDup pairs.*1 ->
  writeDicts batch f e m t0 = (Ok tt, t) ->
  exists t', writeDicts batch f e m t = (Ok tt, t')
    /\ pw t' = pw t /\ lastWrittenDicts t' = lastWrittenDicts t.
Proof.
  intros Hc Hnd Hw. unfold writeDictionaryPayloads in *. rewrite Hc in *.
  destruct (loop f e pairs t0) as [r1 t1] eqn:E1. inversion Hw; subst.
  pose proof (loop_settles _ _ _ _ _ f e pairs t0 t1 Hnd E1) as Hall.
  destruct (loop_unchanged approx NewSlice getCompressor compressParallel newSliceData f e
              pairs (logRef (map (fun pr => Release pr.2) pairs) t1))
    as (t' & E & Hpw & Hl & _).
  { eapply Forall_impl; [exact Hall|]. intros x. by apply unchanged_same_map. }
  rewrite E. eexists. split; [done|]. by rewrite !pw_logRef, !lastWrittenDicts_logRef.
Qed.

(** A second [Write] of the same record: the dictionary pass hands
    nothing to the payload writer, which is then handed the record batch
    when [Encode] returns without error. *)
Lemma Writer_write_again rec (w w1 : @Writer Elem Mapper PW) pairs :
  write rec w = (Ok tt, w1) ->
  CollectDictionaries rec (mapper w1) = Ok pairs ->
  NoDup pairs.*1 ->
  exists r w2, write rec w1 = (r, w2)
    /\ w_lastWrittenDicts w2 = w_lastWrittenDicts w1
    /\ (w_pw w2 = w_pw w1
        \/ exists data, msg data = MessageRecordBatch
             /\ w_pw w2 = (sinkWrite data (w_pw w1)).2).
Proof.
  intros HW Hc Hnd. unfold Writer_write in HW.
  destruct (if negb (started w) then Writer_start ImportSchema payloadFromSchema w
            else (Ok tt, w)) as [r0 w0] eqn:E0.
  assert (started w0 = true) as Hs0.
  { destruct (started w) eqn:Es; simpl in E0.
    - by inversion E0; subst.
    - unfold Writer_start in E0. destruct (writePayloads _ _) in E0. by inversion E0; subst. }
  destruct r0 as [[]|e0|m0]; try (inversion HW; fail).
  destruct (match recSchema rec with Some sc => _ | None => true end) eqn:Esc;
    [inversion HW|].
  destruct (writeDictionaryPayloads approx NewSlice getCompressor compressParallel
              newSliceData CollectDictionaries rec false (emitDictDeltas w0) (mapper w0) _)
    as [r1 t] eqn:Ed.
  destruct r1 as [[]|e1|m1]; try (inversion HW; fail).
  destruct (Encode NewSlice getCompressor compressParallel rec _) as [r2 [w' data]] in HW.
  destruct r2 as [[]|e2|m2]; try (inversion HW; fail).
  destruct (sinkWrite data _) as [r3 o] in HW. inversion HW; subst; clear HW.
  simpl in Hc.
  unfold writeDictionaryPayloads in Ed. rewrite Hc in Ed.
  destruct (dictLoop approx NewSlice getCompressor compressParallel newSliceData false _
              pairs _) as [r1 t1] eqn:El.
  inversion Ed; subst; clear Ed.
  pose proof (loop_settles _ _ _ _ _ _ _ _ _ _ Hnd El) as Hall.
  unfold Writer_write, set_pw. cbn [started]. rewrite Hs0.
  cbn [started schema mapper w_pw w_codec w_compressNP w_lastWrittenDicts
       emitDictDeltas w_refLog negb].
  rewrite Esc. unfold writeDictionaryPayloads. rewrite Hc.
  match goal with |- context [dictLoop _ _ _ _ _ false ?e pairs ?t0] =>
    destruct (loop_unchanged approx NewSlice getCompressor compressParallel newSliceData
                false e pairs t0) as (t' & E & Hpw & Hl & _)
  end.
  { eapply Forall_impl; [exact Hall|]. intros pr. by apply unchanged_same_map. }
  rewrite E. cbn [pw lastWrittenDicts logRef encoder refLog w_pw] in *.
  match goal with |- context [Encode _ _ _ rec ?s0] =>
    destruct (Encode NewSlice getCompressor compressParallel rec s0) as [r2 [w2 p2]] eqn:Ee;
    pose proof (Encode_msg _ _ _ _ _ _ _ Ee) as Hm
  end.
  simpl in Hm. rewrite Hpw, Hl.
  destruct r2 as [[]|e2|m2].
  - destruct (sinkWrite p2 o) as [r3' o'] eqn:Es.
    eexists _, _. split; [reflexivity|]. split; [done|]. right. exists p2.
    split; [done|]. cbn [w_pw set_pw]. by rewrite Es.
  - eexists _, _. split; [reflexivity|]. split; [done|]. by left.
  - eexists _, _. split; [reflexivity|]. split; [done|]. by left.
Qed.

(** C2: a pair whose dictionary is the last written one of its id, by
    identity of its [Data] or by length and approximate value, is skipped
    by its iteration of [writeDictionaryPayloads] (the map of last written
    dictionaries and the payload writer are left as they are); after a
    call of [writeDictionaryPayloads] on a record that returned without
    error, a second call on the same record hands nothing to the payload
    writer; and after a [Write] of a record that returned without error,
    a second [Write] of the same record leaves the map as it is and hands
    the payload writer nothing but the record batch (the record's
    dictionaries have one id each). *)
Theorem unchanged_dictionary_is_skipped f e pr (u : @Tracker Elem PW) rec pairs t0 t
    (w w1 : @Writer Elem Mapper PW) :
  unchanged approx u pr ->
  write rec w = (Ok tt, w1) ->
  CollectDictionaries rec (mapper w1) = Ok pairs ->
  NoDup pairs.*1 ->
  writeDicts rec f e (mapper w1) t0 = (Ok tt, t) ->
  step f e pr u = (Ok tt, resetEncoder u, None)
  /\ (exists t', writeDicts rec f e (mapper w1) t = (Ok tt, t')
        /\ pw t' = pw t /\ lastWrittenDicts t' = lastWrittenDicts t)
  /\ exists r w2, write rec w1 = (r, w2)
       /\ w_lastWrittenDicts w2 = w_lastWrittenDicts w1
       /\ (w_pw w2 = w_pw w1
           \/ exists data, msg data = MessageRecordBatch
                /\ w_pw w2 = (sinkWrite data (w_pw w1)).2).
Proof.
  intros Hu HW Hc Hnd Hw. split; [by apply step_unchanged|]. split.
  - by eapply writeDictionaryPayloads_again.
  - by eapply Writer_write_again.
Qed.

End WriteTwice.

(** *** A record with a dictionary column, written twice *)

Lemma unchanged_dictionary_is_skipped_witness :
  let pairs := [(7, Example.dict 2 [10; 20])] in
  let u := Example.tracker0 (TrackerExamples.one 1 [10; 20]) in
  let w1 := (TrackerExamples.writeD pairs TrackerExamples.recD TrackerExamples.writerD).2 in
  let t := (TrackerExamples.writeZ pairs TrackerExamples.recD false false (mapper w1)
              (Example.tracker0 ∅)).2 in
  TrackerExamples.stepZ false false (7, Example.dict 1 [10; 20]) u
  = (Ok tt, resetEncoder u, None)
  /\ (exists t',
        TrackerExamples.writeZ pairs TrackerExamples.recD false false (mapper w1) t = (Ok tt, t')
        /\ pw t' = pw t /\ lastWrittenDicts t' = lastWrittenDicts t)
  /\ exists r w2,
       TrackerExamples.writeD pairs TrackerExamples.recD w1 = (r, w2)
       /\ w_lastWrittenDicts w2 = w_lastWrittenDicts w1
       /\ (w_pw w2 = w_pw w1
           \/ exists data, msg data = MessageRecordBatch
                /\ w_pw w2 = (sinkWrite data (w_pw w1)).2).
Proof.
  intros pairs u w1 t.
  apply (unchanged_dictionary_is_skipped Z.eqb Example.NewSlice Example.store
           Example.noParallel Example.newSliceData Example.importSchema
           Example.schemaPayloads (TrackerExamples.collect pairs)
           false false (7, Example.dict 1 [10; 20]) u TrackerExamples.recD pairs
           (Example.tracker0 ∅) t TrackerExamples.writerD w1).
  - exists (Example.dict 1 [10; 20]). split; [reflexivity | left; reflexivity].
  - vm_compute. reflexivity.
  - reflexivity.
  - apply NoDup_singleton.
  - vm_compute. reflexivity.
Defined.

(** ** The length check *)

Lemma newTruncatedBitmap_noErr offset length input :
  noErr (newTruncatedBitmap offset length input).
Proof.
  unfold newTruncatedBitmap, noErr. intros e. destruct input as [inp|]; [|done].
  destruct (_ || _); [|done]. by destruct (bitutil.CopyBitmap _ _ _ _ _).
Qed.

Lemma getZeroBasedValueOffsets_noErr d : noErr (getZeroBasedValueOffsets d).
Proof.
  unfold getZeroBasedValueOffsets, noErr. intros e.
  destruct (Buffers d !! 1%nat) as [[src|]|]; try done.
  destruct (_ || _).
  - destruct (slice _ _ _) as [[|o offsets]|]; try done; by destruct (blen _ =? 0).
  - by destruct (blen src =? 0).
Qed.

Lemma validityBitmap_noErr d : noErr (validityBitmap d).
Proof.
  unfold validityBitmap, noErr. intros e. destruct (NullN d =? 0); [done|].
  destruct (NullN d =? Len d); [done|]. destruct (Buffers d !! 0%nat); [|done].
  apply newTruncatedBitmap_noErr.
Qed.

Lemma visitBoolean_noErr d : noErr (visitBoolean d).
Proof.
  unfold visitBoolean, noErr. intros e. destruct (negb _); [|done].
  destruct (Buffers d !! 1%nat) as [b|]; [|done].
  pose proof (newTruncatedBitmap_noErr (Offset d) (Len d) b) as Hn.
  destruct (newTruncatedBitmap _ _ _) as [?|e'|?]; try done. by destruct (Hn e').
Qed.

Lemma visitFixedWidth_noErr w d : noErr (visitFixedWidth w d).
Proof.
  unfold visitFixedWidth, noErr. intros e. destruct (Buffers d !! 1%nat) as [v|]; [|done].
  destruct (needTruncate _ _ _); [|done]. by destruct (slice _ _ _).
Qed.

Lemma ValueBytesLen_noErr d : noErr (ValueBytesLen d).
Proof.
  unfold ValueBytesLen, noErr. intros e. destruct (Buffers d !! 1%nat) as [[src|]|]; try done.
  destruct (index _ _); [|done]. by destruct (index _ _).
Qed.

Lemma ValueOffset0_noErr d : noErr (ValueOffset0 d).
Proof.
  unfold ValueOffset0, noErr. intros e. destruct (Buffers d !! 1%nat) as [[src|]|]; try done.
  by destruct (index _ _).
Qed.

Lemma visitBinary_noErr d : noErr (visitBinary d).
Proof.
  unfold visitBinary, noErr. intros e.
  pose proof (getZeroBasedValueOffsets_noErr d) as Hg.
  destruct (getZeroBasedValueOffsets d) as [vo|e'|?]; [|by destruct (Hg e')|done].
  destruct (Buffers d !! 2%nat) as [v|]; [|done].
  assert (noErr (match vo with Some _ => ValueBytesLen d | None => Ok 0 end)) as Ht.
  { destruct vo; [apply ValueBytesLen_noErr|done]. }
  destruct (match vo with Some _ => ValueBytesLen d | None => Ok 0 end) as [t|e'|?];
    [|by destruct (Ht e')|done].
  destruct (needTruncate _ _ _); [|done].
  pose proof (ValueOffset0_noErr d) as Ho.
  destruct (ValueOffset0 d) as [beg|e'|?]; [|by destruct (Ho e')|done].
  by destruct (slice _ _ _).
Qed.

Lemma listValues_noErr NewSlice d offsets values vo :
  noErr (listValues NewSlice d offsets values vo).
Proof.
  unfold listValues, noErr. intros e.
  destruct vo.
  - destruct (index offsets 0); [|done]. destruct (index offsets (Len d)); [|done].
    destruct (_ || _); [|done]. by destruct (NewSlice _ _ _).
  - destruct (_ || _); [|done]. by destruct (NewSlice _ _ _).
Qed.

Section LengthCheck.

Variable NewSlice : Array -> Z -> Z -> option Array.
Variable getCompressor : Z -> Buffer -> result Buffer.
Variable compressParallel :
  Z -> Z -> list (option Buffer) -> result unit * list (option Buffer).

Lemma notBig_Ok : notBig (Ok tt).
Proof. intros e. done. Qed.

Lemma notBig_Panic m : notBig (Panic m).
Proof. intros e. done. Qed.

Lemma notBig_Wrapf ctx e : notBig (Err e) -> notBig (Err (Wrapf ctx e)).
Proof. intros Hn e' E. inversion E; subst. simpl. by apply Hn. Qed.

Lemma visitFields_lenient v fs s r s' :
  lenient v -> visitFields v fs s = Some (r, s') -> allow64b s.1 = true ->
  notBig r /\ allow64b s'.1 = true.
Proof.
  intros Hv. revert s. induction fs as [|f fs IH]; simpl; intros s E Ha.
  - inversion E; subst. split; [apply notBig_Ok|done].
  - destruct (v f s) as [[[[]|e|m] s1]|] eqn:Ev; try discriminate;
      destruct (Hv _ _ _ _ Ha Ev) as [Hn Ha1].
    + eapply IH; eauto.
    + inversion E; subst. split; [by apply notBig_Wrapf|done].
    + inversion E; subst. split; [apply notBig_Panic|done].
Qed.

Lemma nested_lenient v child s r s' :
  lenient v -> nested v child s = Some (r, s') -> allow64b s.1 = true ->
  notBig r /\ allow64b s'.1 = true.
Proof.
  intros Hv. unfold nested.
  destruct (v child (addDepth (-1) s)) as [[[[]|e|m] s1]|] eqn:Ev; intros E Ha;
    inversion E; subst; clear E;
    destruct (Hv child (addDepth (-1) s) _ _ Ha Ev) as [Hn Ha1].
  - split; [apply notBig_Ok|done].
  - split; [by apply notBig_Wrapf|done].
  - split; [apply notBig_Panic|done].
Qed.

Lemma leaf_lenient r0 s r s' :
  noErr r0 -> leaf r0 s = Some (r, s') -> allow64b s.1 = true ->
  notBig r /\ allow64b s'.1 = true.
Proof.
  intros Hn. unfold leaf. destruct r0 as [bs|e|m]; intros E Ha; inversion E; subst.
  - split; [apply notBig_Ok|done].
  - by destruct (Hn e).
  - split; [apply notBig_Panic|done].
Qed.

Ltac lenient_now :=
  intros E; inversion E; subst; clear E;
  (split; [first [apply notBig_Ok | apply notBig_Panic | (intros ? E'; inversion E'; subst; done)]
          | done]).

Lemma visitWith_lenient sub :
  (forall v, sub = Some v -> lenient v) -> lenient (visitWith NewSlice sub).
Proof.
  intros Hsub arr.
  induction arr as [d|d|bw d|d|d|d fs|d offs vals IH|d offs vals IH|k d vals IH|d idx IH|d st IH|d];
    intros s r s' Ha; simpl; rewrite Ha; simpl;
    (destruct (depth s.1 <=? 0); [lenient_now|]).
  all: try match goal with
           | |- context [validityBitmap ?x] =>
               pose proof (validityBitmap_noErr x) as Hvb;
               destruct (validityBitmap x) as [bm|e|m]; simpl;
               [|by destruct (Hvb e)|lenient_now]
           end.
  all: try lenient_now.
  - intros E. eapply leaf_lenient; [apply visitBoolean_noErr|exact E|done].
  - intros E. eapply leaf_lenient; [apply visitFixedWidth_noErr|exact E|done].
  - intros E. eapply leaf_lenient; [apply visitBinary_noErr|exact E|done].
  - intros E. eapply leaf_lenient; [apply visitBinary_noErr|exact E|done].
  - (* Struct *)
    destruct sub as [v|]; [|discriminate].
    destruct (visitFields v fs _) as [[[[]|e|m] s1]|] eqn:Ev; intros E;
      inversion E; subst; clear E;
      destruct (visitFields_lenient v fs _ _ _ (Hsub v eq_refl) Ev Ha) as [Hn Ha1]; done.
  - (* Map *)
    pose proof (getZeroBasedValueOffsets_noErr d) as Hg.
    destruct (getZeroBasedValueOffsets d) as [vo|e|m]; simpl;
      [|by destruct (Hg e)|lenient_now].
    pose proof (listValues_noErr NewSlice d offs vals vo) as Hl.
    destruct (listValues NewSlice d offs vals vo) as [child|e|m]; simpl;
      [|by destruct (Hl e)|lenient_now].
    destruct sub as [v|]; [|discriminate].
    intros E. eapply nested_lenient; [by apply Hsub|exact E|done].
  - (* List *)
    pose proof (getZeroBasedValueOffsets_noErr d) as Hg.
    destruct (getZeroBasedValueOffsets d) as [vo|e|m]; simpl;
      [|by destruct (Hg e)|lenient_now].
    pose proof (listValues_noErr NewSlice d offs vals vo) as Hl.
    destruct (listValues NewSlice d offs vals vo) as [child|e|m]; simpl;
      [|by destruct (Hl e)|lenient_now].
    destruct sub as [v|]; [|discriminate].
    intros E. eapply nested_lenient; [by apply Hsub|exact E|done].
  - (* FixedSizeList *)
    destruct (NewSlice vals _ _) as [child|]; [|lenient_now].
    destruct sub as [v|]; [|discriminate].
    intros E. eapply nested_lenient; [by apply Hsub|exact E|done].
  - (* Dictionary *)
    intros E. exact (IH _ _ _ Ha E).
  - (* Extension *)
    intros E.
    destruct (visitWith NewSlice sub st s) as [[[[]|e|m] s1]|] eqn:Ev;
      inversion E; subst; clear E; destruct (IH _ _ _ Ha Ev) as [Hn Ha1];
      (split; [|done]); [apply notBig_Ok | by apply notBig_Wrapf | apply notBig_Panic].
Qed.

Lemma visitN_lenient n : lenient (visitN NewSlice n).
Proof.
  induction n as [|n IH]; simpl; apply visitWith_lenient; intros v Hv;
    [discriminate | inversion Hv; subst; exact IH].
Qed.

Lemma visit_lenient arr s r s' :
  allow64b s.1 = true -> visit NewSlice arr s = (r, s') -> notBig r /\ allow64b s'.1 = true.
Proof.
  intros Ha E. pose proof (visit_visitN NewSlice arr s) as Ev. rewrite E in Ev.
  eapply visitN_lenient; eauto.
Qed.

Lemma visitColumns_lenient cols s r s' :
  allow64b s.1 = true -> visitColumns NewSlice cols s = (r, s') -> notBig r.
Proof.
  revert s. induction cols as [|c cols IH]; intros s Ha; simpl.
  - intros E; inversion E; subst. apply notBig_Ok.
  - destruct (visit NewSlice c s) as [[[]|e|m] s1] eqn:Ev;
      destruct (visit_lenient _ _ _ _ Ha Ev) as [Hn Ha1].
    + by apply IH.
    + intros E; inversion E; subst. by apply notBig_Wrapf.
    + intros E; inversion E; subst. apply notBig_Panic.
Qed.

Lemma encode_lenient rec s r s' :
  allow64b s.1 = true -> encode NewSlice getCompressor compressParallel rec s = (r, s') ->
  notBig r.
Proof.
  intros Ha. unfold encode.
  destruct (visitColumns NewSlice (Columns rec) s) as [[[]|e|m] [w0 p0]] eqn:Ev;
    pose proof (visitColumns_lenient _ _ _ _ Ha Ev) as Hn.
  - match goal with |- context [let (_, _) := ?X in _] => destruct X as [r1 p1] eqn:Ec end.
    assert (notBig r1) as Hr1.
    { destruct (negb (codec w0 =? -1)).
      - destruct (compressBodyBuffers _ _ w0 p0) as [[[]|e|m] p']; inversion Ec; subst;
          first [apply notBig_Ok | apply notBig_Panic].
      - inversion Ec; subst. apply notBig_Ok. }
    destruct r1 as [[]|e|m].
    + destruct (layout _ _) as [ms off].
      destruct (negb (bitutil.IsMultipleOf8 _)); intros E; inversion E; subst;
        [apply notBig_Panic | apply notBig_Ok].
    + intros E; inversion E; subst. done.
    + intros E; inversion E; subst. apply notBig_Panic.
  - intros E; inversion E; subst. done.
  - intros E; inversion E; subst. apply notBig_Panic.
Qed.

Lemma Encode_lenient rec s r s' :
  allow64b s.1 = true -> Encode NewSlice getCompressor compressParallel rec s = (r, s') ->
  notBig r.
Proof.
  intros Ha. unfold Encode.
  destruct (encode NewSlice getCompressor compressParallel rec s) as [[[]|e|m] s1] eqn:Ee;
    pose proof (encode_lenient _ _ _ _ Ha Ee) as Hn; intros E; inversion E; subst;
    first [apply notBig_Ok | done].
Qed.

End LengthCheck.

Section LengthCheckWriter.

Context {Elem : Type} (approx : Elem -> Elem -> bool).
Variable NewSlice : Array -> Z -> Z -> option Array.
Variable getCompressor : Z -> Buffer -> result Buffer.
Variable compressParallel :
  Z -> Z -> list (option Buffer) -> result unit * list (option Buffer).
Variable newSliceData : ArrayData -> ArrayData.
Context {Mapper : Type}.
Variable ImportSchema : Schema -> Mapper -> Mapper.
Variable payloadFromSchema : Schema -> Mapper -> list Payload.
Variable CollectDictionaries : Rec -> Mapper -> result (list (Z * @DictArray Elem)).
Context {PW : Type} `{PayloadWriter PW}.

#[local] Arguments dictStep : simpl never.
#[local] Arguments emitDict : simpl never.
#[local] Arguments dictEncoder_Encode : simpl never.
#[local] Arguments encode : simpl never.
#[local] Arguments Encode : simpl never.

Lemma visitWith_too_large sub arr s :
  0 < depth s.1 -> allow64b s.1 = false -> Int.MaxInt32 < Len (data arr) ->
  visitWith NewSlice sub arr s = Some (Err errBigArray, s).
Proof.
  intros Hd Ha Hl.
  assert ((depth s.1 <=? 0) = false) as Hd' by (apply Z.leb_gt; lia).
  assert ((Len (data arr) >? Int.MaxInt32) = true) as Hg by (apply Z.gtb_lt; lia).
  destruct arr; simpl in *; rewrite Hd', Ha, Hg; done.
Qed.

Lemma visit_too_large arr s :
  0 < depth s.1 -> allow64b s.1 = false -> Int.MaxInt32 < Len (data arr) ->
  visit NewSlice arr s = (Err errBigArray, s).
Proof.
  intros Hd Ha Hl. unfold visit.
  destruct (Z.to_nat (depth s.1)); simpl; by rewrite visitWith_too_large.
Qed.

Lemma visitColumns_ok cols s s' :
  visitColumns NewSlice cols s = (Ok tt, s') ->
  depth s'.1 = depth s.1 /\ allow64b s'.1 = allow64b s.1.
Proof.
  revert s. induction cols as [|c cols IH]; intros s; simpl.
  - intros E; inversion E; subst. done.
  - destruct (visit NewSlice c s) as [[[]|e|m] s1] eqn:Ev; try (intros E; inversion E; fail).
    pose proof (visit_depth _ _ _ _ Ev) as Hd.
    pose proof (visit_sameConfig _ _ _ _ _ Ev) as (_ & Ha & _).
    intros E. destruct (IH _ E) as [Hd' Ha']. split; congruence.
Qed.

Lemma visitColumns_app pre post s s1 :
  visitColumns NewSlice pre s = (Ok tt, s1) ->
  visitColumns NewSlice (pre ++ post) s = visitColumns NewSlice post s1.
Proof.
  revert s. induction pre as [|c pre IH]; intros s; simpl.
  - intros E; inversion E; subst. done.
  - destruct (visit NewSlice c s) as [[[]|e|m] s2]; try (intros E; inversion E; fail).
    apply IH.
Qed.

Lemma encode_allow64b rec s r s' :
  encode NewSlice getCompressor compressParallel rec s = (r, s') ->
  allow64b s'.1 = allow64b s.1.
Proof.
  unfold encode.
  destruct (visitColumns NewSlice (Columns rec) s) as [r0 [w0 p0]] eqn:Ev.
  pose proof (visitColumns_sameConfig _ _ _ _ _ Ev) as (_ & Ha & _). simpl in Ha.
  destruct r0 as [[]|e|m]; try (intros E; inversion E; subst; done).
  match goal with |- context [let (_, _) := ?X in _] => destruct X as [[[]|e|m] p1] end;
    try (intros E; inversion E; subst; done).
  destruct (layout _ _) as [ms off].
  destruct (negb (bitutil.IsMultipleOf8 _)); intros E; inversion E; subst; done.
Qed.

Lemma dictEncoder_Encode_lenient id isDelta (dict : @DictArray Elem) s r s' :
  allow64b s.1 = true ->
  dictEncoder_Encode NewSlice getCompressor compressParallel id isDelta dict s = (r, s') ->
  notBig r /\ allow64b s'.1 = true.
Proof.
  intros Ha. unfold dictEncoder_Encode.
  match goal with |- context [encode _ _ _ ?b ?s0] =>
    destruct (encode NewSlice getCompressor compressParallel b s0) as [r1 [w1 p1]] eqn:Ee;
    pose proof (encode_lenient _ _ _ b s0 _ _ Ha Ee) as Hn;
    pose proof (encode_allow64b _ _ _ _ Ee) as Ha1
  end.
  simpl in Ha1. rewrite Ha in Ha1.
  destruct r1 as [[]|e|m]; intros E; inversion E; subst; (split; [|done]);
    first [apply notBig_Ok | done].
Qed.

(** The payload writer and the dictionary collector do not fail. *)
Hypothesis sink_ok : forall p (s : PW), (WritePayload p s).1 = None.
Hypothesis collect_ok : forall rec m e, CollectDictionaries rec m <> Err e.

Lemma sinkWrite_noErr p (o : option PW) : noErr (sinkWrite p o).1.
Proof using sink_ok.
  intros e. unfold sinkWrite. destruct o as [s|]; [|done].
  pose proof (sink_ok p s). destruct (WritePayload p s) as [[e'|] s']; simpl in *; done.
Qed.

Lemma emitDict_lenient id isDelta lastD pdict dict (t t' : @Tracker Elem PW) r :
  allow64b (encoder t) = true ->
  emitDict NewSlice getCompressor compressParallel id isDelta lastD pdict dict t = (r, t') ->
  notBig r /\ allow64b (encoder t') = true.
Proof using sink_ok.
  intros Ha. unfold emitDict.
  match goal with |- context [dictEncoder_Encode _ _ _ _ _ _ ?s0] =>
    destruct (dictEncoder_Encode NewSlice getCompressor compressParallel id isDelta dict s0)
      as [r1 [w1 p1]] eqn:Ee;
    destruct (dictEncoder_Encode_lenient _ _ _ s0 _ _ Ha Ee) as [Hn Ha1]
  end.
  simpl in Ha1.
  destruct r1 as [[]|e|m]; try (intros E; inversion E; subst; done).
  pose proof (sinkWrite_noErr p1 (pw t)) as Hs.
  destruct (sinkWrite p1 (pw t)) as [[[]|e|m] o]; intros E; inversion E; subst;
    (split; [|done]); first [apply notBig_Ok | apply notBig_Panic | by destruct (Hs e)].
Qed.

Lemma dictStep_lenient e pr (t t' : @Tracker Elem PW) r def :
  allow64b (encoder t) = true ->
  dictStep approx NewSlice getCompressor compressParallel newSliceData false e pr t
    = (r, t', def) ->
  notBig r /\ allow64b (encoder t') = true.
Proof using sink_ok.
  intros Ha. destruct pr as [id D]. unfold dictStep. cbn [lastWrittenDicts].
  destruct (deltaStartOf approx false e (lastWrittenDicts t !! id) D) as [[ds|]|err|m] eqn:Ed.
  - destruct (ds >? 0).
    + destruct (NewSliceDict _ _ _ _ _) as [S|].
      * intros E. inversion E as [[E1 E2]]. eapply emitDict_lenient; [|exact E1]. done.
      * intros E; inversion E; subst. split; [apply notBig_Panic|done].
    + intros E. inversion E as [[E1 E2]]. eapply emitDict_lenient; [|exact E1]. done.
  - intros E; inversion E; subst. split; [apply notBig_Ok|done].
  - unfold deltaStartOf in Ed. destruct (lastWrittenDicts t !! id) as [L|]; [|done].
    destruct (_ =? _); [done|]. destruct (_ && _); [done|]. simpl in Ed.
    by destruct (_ && _ && _ && _) in Ed.
  - intros E; inversion E; subst. split; [apply notBig_Panic|done].
Qed.

Lemma dictLoop_lenient e pairs (t t' : @Tracker Elem PW) r :
  allow64b (encoder t) = true ->
  dictLoop approx NewSlice getCompressor compressParallel newSliceData false e pairs t
    = (r, t') ->
  notBig r /\ allow64b (encoder t') = true.
Proof using sink_ok.
  revert t t' r. induction pairs as [|pr pairs IH]; intros t t' r Ha; simpl.
  - intros E; inversion E; subst. split; [apply notBig_Ok|done].
  - destruct (dictStep _ _ _ _ _ false e pr t) as [[r1 t1] def] eqn:Es.
    destruct (dictStep_lenient _ _ _ _ _ _ Ha Es) as [Hn Ha1].
    destruct r1 as [[]|err|m].
    + destruct (dictLoop _ _ _ _ _ false e pairs t1) as [r2 t2] eqn:El.
      destruct (IH _ _ _ Ha1 El) as [Hn2 Ha2]. intros E; inversion E; subst. done.
    + intros E; inversion E; subst. done.
    + intros E; inversion E; subst. done.
Qed.

Local Abbreviation write :=
  (Writer_write approx NewSlice getCompressor compressParallel newSliceData ImportSchema
     payloadFromSchema CollectDictionaries).

Lemma writePayloads_noErr ps (o : option PW) : noErr (writePayloads ps o).1.
Proof using sink_ok.
  revert o. induction ps as [|p ps IH]; intros o e; simpl; [done|].
  pose proof (sinkWrite_noErr p o) as Hs.
  destruct (sinkWrite p o) as [[[]|e'|m] o']; simpl in *; [apply IH| by destruct (Hs e') | done].
Qed.

Lemma Writer_write_lenient rec (w : @Writer Elem Mapper PW) r w' :
  write rec w = (r, w') -> notBig r.
Proof using sink_ok collect_ok.
  unfold Writer_write.
  assert (forall x : @Writer Elem Mapper PW,
            noErr (Writer_start ImportSchema payloadFromSchema x).1) as Hst.
  { intros x e. unfold Writer_start.
    pose proof (writePayloads_noErr
                  (payloadFromSchema (schema x) (ImportSchema (schema x) (mapper x))) (w_pw x) e).
    destruct (writePayloads _ _). done. }
  assert (exists r0 w0,
    (if negb (started w) then Writer_start ImportSchema payloadFromSchema w else (Ok tt, w))
    = (r0, w0) /\ noErr r0) as (r0 & w0 & -> & Hr0).
  { destruct (negb (started w)).
    - specialize (Hst w). destruct (Writer_start _ _ w) as [r0 w0]. eauto.
    - eexists _, _. split; [done|]. done. }
  destruct r0 as [[]|e0|m0]; [|by destruct (Hr0 e0)|intros E; inversion E; apply notBig_Panic].
  destruct (match recSchema rec with Some sc => _ | None => true end).
  { intros E; inversion E; subst. intros e' E'. inversion E'; subst. done. }
  unfold writeDictionaryPayloads.
  pose proof (collect_ok rec (mapper w0)) as Hc.
  destruct (CollectDictionaries rec (mapper w0)) as [pairs|e1|m1];
    [|by destruct (Hc e1)|intros E; inversion E; apply notBig_Panic].
  match goal with |- context [dictLoop _ _ _ _ _ false ?e pairs ?t0] =>
    destruct (dictLoop approx NewSlice getCompressor compressParallel newSliceData false e
                pairs t0) as [r1 t1] eqn:El;
    destruct (dictLoop_lenient e pairs t0 t1 r1 eq_refl El) as [Hn Ha1]
  end.
  destruct r1 as [[]|e1|m1].
  - cbn [refLog encoder logRef lastWrittenDicts pw].
    match goal with |- context [Encode _ _ _ rec ?s0] =>
      destruct (Encode NewSlice getCompressor compressParallel rec s0) as [r2 [w2 p2]] eqn:Ee;
      pose proof (Encode_lenient _ _ _ rec s0 _ _ Ha1 Ee) as Hn2
    end.
    destruct r2 as [[]|e2|m2].
    + match goal with |- context [sinkWrite ?p ?o] =>
        pose proof (sinkWrite_noErr p o) as Hs; destruct (sinkWrite p o) as [r3 o3]
      end.
      intros E; inversion E; subst. intros e3 ->. by destruct (Hs e3).
    + intros E; inversion E; subst. by apply notBig_Wrapf.
    + intros E; inversion E; subst. apply notBig_Panic.
  - intros E; inversion E; subst. by apply notBig_Wrapf.
  - intros E; inversion E; subst. apply notBig_Panic.
Qed.

(** C3 (as amended): an array of more than 2^31-1 elements that [visit]
    reaches with a positive depth budget while 64-bit lengths are
    disabled makes [visit] return the too-large error, and [encode]
    returns it wrapped with the column.  [Writer.Write] builds its encoder
    with 64-bit lengths allowed: with a payload writer and a dictionary
    collector that do not fail, no error it returns is the too-large
    error. *)
Theorem too_large_array rec pre arr post s s1 :
  Columns rec = pre ++ arr :: post ->
  visitColumns NewSlice pre s = (Ok tt, s1) ->
  0 < depth s.1 ->
  allow64b s.1 = false ->
  Int.MaxInt32 < Len (data arr) ->
  visit NewSlice arr s1 = (Err errBigArray, s1)
  /\ encode NewSlice getCompressor compressParallel rec s
     = (Err (Wrapf "arrow/ipc: could not encode column" errBigArray), s1)
  /\ (forall rec' (w w' : @Writer Elem Mapper PW) e,
        Writer_Write approx NewSlice getCompressor compressParallel newSliceData ImportSchema
          payloadFromSchema CollectDictionaries rec' w = (Some e, w') ->
        unwrap e <> errBigArray).
Proof using sink_ok collect_ok.
  intros Hc Hpre Hd Ha Hl.
  destruct (visitColumns_ok _ _ _ Hpre) as [Hd1 Ha1].
  assert (visit NewSlice arr s1 = (Err errBigArray, s1)) as Hv.
  { apply visit_too_large; [lia|congruence|done]. }
  split; [done|]. split.
  - unfold encode. rewrite Hc, (visitColumns_app _ _ _ _ Hpre). simpl. rewrite Hv.
    by destruct s1.
  - intros rec' w w' e. unfold Writer_Write.
    destruct (write rec' w) as [r w0] eqn:Ew.
    pose proof (Writer_write_lenient _ _ _ _ Ew) as Hn.
    destruct r as [[]|e0|m]; intros E; inversion E; subst; [by apply Hn|done].
Qed.

End LengthCheckWriter.

(** *** Concrete runs of the length check *)

Lemma zeros_blen n : 0 <= n -> blen (zeros n) = n.
Proof. intros Hn. unfold blen, zeros. rewrite repeat_length. lia. Qed.

Lemma visitFixedWidth_big vals :
  blen vals = 8589934592 ->
  visitFixedWidth 32 (mkData 2147483648 0 0 [None; Some vals]) = Ok [Some vals].
Proof.
  intros Hl. unfold visitFixedWidth, needTruncate.
  cbn -[blen Int.i64 paddedLength Z.mul Z.quot]. rewrite Hl. reflexivity.
Qed.

Lemma visit_big vals s :
  blen vals = 8589934592 -> 0 < depth s.1 -> allow64b s.1 = true ->
  visit Example.NewSlice (Example.bigColumn vals) s
  = (Ok tt, appendAll [None; Some vals] (appendField (mkField 2147483648 0 0) s)).
Proof.
  intros Hl Hd Ha. unfold visit.
  assert ((depth s.1 <=? 0) = false) as Hd' by (apply Z.leb_gt; lia).
  destruct (Z.to_nat (depth s.1)); cbn -[visitFixedWidth];
    rewrite Hd', Ha, visitFixedWidth_big by done;
    cbn; unfold appendAll, appendBody, set_body; cbn; rewrite <- app_assoc; reflexivity.
Qed.

Lemma Encode_big vals :
  blen vals = 8589934592 ->
  (Encode Example.NewSlice Example.store Example.noParallel (Example.bigRec vals)
     (reset (newRecordEncoder 0 kMaxNestingDepth true (-1) 0), Example.payload0)).1 = Ok tt.
Proof.
  intros Hl. unfold Encode, encode, Example.bigRec. cbn -[visit layout Example.bigColumn].
  rewrite visit_big by (done || (cbn; lia)).
  cbn -[blen bitutil.CeilByte64 Int.i64]. rewrite Hl. reflexivity.
Qed.

(** [Write] of a record of 2^31 rows of int32 returns no error. *)
Lemma Write_big vals :
  blen vals = 8589934592 ->
  (Example.WriteLog Example.store (Example.bigRec vals) (Example.writerLog (-1) 0)).1 = None.
Proof.
  intros Hl. pose proof (Encode_big vals Hl) as He.
  unfold Example.WriteLog, Writer_Write, Writer_write, Example.writerLog,
    NewWriterWithPayloadWriter.
  cbn -[Encode Example.bigRec] in *.
  destruct (Encode Example.NewSlice Example.store Example.noParallel (Example.bigRec vals) _)
    as [r [w p]].
  simpl in He. subst r. reflexivity.
Qed.

Lemma too_large_array_witness :
  let s := (newRecordEncoder 0 kMaxNestingDepth false (-1) 0, Example.payload0) in
  visit Example.NewSlice Example.nulls31 s = (Err errBigArray, s)
  /\ encode Example.NewSlice Example.store Example.noParallel
       (mkRec (Some Example.schemaX) [Example.nulls31] 2147483648) s
     = (Err (Wrapf "arrow/ipc: could not encode column" errBigArray), s)
  /\ (forall rec' w w' e,
        Example.WriteLog Example.store rec' w = (Some e, w') -> unwrap e <> errBigArray).
Proof.
  intros s.
  refine (too_large_array (PW := Example.Log) (H := Example.Log_PayloadWriter) Z.eqb
            Example.NewSlice Example.store Example.noParallel Example.newSliceData
            Example.importSchema Example.schemaPayloads Example.noDicts _ _
            (mkRec (Some Example.schemaX) [Example.nulls31] 2147483648) [] Example.nulls31 []
            s s _ _ _ _ _).
  - intros p l. reflexivity.
  - intros rec' m e. discriminate.
  - reflexivity.
  - reflexivity.
  - reflexivity.
  - reflexivity.
  - reflexivity.
Defined.

(** C3 as stated fails through the writer, which has no way to disable
    64-bit lengths: writing a record of 2^31 rows of int32 returns no
    error; and with 64-bit lengths disabled, an array of 2^31 elements
    that lies 64 levels deep is met when the depth budget is used up, so
    that encoding fails with the recursion error instead. *)
Lemma too_large_counterexample :
  (Int.MaxInt32 < Len (data (Example.bigColumn (zeros 8589934592)))
   /\ NumRows (Example.bigRec (zeros 8589934592)) = 2 ^ 31
   /\ (Example.WriteLog Example.store (Example.bigRec (zeros 8589934592))
         (Example.writerLog (-1) 0)).1 = None)
  /\
  (let s := (newRecordEncoder 0 kMaxNestingDepth false (-1) 0, Example.payload0) in
   allow64b s.1 = false
   /\ Int.MaxInt32 < Len (data Example.nulls31)
   /\ unwrap <$> errorOf (encode Example.NewSlice Example.store Example.noParallel
                            Example.deepRec s).1
      = Some errMaxRecursion).
Proof.
  split.
  - split; [reflexivity|]. split; [reflexivity|].
    apply Write_big. apply zeros_blen. lia.
  - vm_compute. repeat split; reflexivity.
Qed.

(** ** Zero-based offsets *)

Lemma le_val_le_bytes n v : Int32Traits.le_val (Int32Traits.le_bytes n v) = v mod 256 ^ Z.of_nat n.
Proof.
  revert v. induction n as [|n IH]; intros v.
  - simpl. by rewrite Z.mod_1_r.
  - cbn [Int32Traits.le_bytes Int32Traits.le_val]. rewrite IH.
    rewrite Nat2Z.inj_succ, Z.pow_succ_r by lia.
    rewrite Z.rem_mul_r by lia. done.
Qed.

Lemma i32_mod v : Int.i32 (v mod 2 ^ 32) = Int.i32 v.
Proof.
  unfold Int.i32, Int.wrap. f_equal. change (2 ^ (32 - 1)) with (2 ^ 31).
  rewrite Zplus_mod_idemp_l. done.
Qed.

Lemma i32_idem v : Int.i32 (Int.i32 v) = Int.i32 v.
Proof. apply i32_id, i32_range. Qed.

Lemma GetInt32_PutInt32 v : Int32Traits.GetInt32 (Int32Traits.PutInt32 v) = Int.i32 v.
Proof.
  unfold Int32Traits.GetInt32, Int32Traits.PutInt32. rewrite le_val_le_bytes.
  change (256 ^ Z.of_nat 4) with (2 ^ 32). apply i32_mod.
Qed.

Lemma length_le_bytes n v : length (Int32Traits.le_bytes n v) = n.
Proof. revert v. induction n as [|n IH]; intros v; simpl; [done|]. by rewrite IH. Qed.

Lemma length_CastToBytes l : length (Int32Traits.CastToBytes l) = (4 * length l)%nat.
Proof.
  unfold Int32Traits.CastToBytes. induction l as [|v l IH]; [done|].
  cbn [map concat length]. rewrite length_app, IH.
  unfold Int32Traits.PutInt32. rewrite length_le_bytes. lia.
Qed.

Lemma castN_CastToBytes l :
  Int32Traits.castN (length l) (Int32Traits.CastToBytes l) = map Int.i32 l.
Proof.
  unfold Int32Traits.CastToBytes. induction l as [|v l IH]; [done|].
  cbn [length Int32Traits.castN map concat].
  assert (length (Int32Traits.PutInt32 v) = 4%nat) as Hl by apply length_le_bytes.
  rewrite take_app_length' by done. rewrite drop_app_length' by done.
  rewrite GetInt32_PutInt32, IH. done.
Qed.

Lemma CastFromBytes_CastToBytes l :
  Int32Traits.CastFromBytes (Int32Traits.CastToBytes l) = map Int.i32 l.
Proof.
  unfold Int32Traits.CastFromBytes. rewrite length_CastToBytes.
  replace (4 * length l / 4)%nat with (length l).
  - apply castN_CastToBytes.
  - rewrite Nat.mul_comm, Nat.div_mul; done.
Qed.

Lemma length_castN n b : length (Int32Traits.castN n b) = n.
Proof. revert b. induction n as [|n IH]; intros b; simpl; [done|]. by rewrite IH. Qed.

Lemma length_CastFromBytes b :
  Z.of_nat (length (Int32Traits.CastFromBytes b)) = blen b / 4.
Proof.
  unfold Int32Traits.CastFromBytes, blen. rewrite length_castN.
  rewrite Nat2Z.inj_div. done.
Qed.

(** What [getZeroBasedValueOffsets] returns for an array whose offsets
    buffer holds the entries the array refers to: the shifted offsets
    when the array has an offset or the buffer has more bytes than
    [len + 1] entries, the buffer itself otherwise. *)
Lemma getZeroBasedValueOffsets_spec d src :
  Buffers d !! 1%nat = Some (Some src) ->
  0 <= Offset d -> 0 <= Len d ->
  Offset d + Len d + 1 <= Z.of_nat (length (Int32Traits.CastFromBytes src)) ->
  let offs := Int32Traits.CastFromBytes src in
  let window := take (Z.to_nat (Len d + 1)) (drop (Z.to_nat (Offset d)) offs) in
  getZeroBasedValueOffsets d
  = if negb (Offset d =? 0) || (4 * (Len d + 1) <? blen src)
    then Ok (Some (Int32Traits.CastToBytes
                     (map (fun o => Int.i32 (o - nth (Z.to_nat (Offset d)) offs 0)) window)))
    else Ok (Some src).
Proof.
  intros Hb Ho Hl Hn offs window. unfold getZeroBasedValueOffsets. rewrite Hb.
  unfold Int32Traits.BytesRequired.
  assert (1 <= blen src / 4) as Hsrc by (rewrite <- length_CastFromBytes; lia).
  change (Int32Traits.CastFromBytes src) with offs in Hn.
  assert (4 <= blen src) as Hsrc4.
  { pose proof (Z.mul_div_le (blen src) 4 ltac:(lia)). lia. }
  destruct (negb (Offset d =? 0) || (4 * (Len d + 1) <? blen src)).
  - unfold slice. fold offs.
    replace ((0 <=? Offset d) && (Offset d <=? Offset d + Len d + 1)
             && (Offset d + Len d + 1 <=? Z.of_nat (length offs))) with true
      by (symmetry; rewrite !andb_true_iff, !Z.leb_le; lia).
    replace (Z.to_nat (Offset d + Len d + 1 - Offset d)) with (Z.to_nat (Len d + 1))
      by (f_equal; lia).
    fold window.
    assert (length window = Z.to_nat (Len d + 1)) as Hw.
    { unfold window. rewrite length_take, length_drop. lia. }
    destruct window as [|o0 rest] eqn:Ew; [simpl in Hw; lia|].
    assert (nth (Z.to_nat (Offset d)) offs 0 = o0) as ->.
    { apply nth_lookup_Some.
      pose proof (f_equal (fun l => l !! 0%nat) Ew) as Hh. simpl in Hh. unfold window in Hh.
      rewrite lookup_take_lt, lookup_drop, Nat.add_0_r in Hh by lia. done. }
    unfold blen. rewrite length_CastToBytes, length_map. simpl length.
    replace (Z.of_nat (4 * S (length rest)) =? 0) with false
      by (symmetry; apply Z.eqb_neq; lia).
    done.
  - replace (blen src =? 0) with false by (symmetry; apply Z.eqb_neq; lia). done.
Qed.

Section ZeroBased.

Variable NewSlice : Array -> Z -> Z -> option Array.

Lemma visit_zeroOffsets arr s r s' : visit NewSlice arr s = (r, s') -> zeroOffsets s s'.
Proof.
  apply (visit_preserves NewSlice zeroOffsets); unfold zeroOffsets.
  - intros x. exists []. by rewrite app_nil_r.
  - intros a b c (e1 & E1 & F1) (e2 & E2 & F2). exists (e1 ++ e2).
    rewrite E2, E1, app_assoc. split; [done|]. by apply Forall_app.
  - intros l n x. exists [mkField l n 0]. split; [done|]. by repeat constructor.
  - intros bs x. exists []. simpl. by rewrite app_nil_r.
  - intros k x. exists []. simpl. by rewrite app_nil_r.
Qed.

End ZeroBased.

(** ** Bitmaps *)

Lemma length_SetBitTo buf i v : length (bitutil.SetBitTo buf i v) = length buf.
Proof. unfold bitutil.SetBitTo. apply length_insert. Qed.

Lemma nth_insert_eq (l : list Z) k x : (k < length l)%nat -> nth k (<[k := x]> l) 0 = x.
Proof. intros Hk. apply nth_lookup_Some. by apply list_lookup_insert_eq. Qed.

Lemma nth_insert_ne (l : list Z) k j x : k <> j -> nth j (<[k := x]> l) 0 = nth j l 0.
Proof. intros Hk. rewrite !nth_lookup. by rewrite list_lookup_insert_ne. Qed.

Lemma nth_SetBitTo_other buf i v k :
  k <> Z.to_nat (i / 8) -> nth k (bitutil.SetBitTo buf i v) 0 = nth k buf 0.
Proof. intros Hk. unfold bitutil.SetBitTo. by apply nth_insert_ne. Qed.

(** The mask that clears bit [p] of a byte keeps the seven other bits. *)
Lemma clear_mask_bit p q :
  0 <= p < 8 -> 0 <= q < 8 -> Z.testbit (255 - 2 ^ p) q = negb (p =? q).
Proof.
  intros Hp Hq.
  assert (p = 0 \/ p = 1 \/ p = 2 \/ p = 3 \/ p = 4 \/ p = 5 \/ p = 6 \/ p = 7)
    as [->|[->|[->|[->|[->|[->|[->| ->]]]]]]] by lia;
    assert (q = 0 \/ q = 1 \/ q = 2 \/ q = 3 \/ q = 4 \/ q = 5 \/ q = 6 \/ q = 7)
    as [->|[->|[->|[->|[->|[->|[->| ->]]]]]]] by lia; reflexivity.
Qed.

Lemma set_byte_bit b p q (v : bool) :
  0 <= p < 8 -> 0 <= q < 8 ->
  Z.testbit (if v then Z.lor b (2 ^ p) else Z.land b (255 - 2 ^ p)) q
  = if p =? q then v else Z.testbit b q.
Proof.
  intros Hp Hq. destruct v.
  - rewrite Z.lor_spec, Z.pow2_bits_eqb by lia.
    destruct (p =? q); [apply orb_true_r|apply orb_false_r].
  - rewrite Z.land_spec, clear_mask_bit by lia.
    destruct (p =? q); [apply andb_false_r|apply andb_true_r].
Qed.

Lemma div8_mod8_eq i j : i / 8 = j / 8 -> i mod 8 = j mod 8 -> i = j.
Proof.
  intros Hd Hm. rewrite (Z.div_mod i 8), (Z.div_mod j 8) by lia. congruence.
Qed.

Lemma BitIsSet_SetBitTo_eq buf i v :
  0 <= i -> i / 8 < blen buf -> bitutil.BitIsSet (bitutil.SetBitTo buf i v) i = v.
Proof.
  intros Hi Hl. unfold bitutil.BitIsSet, bitutil.SetBitTo, blen in *.
  pose proof (Z.div_pos i 8 Hi ltac:(lia)).
  rewrite nth_insert_eq by lia.
  rewrite set_byte_bit by (apply Z.mod_pos_bound; lia). by rewrite Z.eqb_refl.
Qed.

Lemma BitIsSet_SetBitTo_ne buf i j v :
  0 <= i -> 0 <= j -> i <> j ->
  bitutil.BitIsSet (bitutil.SetBitTo buf i v) j = bitutil.BitIsSet buf j.
Proof.
  intros Hi Hj Hne. unfold bitutil.BitIsSet.
  destruct (decide (Z.to_nat (i / 8) = Z.to_nat (j / 8))) as [Heq|Hnq].
  - unfold bitutil.SetBitTo. cbv zeta.
    destruct (decide (Z.to_nat (i / 8) < length buf)%nat) as [Hlt|Hge].
    + rewrite <- Heq, nth_insert_eq by done.
      rewrite set_byte_bit by (apply Z.mod_pos_bound; lia).
      destruct (Z.eqb_spec (i mod 8) (j mod 8)) as [Hm|Hm]; [|done].
      exfalso. apply Hne. apply div8_mod8_eq; [|done].
      pose proof (Z.div_pos i 8 Hi ltac:(lia)). pose proof (Z.div_pos j 8 Hj ltac:(lia)). lia.
    + rewrite (list_insert_ge (A:=Z)) by lia. done.
  - rewrite nth_SetBitTo_other by done. done.
Qed.

(** [copyBits] sets the bits [[dstOff, dstOff + n)] to the bits of the
    source from [srcOff] on and leaves the others. *)
Lemma copyBits_spec n src : forall srcOff dst dstOff,
  0 <= dstOff -> (dstOff + Z.of_nat n + 7) / 8 <= blen dst ->
  blen (bitutil.copyBits n src srcOff dst dstOff) = blen dst
  /\ (forall j, 0 <= j ->
        bitutil.BitIsSet (bitutil.copyBits n src srcOff dst dstOff) j
        = if (dstOff <=? j) && (j <? dstOff + Z.of_nat n)
          then bitutil.BitIsSet src (srcOff + (j - dstOff))
          else bitutil.BitIsSet dst j)
  /\ (forall k, (dstOff + Z.of_nat n + 7) / 8 <= Z.of_nat k ->
        nth k (bitutil.copyBits n src srcOff dst dstOff) 0 = nth k dst 0).
Proof.
  induction n as [|n IH]; intros srcOff dst dstOff Hd Hl.
  - simpl. split; [done|]. split; [|done]. intros j Hj.
    replace (j <? dstOff + Z.of_nat 0) with (j <? dstOff) by (f_equal; lia).
    destruct (Z.leb_spec dstOff j), (Z.ltb_spec j dstOff); simpl; try done; lia.
  - cbn [bitutil.copyBits].
    set (dst' := bitutil.SetBitTo dst dstOff (bitutil.BitIsSet src srcOff)).
    assert (blen dst' = blen dst) as Hlen
      by (unfold blen, dst'; by rewrite length_SetBitTo).
    assert (dstOff / 8 < (dstOff + Z.of_nat (S n) + 7) / 8) as Hdiv.
    { apply Z.div_lt_upper_bound; [lia|].
      pose proof (Z.mod_pos_bound (dstOff + Z.of_nat (S n) + 7) 8 ltac:(lia)).
      pose proof (Z.div_mod (dstOff + Z.of_nat (S n) + 7) 8 ltac:(lia)). lia. }
    assert (dstOff / 8 < blen dst) as Hbyte by lia.
    destruct (IH (srcOff + 1) dst' (dstOff + 1)) as (H1 & H2 & H3).
    { lia. }
    { rewrite Hlen. replace (dstOff + 1 + Z.of_nat n) with (dstOff + Z.of_nat (S n)) by lia.
      done. }
    split; [by rewrite H1|]. split.
    + intros j Hj. rewrite H2 by done.
      replace (dstOff + 1 + Z.of_nat n) with (dstOff + Z.of_nat (S n)) by lia.
      destruct (Z.leb_spec (dstOff + 1) j), (Z.ltb_spec j (dstOff + Z.of_nat (S n)));
        destruct (Z.leb_spec dstOff j); simpl; try lia;
        first [ f_equal; lia
              | unfold dst'; apply BitIsSet_SetBitTo_ne; lia
              | assert (j = dstOff) as -> by lia; rewrite Z.sub_diag, Z.add_0_r;
                unfold dst'; apply BitIsSet_SetBitTo_eq; done ].
    + intros k Hk. rewrite H3.
      * unfold dst'. apply nth_SetBitTo_other.
        assert (dstOff / 8 < Z.of_nat k) by (clear -Hdiv Hk; lia).
        pose proof (Z.div_pos dstOff 8 Hd ltac:(lia)). lia.
      * replace (dstOff + 1 + Z.of_nat n) with (dstOff + Z.of_nat (S n)) by lia. done.
Qed.

Lemma nth_zeros k m : nth k (zeros m) 0 = 0.
Proof. unfold zeros. apply nth_repeat. Qed.

Lemma BytesForBits_aligned off n :
  off mod 8 = 0 -> bitutil.BytesForBits (off + n) = off / 8 + bitutil.BytesForBits n.
Proof.
  intros Hm. unfold bitutil.BytesForBits.
  pose proof (Z.div_mod off 8 ltac:(lia)) as Hd. rewrite Hm, Z.add_0_r in Hd.
  rewrite Hd at 1. replace (8 * (off / 8) + n + 7) with ((n + 7) + (off / 8) * 8) by lia.
  rewrite Z.div_add by lia. lia.
Qed.

(** [CopyBitmap] into a fresh buffer of [m] zero bytes, from bit 0 on:
    the first [n] bits are the source bits from [off] on, and the bytes
    past them are zero. *)
Lemma CopyBitmap_zeros src off n m :
  0 <= off -> 0 <= n -> 0 <= m ->
  bitutil.BytesForBits (off + n) <= blen src ->
  bitutil.BytesForBits n <= m ->
  exists out,
    bitutil.CopyBitmap src off n (zeros m) 0 = Some out
    /\ blen out = m
    /\ (forall i, 0 <= i < n -> bitutil.BitIsSet out i = bitutil.BitIsSet src (off + i))
    /\ (forall k, bitutil.BytesForBits n <= Z.of_nat k -> nth k out 0 = 0).
Proof.
  intros Ho Hn Hm Hs Hd. unfold bitutil.CopyBitmap.
  destruct (Z.eqb_spec n 0) as [->|Hn0].
  { exists (zeros m). split; [done|]. split; [by apply zeros_blen|].
    split; [intros i Hi; lia|]. intros k _. apply nth_zeros. }
  replace ((off <? 0) || (n <? 0) || (0 <? 0)) with false.
  2:{ symmetry. rewrite !orb_false_iff, !Z.ltb_ge. lia. }
  assert (0 <= bitutil.BytesForBits n) as Hnb.
  { unfold bitutil.BytesForBits. apply Z.div_pos; lia. }
  destruct (Z.eqb_spec (off mod 8) 0) as [Hal|Hal].
  - (* byte-aligned source *)
    rewrite (BytesForBits_aligned off n Hal) in Hs.
    replace ((off / 8 + bitutil.BytesForBits n <=? blen src) && (0 / 8 <=? blen (zeros m)))
      with true.
    2:{ symmetry. rewrite andb_true_iff, !Z.leb_le, zeros_blen by done.
        change (0 / 8) with 0. lia. }
    set (nb := Z.to_nat (bitutil.BytesForBits n)).
    set (q := Z.to_nat (off / 8)).
    set (chunk := take nb (drop q src)).
    pose proof (Z.div_pos off 8 Ho ltac:(lia)) as Hq.
    assert (length chunk = nb) as Hcl.
    { unfold chunk. rewrite length_take, length_drop. unfold blen in Hs. lia. }
    assert (bitutil.copyAt (zeros m) (Z.to_nat (0 / 8)) chunk
            = chunk ++ drop nb (zeros m)) as ->.
    { unfold bitutil.copyAt. change (Z.to_nat (0 / 8)) with 0%nat. simpl.
      rewrite Hcl, Nat.sub_0_r. rewrite take_ge; [done|].
      rewrite Hcl. unfold zeros. rewrite repeat_length. lia. }
    eexists. split; [done|]. split; [|split].
    + unfold blen. rewrite length_app, length_drop, Hcl. unfold zeros.
      rewrite repeat_length. lia.
    + intros i Hi. unfold bitutil.BitIsSet.
      assert (0 <= i / 8 < bitutil.BytesForBits n) as Hib.
      { split; [apply Z.div_pos; lia|]. unfold bitutil.BytesForBits.
        apply Z.div_lt_upper_bound; [lia|].
        pose proof (Z.mod_pos_bound (n + 7) 8 ltac:(lia)).
        pose proof (Z.div_mod (n + 7) 8 ltac:(lia)). lia. }
      pose proof (Z.div_mod off 8 ltac:(lia)) as Hdm. rewrite Hal, Z.add_0_r in Hdm.
      assert ((off + i) / 8 = off / 8 + i / 8) as ->.
      { rewrite Hdm at 1. replace (8 * (off / 8) + i) with (i + (off / 8) * 8) by lia.
        rewrite Z.div_add by lia. lia. }
      assert ((off + i) mod 8 = i mod 8) as ->.
      { rewrite Hdm at 1. replace (8 * (off / 8) + i) with (i + (off / 8) * 8) by lia.
        apply Z.mod_add. lia. }
      f_equal. rewrite !nth_lookup. f_equal.
      rewrite lookup_app_l by (rewrite Hcl; unfold nb; lia).
      unfold chunk. rewrite lookup_take_lt by (unfold nb; lia). rewrite lookup_drop.
      f_equal. unfold q. lia.
    + intros k Hk. rewrite nth_lookup.
      rewrite lookup_app_r by (rewrite Hcl; unfold nb; lia).
      rewrite lookup_drop. rewrite <- nth_lookup. apply nth_zeros.
  - (* bit by bit *)
    replace ((bitutil.BytesForBits (off + n) <=? blen src)
             && (bitutil.BytesForBits (0 + n) <=? blen (zeros m))) with true.
    2:{ symmetry. rewrite andb_true_iff, !Z.leb_le, zeros_blen by done.
        rewrite Z.add_0_l. done. }
    destruct (copyBits_spec (Z.to_nat n) src off (zeros m) 0) as (H1 & H2 & H3).
    { lia. }
    { rewrite zeros_blen, Z2Nat.id by done. exact Hd. }
    eexists. split; [done|]. split; [by rewrite H1, zeros_blen|]. split.
    + intros i Hi. rewrite H2 by lia. rewrite Z2Nat.id by done.
      replace ((0 <=? i) && (i <? 0 + n)) with true.
      2:{ symmetry. rewrite andb_true_iff, Z.leb_le, Z.ltb_lt. lia. }
      by rewrite Z.sub_0_r.
    + intros k Hk. rewrite H3; [apply nth_zeros|]. rewrite Z2Nat.id by done. exact Hk.
Qed.

Lemma paddedLength_ge x : x <= paddedLength x kArrowAlignment.
Proof.
  unfold paddedLength, kArrowAlignment.
  pose proof (Z.mod_pos_bound (x + 8 - 1) 8 ltac:(lia)).
  pose proof (Z.div_mod (x + 8 - 1) 8 ltac:(lia)). lia.
Qed.

Lemma validityBitmap_spec d vb :
  Buffers d !! 0%nat = Some vb ->
  0 <= Offset d -> 0 <= Len d ->
  (forall src, vb = Some src -> bitutil.BytesForBits (Offset d + Len d) <= blen src) ->
  exists bm, validityBitmap d = Ok bm /\ validitySpec d vb bm.
Proof.
  intros Hb Ho Hl Hs. unfold validityBitmap, validitySpec.
  destruct (NullN d =? 0); [eauto|]. destruct (NullN d =? Len d); [eauto|].
  rewrite Hb. unfold newTruncatedBitmap. destruct vb as [src|]; [|eauto].
  destruct (negb (Offset d =? 0) || _); [|eauto].
  assert (0 <= bitutil.BytesForBits (Len d)) as Hnb.
  { unfold bitutil.BytesForBits. apply Z.div_pos; lia. }
  pose proof (paddedLength_ge (bitutil.BytesForBits (Len d))) as Hp.
  destruct (CopyBitmap_zeros src (Offset d) (Len d)
              (paddedLength (bitutil.BytesForBits (Len d)) kArrowAlignment))
    as (out & E & H1 & H2 & H3); try done; try lia.
  { by apply Hs. }
  rewrite E. eauto 10.
Qed.

Section Validity.

Variable NewSlice : Array -> Z -> Z -> option Array.

Lemma grows_refl s : grows s s.
Proof. exists []. by rewrite app_nil_r. Qed.

Lemma grows_trans a b c : grows a b -> grows b c -> grows a c.
Proof. intros (r1 & E1) (r2 & E2). exists (r1 ++ r2). by rewrite E2, E1, app_assoc. Qed.

Lemma grows_field l n s : grows s (appendField (mkField l n 0) s).
Proof. exists []. simpl. by rewrite app_nil_r. Qed.

Lemma grows_body bs s : grows s (appendAll bs s).
Proof. by exists bs. Qed.

Lemma grows_depth k s : grows s (addDepth k s).
Proof. exists []. simpl. by rewrite app_nil_r. Qed.

Lemma visitN_grows n arr s r s' : visitN NewSlice n arr s = Some (r, s') -> grows s s'.
Proof.
  apply (visitN_preserves NewSlice grows grows_refl grows_trans grows_field grows_body
           grows_depth).
Qed.

Lemma grows_from bm f s s' :
  grows (appendBody bm (appendField f s)) s' -> exists rest, body s'.2 = body s.2 ++ bm :: rest.
Proof. intros (rest & E). exists rest. rewrite E. simpl. by rewrite <- app_assoc. Qed.

(** After the field and the validity entry [bm], whatever [visit] does
    next only appends to the body. *)
Lemma visitWith_validity sub arr s r s' bm :
  (forall v, sub = Some v -> preserves grows v) ->
  common arr = true ->
  0 < depth s.1 ->
  allow64b s.1 = true \/ Len (data arr) <= Int.MaxInt32 ->
  validityBitmap (data arr) = Ok bm ->
  visitWith NewSlice sub arr s = Some (r, s') ->
  exists rest, body s'.2 = body s.2 ++ bm :: rest.
Proof.
  intros Hsub Hc Hd Hg Hv.
  assert ((depth s.1 <=? 0) = false) as Hd' by (apply Z.leb_gt; lia).
  assert (negb (allow64b s.1) && (Len (data arr) >? Int.MaxInt32) = false) as Hg'.
  { destruct Hg as [->|Hg]; [done|]. apply andb_false_iff. right.
    rewrite Z.gtb_ltb. apply Z.ltb_ge. lia. }
  destruct arr as [d|d|bw d|d|d|d fs|d offs vals|d offs vals|k d vals|d idx|d st|d];
    try discriminate; simpl in *; rewrite Hd', Hg', Hv; intros E;
    eapply grows_from;
    first
      [ eapply (leaf_preserves grows grows_refl grows_body); exact E
      | inversion E; subst; apply grows_refl
      | idtac ].
  - (* Struct *)
    destruct sub as [v|]; [|discriminate].
    destruct (visitFields v fs _) as [[[[]|e|m] s1]|] eqn:Ev;
      inversion E; subst; clear E;
      (eapply grows_trans; [apply grows_depth|]).
    + eapply grows_trans; [|apply grows_depth].
      eapply (visitFields_preserves grows grows_refl grows_trans); eauto.
    + eapply (visitFields_preserves grows grows_refl grows_trans); eauto.
    + eapply (visitFields_preserves grows grows_refl grows_trans); eauto.
  - (* Map *)
    destruct (getZeroBasedValueOffsets d) as [vo|e|m]; simpl in E;
      [|inversion E; subst; apply grows_refl|inversion E; subst; apply grows_refl].
    eapply grows_trans; [apply (grows_body [vo])|].
    destruct (listValues NewSlice d offs vals vo) as [child|e|m]; simpl in E;
      [|inversion E; subst; apply grows_depth|inversion E; subst; apply grows_depth].
    destruct sub as [v|]; [|discriminate].
    eapply (nested_preserves grows grows_trans grows_depth); eauto.
  - (* List *)
    destruct (getZeroBasedValueOffsets d) as [vo|e|m]; simpl in E;
      [|inversion E; subst; apply grows_refl|inversion E; subst; apply grows_refl].
    eapply grows_trans; [apply (grows_body [vo])|].
    destruct (listValues NewSlice d offs vals vo) as [child|e|m]; simpl in E;
      [|inversion E; subst; apply grows_depth|inversion E; subst; apply grows_depth].
    destruct sub as [v|]; [|discriminate].
    eapply (nested_preserves grows grows_trans grows_depth); eauto.
  - (* FixedSizeList *)
    destruct (NewSlice vals _ _) as [child|];
      [|inversion E; subst; apply grows_depth].
    destruct sub as [v|]; [|discriminate].
    eapply (nested_preserves grows grows_trans grows_depth); eauto.
Qed.

Lemma visit_validity arr s r s' bm :
  common arr = true ->
  0 < depth s.1 ->
  allow64b s.1 = true \/ Len (data arr) <= Int.MaxInt32 ->
  validityBitmap (data arr) = Ok bm ->
  visit NewSlice arr s = (r, s') ->
  exists rest, body s'.2 = body s.2 ++ bm :: rest.
Proof.
  intros Hc Hd Hg Hv E. pose proof (visit_visitN NewSlice arr s) as Ev. rewrite E in Ev.
  destruct (Z.to_nat (depth s.1)) as [|n]; cbn [visitN] in Ev;
    eapply visitWith_validity; eauto.
  - discriminate.
  - intros v Hs. inversion Hs; subst. intros a x y z. apply visitN_grows.
Qed.

(** C7: an array that is not a Null array (nor an extension or
    dictionary array, visited as its storage or indices), visited with a
    positive depth budget and past the length check, gets exactly one
    validity entry [bm] appended to the body before its other buffers:
    the nil sentinel when the null count is zero; a new zeroed bitmap of
    the padded length when every value is null; otherwise, for the source
    bitmap [src], a new buffer of the padded length whose first [len]
    bits are the bits [[offset, offset + len)] of [src] and whose other
    bytes are zero when the offset is nonzero or [src] is longer than
    the padded length, and [src] itself if not. *)
Theorem validity_bitmap arr s r s' vb :
  common arr = true ->
  0 < depth s.1 ->
  allow64b s.1 = true \/ Len (data arr) <= Int.MaxInt32 ->
  Buffers (data arr) !! 0%nat = Some vb ->
  0 <= Offset (data arr) ->
  0 <= Len (data arr) ->
  (forall src, vb = Some src ->
     bitutil.BytesForBits (Offset (data arr) + Len (data arr)) <= blen src) ->
  visit NewSlice arr s = (r, s') ->
  exists bm rest,
    body s'.2 = body s.2 ++ bm :: rest
    /\ validityBitmap (data arr) = Ok bm
    /\ validitySpec (data arr) vb bm.
Proof.
  intros Hc Hd Hg Hb Ho Hl Hs Hv.
  destruct (validityBitmap_spec (data arr) vb Hb Ho Hl Hs) as (bm & E & Hspec).
  destruct (visit_validity arr s r s' bm Hc Hd Hg E Hv) as (rest & Hbody).
  exists bm, rest. done.
Qed.

End Validity.

Lemma validity_bitmap_witness :
  let d := mkData 3 1 1 [Some [22]; Some (Int32Traits.CastToBytes [7; 8; 9; 10])] in
  let s := (Example.enc0, Example.payload0) in
  validityBitmap d = Ok (Some [3; 0; 0; 0; 0; 0; 0; 0])
  /\ body (visit Example.NewSlice (FixedWidth 32 d) s).2.2
     = [Some [3; 0; 0; 0; 0; 0; 0; 0]; Some (Int32Traits.CastToBytes [8; 9; 10])]
  /\ exists bm rest,
       body (visit Example.NewSlice (FixedWidth 32 d) s).2.2 = body s.2 ++ bm :: rest
       /\ validityBitmap d = Ok bm
       /\ validitySpec d (Some [22]) bm.
Proof.
  intros d s. split; [reflexivity|]. split; [reflexivity|].
  refine (validity_bitmap Example.NewSlice (FixedWidth 32 d) s
            (visit Example.NewSlice (FixedWidth 32 d) s).1
            (visit Example.NewSlice (FixedWidth 32 d) s).2 (Some [22]) _ _ _ _ _ _ _ _).
  - reflexivity.
  - reflexivity.
  - left. reflexivity.
  - reflexivity.
  - vm_compute. discriminate.
  - vm_compute. discriminate.
  - intros src E. inversion E; subst. vm_compute. discriminate.
  - vm_compute. reflexivity.
Defined.

(** * Further properties *)

(** ** Nested dictionaries *)

Lemma ArrayData_rect' (P : ArrayData -> Prop)
    (step : forall p i cs, Forall P cs -> P (mkArrayData p i cs)) :
  forall d, P d.
Proof.
  fix IH 1. intros [p i cs]. apply step.
  induction cs as [|c cs IHcs]; constructor; [apply IH | exact IHcs].
Qed.

Lemma hasNestedDict_unfold p i cs :
  hasNestedDict (mkArrayData p i cs) = isDICTIONARY i || existsb hasNestedDict cs.
Proof.
  cbn [hasNestedDict]. destruct (isDICTIONARY i); [done|]. simpl.
  induction cs as [|c cs IH]; [done|]. cbn [existsb]. rewrite <- IH.
  by destruct (hasNestedDict c).
Qed.

Lemma isDICTIONARY_true i : isDICTIONARY i = true <-> i = DICTIONARY.
Proof. destruct i; simpl; split; intros E; done. Qed.

(** X1: [hasNestedDict] holds of a [Data] exactly when the [Data] itself
    or one below it in the tree of children has a dictionary type. *)
Theorem hasNestedDict_iff d :
  hasNestedDict d = true <-> exists d', within d' d /\ adID d' = DICTIONARY.
Proof.
  induction d as [p i cs IH] using ArrayData_rect'.
  rewrite hasNestedDict_unfold, orb_true_iff, isDICTIONARY_true, existsb_exists. split.
  - intros [->|(c & Hin & Hc)].
    + exists (mkArrayData p DICTIONARY cs). split; [constructor|done].
    + rewrite Forall_forall in IH. apply (IH c) in Hc as (d' & Hw & Hd); [|by apply list_elem_of_In].
      exists d'. split; [|done]. by eapply within_child.
  - intros (d' & Hw & Hd). inversion Hw as [|? c Hin Hc]; subst.
    + by left.
    + right. exists c. split; [done|]. rewrite Forall_forall in IH.
      apply IH; [by apply list_elem_of_In|]. eauto.
Qed.

(** ** The visitor *)

Lemma appendsTo_refl s : appendsTo s s.
Proof.
  split; [exists []; by rewrite app_nil_r|]. split; [exists []; by rewrite app_nil_r|]. done.
Qed.

Lemma appendsTo_trans a b c : appendsTo a b -> appendsTo b c -> appendsTo a c.
Proof.
  intros ((f1 & F1 & Z1) & (b1 & B1) & E1) ((f2 & F2 & Z2) & (b2 & B2) & E2).
  split; [exists (f1 ++ f2); rewrite F2, F1, app_assoc; split; [done|by apply Forall_app]|].
  split; [exists (b1 ++ b2); by rewrite B2, B1, app_assoc|].
  destruct E1 as (A1 & A2 & A3 & A4 & A5 & A6 & A7 & A8).
  destruct E2 as (C1 & C2 & C3 & C4 & C5 & C6 & C7 & C8).
  by rewrite C1, C2, C3, C4, C5, C6, C7, C8.
Qed.

Section VisitMore.

Variable NewSlice : Array -> Z -> Z -> option Array.

Lemma visit_appendsTo arr s r s' : visit NewSlice arr s = (r, s') -> appendsTo s s'.
Proof.
  apply (visit_preserves NewSlice appendsTo); unfold appendsTo.
  - apply appendsTo_refl.
  - apply appendsTo_trans.
  - intros l n x. split; [exists [mkField l n 0]; split; [done|by repeat constructor]|].
    split; [exists []; simpl; by rewrite app_nil_r|]. done.
  - intros bs x. split; [exists []; simpl; by rewrite app_nil_r|]. split; [by eexists|]. done.
  - intros k x. split; [exists []; simpl; by rewrite app_nil_r|].
    split; [exists []; simpl; by rewrite app_nil_r|]. done.
Qed.

(** X2: whatever [visit] returns, it only appends: the fields and the
    body of the state it leaves are those it was given with entries
    added at the end, the added fields have offset 0, and the buffer
    metadata, the start offset, the options of the encoder and the
    message kind, header and size of the payload are untouched; a visit
    that returns without error leaves the depth budget as it found it. *)
Theorem visit_only_appends arr s :
  appendsTo s (visit NewSlice arr s).2
  /\ ((visit NewSlice arr s).1 = Ok tt -> depth (visit NewSlice arr s).2.1 = depth s.1).
Proof.
  destruct (visit NewSlice arr s) as [r s'] eqn:E. split.
  - by eapply visit_appendsTo.
  - simpl. intros ->. by eapply visit_depth.
Qed.


(** *** The depth budget *)

Hypothesis NewSlice_height :
  forall a i j a', NewSlice a i j = Some a' -> (height a' <= height a)%nat.

Lemma height_Struct d fs : height (Struct d fs) = S (list_max (map height fs)).
Proof. cbn [height]. f_equal. induction fs as [|f fs IH]; [done|]. cbn [map list_max foldr]. by rewrite IH. Qed.

Lemma height_field d fs f : In f fs -> (height f < height (Struct d fs))%nat.
Proof.
  intros Hin. rewrite height_Struct.
  assert (list_max (map height fs) <= list_max (map height fs))%nat as Hle by lia.
  apply list_max_le in Hle. rewrite Forall_forall in Hle.
  specialize (Hle (height f)). rewrite list_elem_of_In in Hle.
  specialize (Hle (in_map height fs f Hin)). lia.
Qed.

Lemma notRec_Ok : notRec (Ok tt).
Proof. intros e. done. Qed.

Lemma notRec_Panic m : notRec (Panic m).
Proof. intros e. done. Qed.

Lemma notRec_Wrapf ctx e : notRec (Err e) -> notRec (Err (Wrapf ctx e)).
Proof. intros Hn e' E. inversion E; subst. simpl. by apply Hn. Qed.

Lemma visitFields_fits d0 v fs : 
  returns d0 v -> fits d0 v ->
  forall s r s', depth s.1 <= d0 ->
    (forall f, In f fs -> Z.of_nat (height f) < depth s.1) ->
    visitFields v fs s = Some (r, s') -> notRec r.
Proof.
  intros Hr Hf. induction fs as [|f fs IH]; simpl; intros s r s' Hd Hh E.
  - inversion E; subst. apply notRec_Ok.
  - destruct (Hr f s Hd) as (r1 & s1 & E1 & Hd1). rewrite E1 in E.
    pose proof (Hf f s r1 s1 Hd (Hh f (or_introl eq_refl)) E1) as Hn.
    destruct r1 as [[]|e|m].
    + specialize (Hd1 eq_refl). eapply IH; [| |exact E]; [lia|].
      intros g Hg. rewrite Hd1. apply Hh. by right.
    + inversion E; subst. by apply notRec_Wrapf.
    + inversion E; subst. apply notRec_Panic.
Qed.

Lemma nested_fits d0 v child s r s' :
  fits (d0 - 1) v -> depth s.1 <= d0 -> Z.of_nat (height child) < depth s.1 - 1 ->
  nested v child s = Some (r, s') -> notRec r.
Proof.
  intros Hf Hd Hh. unfold nested.
  destruct (v child (addDepth (-1) s)) as [[r1 s1]|] eqn:Ev; [|discriminate].
  assert (notRec r1) as Hn.
  { eapply (Hf child (addDepth (-1) s)); [| |exact Ev]; simpl; lia. }
  destruct r1 as [[]|e|m]; intros E; inversion E; subst.
  - apply notRec_Ok.
  - by apply notRec_Wrapf.
  - apply notRec_Panic.
Qed.

Lemma leaf_fits r0 s r s' : noErr r0 -> leaf r0 s = Some (r, s') -> notRec r.
Proof.
  intros Hn. unfold leaf. destruct r0 as [bs|e|m]; intros E; inversion E; subst.
  - apply notRec_Ok.
  - by destruct (Hn e).
  - apply notRec_Panic.
Qed.

Ltac fits_now :=
  intros E; inversion E; subst; clear E;
  first [apply notRec_Ok | apply notRec_Panic | (intros ? E'; inversion E'; subst; done)].

Lemma visitWith_fits sub d0 :
  (forall v, sub = Some v -> returns (d0 - 1) v /\ fits (d0 - 1) v) ->
  fits d0 (visitWith NewSlice sub).
Proof using NewSlice_height.
  intros Hsub arr.
  induction arr as [d|d|bw d|d|d|d fs|d offs vals IH|d offs vals IH|k d vals IH|d idx IH|d st IH|d];
    intros s r s' Hd Hh; simpl;
    (replace (depth s.1 <=? 0) with false by (symmetry; apply Z.leb_gt; lia));
    (destruct (negb (allow64b s.1) && _); [fits_now|]).
  all: try match goal with
           | |- context [validityBitmap ?x] =>
               pose proof (validityBitmap_noErr x) as Hvb;
               destruct (validityBitmap x) as [bm|e|m]; simpl;
               [|by destruct (Hvb e)|fits_now]
           end.
  all: try fits_now.
  - intros E. eapply leaf_fits; [apply visitBoolean_noErr|exact E].
  - intros E. eapply leaf_fits; [apply visitFixedWidth_noErr|exact E].
  - intros E. eapply leaf_fits; [apply visitBinary_noErr|exact E].
  - intros E. eapply leaf_fits; [apply visitBinary_noErr|exact E].
  - (* Struct *)
    destruct sub as [v|]; [|discriminate].
    destruct (Hsub v eq_refl) as [Hr Hf].
    destruct (visitFields v fs _) as [[r1 s1]|] eqn:Ev; [|discriminate].
    assert (notRec r1) as Hn.
    { eapply (visitFields_fits (d0 - 1) v fs Hr Hf); [| |exact Ev]; simpl; [lia|].
      intros f Hin. pose proof (height_field d fs f Hin). lia. }
    destruct r1 as [[]|e|m]; intros E; inversion E; subst; done.
  - (* Map *)
    pose proof (getZeroBasedValueOffsets_noErr d) as Hg.
    destruct (getZeroBasedValueOffsets d) as [vo|e|m]; simpl;
      [|by destruct (Hg e)|fits_now].
    pose proof (listValues_noErr NewSlice d offs vals vo) as Hl.
    destruct (listValues NewSlice d offs vals vo) as [child|e|m] eqn:El; simpl;
      [|by destruct (Hl e)|fits_now].
    destruct sub as [v|]; [|discriminate].
    intros E. eapply (nested_fits d0); [by apply Hsub| | |exact E]; simpl; [lia|].
    assert (height child <= height vals)%nat; [|simpl in Hh; lia].
    unfold listValues in El. destruct (match vo with Some _ => _ | None => _ end) as [[a b]|?|?];
      try discriminate.
    destruct (negb _ || _); [|by inversion El].
    destruct (NewSlice vals a b) as [c|] eqn:Es; inversion El; subst. by eapply NewSlice_height.
  - (* List *)
    pose proof (getZeroBasedValueOffsets_noErr d) as Hg.
    destruct (getZeroBasedValueOffsets d) as [vo|e|m]; simpl;
      [|by destruct (Hg e)|fits_now].
    pose proof (listValues_noErr NewSlice d offs vals vo) as Hl.
    destruct (listValues NewSlice d offs vals vo) as [child|e|m] eqn:El; simpl;
      [|by destruct (Hl e)|fits_now].
    destruct sub as [v|]; [|discriminate].
    intros E. eapply (nested_fits d0); [by apply Hsub| | |exact E]; simpl; [lia|].
    assert (height child <= height vals)%nat; [|simpl in Hh; lia].
    unfold listValues in El. destruct (match vo with Some _ => _ | None => _ end) as [[a b]|?|?];
      try discriminate.
    destruct (negb _ || _); [|by inversion El].
    destruct (NewSlice vals a b) as [c|] eqn:Es; inversion El; subst. by eapply NewSlice_height.
  - (* FixedSizeList *)
    destruct (NewSlice vals _ _) as [child|] eqn:Es; [|fits_now].
    destruct sub as [v|]; [|discriminate].
    intros E. eapply (nested_fits d0); [by apply Hsub| | |exact E]; simpl; [lia|].
    apply NewSlice_height in Es. simpl in Hh. lia.
  - (* Dictionary *)
    intros E. exact (IH _ _ _ Hd Hh E).
  - (* Extension *)
    intros E.
    destruct (visitWith NewSlice sub st s) as [[[[]|e|m] s1]|] eqn:Ev;
      inversion E; subst; clear E; pose proof (IH _ _ _ Hd Hh Ev) as Hn;
      [apply notRec_Ok | by apply notRec_Wrapf | apply notRec_Panic].
Qed.

Lemma visitN_fits n : fits (Z.of_nat n) (visitN NewSlice n).
Proof using NewSlice_height.
  induction n as [|n IH]; cbn [visitN]; apply visitWith_fits; intros v Hv;
    [discriminate|]. inversion Hv; subst.
  replace (Z.of_nat (S n) - 1) with (Z.of_nat n) by lia.
  split; [apply visitN_returns|exact IH].
Qed.

(** X3: when [array.NewSlice] does not add nesting, an array with fewer
    levels of nested containers than the depth budget of the encoder is
    never refused with the recursion error: the default budget of 64
    carries 63 levels of struct, list, map and fixed-size list. *)
Theorem depth_budget_suffices arr s :
  Z.of_nat (height arr) < depth s.1 -> notRec (visit NewSlice arr s).1.
Proof using NewSlice_height.
  intros Hh. pose proof (visit_visitN NewSlice arr s) as Ev.
  destruct (visit NewSlice arr s) as [r s'] eqn:Er. simpl.
  eapply (visitN_fits (Z.to_nat (depth s.1)) arr s); [lia| |exact Ev].
  lia.
Qed.


End VisitMore.

Section VisitShape.

Variable NewSlice : Array -> Z -> Z -> option Array.

(** X4: past the depth and length checks, a dictionary array is visited
    as its indices, with the same result and the same state, and an
    extension array as its storage, an error of the storage coming back
    wrapped: neither contributes a field or a buffer of its own. *)
Theorem visit_through_wrappers d inner s :
  0 < depth s.1 ->
  allow64b s.1 = true \/ Len d <= Int.MaxInt32 ->
  visit NewSlice (Dictionary d inner) s = visit NewSlice inner s
  /\ visit NewSlice (Extension d inner) s
     = match visit NewSlice inner s with
       | (Err e, s') => (Err (Wrapf "failed visiting storage of for array" e), s')
       | r => r
       end.
Proof.
  intros Hd Hl.
  assert (negb (allow64b s.1) && (Len d >? Int.MaxInt32) = false) as Hb.
  { destruct Hl as [->|Hl]; [done|]. apply andb_false_iff. right.
    rewrite Z.gtb_ltb. apply Z.ltb_ge. lia. }
  assert ((depth s.1 <=? 0) = false) as Hz by (apply Z.leb_gt; lia).
  pose proof (visit_visitN NewSlice inner s) as Hi.
  split.
  - unfold visit at 1. destruct (Z.to_nat (depth s.1)) as [|n];
      cbn [visitN visitWith data] in *; by rewrite Hz, Hb, Hi.
  - unfold visit at 1. destruct (Z.to_nat (depth s.1)) as [|n];
      cbn [visitN visitWith data] in *; rewrite Hz, Hb, Hi;
      by destruct (visit NewSlice inner s) as [[[]|e|m] s1].
Qed.

(** X5: a visit of an array without children that returns without error
    appends exactly one field, with the length and the null count of the
    array and offset 0, and a number of buffers fixed by the kind of the
    array: none for a Null array, two for a Boolean or fixed-width array
    (validity, values), three for a Binary or String array (validity,
    offsets, values). *)
Theorem leaf_fields_and_buffers arr k s s' :
  leafBuffers arr = Some k ->
  visit NewSlice arr s = (Ok tt, s') ->
  fields s'.1 = fields s.1 ++ [mkField (Len (data arr)) (NullN (data arr)) 0]
  /\ exists bs, body s'.2 = body s.2 ++ bs /\ length bs = k.
Proof.
  intros Hk E. pose proof (visit_visitN NewSlice arr s) as Ev. rewrite E in Ev. clear E.
  assert (forall sub, visitWith NewSlice sub arr s = Some (Ok tt, s') ->
          fields s'.1 = fields s.1 ++ [mkField (Len (data arr)) (NullN (data arr)) 0]
          /\ exists bs, body s'.2 = body s.2 ++ bs /\ length bs = k) as Hall.
  { clear Ev. intros sub.
    destruct arr as [d|d|bw d|d|d|d fs|d offs vals|d offs vals|n d vals|d idx|d st|d];
      try discriminate; inversion Hk; subst; clear Hk; cbn [visitWith data isNull];
      (destruct (depth s.1 <=? 0); [discriminate|]);
      (destruct (negb (allow64b s.1) && _); [discriminate|]).
    - intros E; inversion E; subst. simpl. split; [done|]. exists []. by rewrite app_nil_r.
    - destruct (validityBitmap d) as [bm|e|m]; try discriminate.
      unfold leaf. destruct (visitBoolean d) as [bs|e|m] eqn:Eb; try discriminate.
      intros E; inversion E; subst. simpl. split; [done|]. exists (bm :: bs).
      split; [by rewrite <- app_assoc|].
      unfold visitBoolean in Eb. destruct (negb _) in Eb; [|by inversion Eb].
      destruct (Buffers d !! 1%nat); [|discriminate].
      destruct (newTruncatedBitmap _ _ _); inversion Eb; subst. done.
    - destruct (validityBitmap d) as [bm|e|m]; try discriminate.
      unfold leaf. destruct (visitFixedWidth bw d) as [bs|e|m] eqn:Eb; try discriminate.
      intros E; inversion E; subst. simpl. split; [done|]. exists (bm :: bs).
      split; [by rewrite <- app_assoc|].
      unfold visitFixedWidth in Eb. destruct (Buffers d !! 1%nat); [|discriminate].
      destruct (needTruncate _ _ _); [|by inversion Eb].
      destruct (slice _ _ _); inversion Eb; subst. done.
    - destruct (validityBitmap d) as [bm|e|m]; try discriminate.
      unfold leaf. destruct (visitBinary d) as [bs|e|m] eqn:Eb; try discriminate.
      intros E; inversion E; subst. simpl. split; [done|]. exists (bm :: bs).
      split; [by rewrite <- app_assoc|].
      unfold visitBinary in Eb. destruct (getZeroBasedValueOffsets d); try discriminate.
      destruct (Buffers d !! 2%nat); [|discriminate].
      destruct (match a with Some _ => _ | None => _ end); try discriminate.
      destruct (needTruncate _ _ _); [|by inversion Eb].
      destruct (ValueOffset0 d); try discriminate.
      destruct (slice _ _ _); inversion Eb; subst. done.
    - destruct (validityBitmap d) as [bm|e|m]; try discriminate.
      unfold leaf. destruct (visitBinary d) as [bs|e|m] eqn:Eb; try discriminate.
      intros E; inversion E; subst. simpl. split; [done|]. exists (bm :: bs).
      split; [by rewrite <- app_assoc|].
      unfold visitBinary in Eb. destruct (getZeroBasedValueOffsets d); try discriminate.
      destruct (Buffers d !! 2%nat); [|discriminate].
      destruct (match a with Some _ => _ | None => _ end); try discriminate.
      destruct (needTruncate _ _ _); [|by inversion Eb].
      destruct (ValueOffset0 d); try discriminate.
      destruct (slice _ _ _); inversion Eb; subst. done. }
  destruct (Z.to_nat (depth s.1)); cbn [visitN] in Ev; eapply Hall; exact Ev.
Qed.


(** *** The recursion of [visit] *)

Lemma visitFields_ok_columns n fs s s' :
  n = Z.to_nat (depth s.1) ->
  visitFields (visitN NewSlice n) fs s = Some (Ok tt, s') ->
  visitColumns NewSlice fs s = (Ok tt, s').
Proof.
  revert s. induction fs as [|f fs IH]; simpl; intros s Hn.
  - by intros E; inversion E.
  - pose proof (visit_visitN NewSlice f s) as Hv. rewrite <- Hn in Hv. rewrite Hv.
    destruct (visit NewSlice f s) as [[[]|e|m] s1] eqn:Ev; try discriminate.
    intros E. apply IH; [|done]. by rewrite (visit_depth _ _ _ _ Ev).
Qed.

Lemma nested_ok_visit n child s s' :
  S n = Z.to_nat (depth s.1) ->
  nested (visitN NewSlice n) child s = Some (Ok tt, s') ->
  exists s1, visit NewSlice child (addDepth (-1) s) = (Ok tt, s1) /\ s' = addDepth 1 s1.
Proof.
  intros Hn. unfold nested.
  pose proof (visit_visitN NewSlice child (addDepth (-1) s)) as Hv.
  replace (Z.to_nat (depth (addDepth (-1) s).1)) with n in Hv by (simpl; lia).
  rewrite Hv. destruct (visit NewSlice child _) as [[[]|e|m] s1]; try discriminate.
  intros E; inversion E; subst. eauto.
Qed.

(** X6: a visit of a container that returns without error is the
    container's own field and buffers followed by the visits of its
    children, one level down the depth budget, which is restored at the
    end: a struct appends its validity bitmap and visits its fields in
    order; a list or map appends its validity bitmap and its offsets and
    visits the values [listValues] selects; a fixed-size list appends its
    validity bitmap and visits the slice
    [[offset * n, (offset + len) * n)] of its values. *)
Theorem container_then_children s s' :
  let own d := appendField (mkField (Len d) (NullN d) 0) s in
  (forall d fs,
     visit NewSlice (Struct d fs) s = (Ok tt, s') ->
     exists bm s1,
       validityBitmap d = Ok bm
       /\ visitColumns NewSlice fs (addDepth (-1) (appendBody bm (own d))) = (Ok tt, s1)
       /\ s' = addDepth 1 s1)
  /\ (forall d offs vals,
        visit NewSlice (List d offs vals) s = (Ok tt, s')
        \/ visit NewSlice (Map d offs vals) s = (Ok tt, s') ->
        exists bm vo child s1,
          validityBitmap d = Ok bm
          /\ getZeroBasedValueOffsets d = Ok vo
          /\ listValues NewSlice d offs vals vo = Ok child
          /\ visit NewSlice child (addDepth (-1) (appendBody vo (appendBody bm (own d))))
             = (Ok tt, s1)
          /\ s' = addDepth 1 s1)
  /\ (forall k d vals,
        visit NewSlice (FixedSizeList k d vals) s = (Ok tt, s') ->
        exists bm child s1,
          validityBitmap d = Ok bm
          /\ NewSlice vals (Int.i64 (Offset d * k)) (Int.i64 (Int.i64 (Offset d + Len d) * k))
             = Some child
          /\ visit NewSlice child (addDepth (-1) (appendBody bm (own d))) = (Ok tt, s1)
          /\ s' = addDepth 1 s1).
Proof.
  intros own.
  assert (forall arr, visit NewSlice arr s = (Ok tt, s') ->
            exists n, S n = Z.to_nat (depth s.1)
              /\ visitWith NewSlice (Some (visitN NewSlice n)) arr s = Some (Ok tt, s')) as Hfuel.
  { intros arr E. pose proof (visit_visitN NewSlice arr s) as Ev. rewrite E in Ev.
    destruct (Z.to_nat (depth s.1)) as [|n] eqn:En; cbn [visitN] in Ev; [|eauto].
    exfalso. destruct arr; simpl in Ev;
      (replace (depth s.1 <=? 0) with true in Ev by (symmetry; apply Z.leb_le; lia));
      discriminate. }
  assert (forall n, S n = Z.to_nat (depth s.1) -> (depth s.1 <=? 0) = false) as Hpos.
  { intros n Hn. apply Z.leb_gt. lia. }
  split; [|split].
  - intros d fs E. destruct (Hfuel _ E) as (n & Hn & Ev). cbn [visitWith data isNull] in Ev.
    rewrite (Hpos n Hn) in Ev. destruct (negb _ && _); [discriminate|].
    destruct (validityBitmap d) as [bm|e|m]; try discriminate.
    destruct (visitFields _ fs _) as [[[[]|e|m] s1]|] eqn:Ef; try discriminate.
    inversion Ev; subst. exists bm, s1. split; [done|]. split; [|done].
    eapply visitFields_ok_columns; [|exact Ef]. simpl. lia.
  - assert (forall d offs vals,
              visitWith NewSlice (Some (visitN NewSlice (Z.to_nat (depth s.1) - 1))) 
                (List d offs vals) s = Some (Ok tt, s') ->
              (0 < Z.to_nat (depth s.1))%nat ->
              exists bm vo child s1,
                validityBitmap d = Ok bm
                /\ getZeroBasedValueOffsets d = Ok vo
                /\ listValues NewSlice d offs vals vo = Ok child
                /\ visit NewSlice child (addDepth (-1) (appendBody vo (appendBody bm (own d))))
                   = (Ok tt, s1)
                /\ s' = addDepth 1 s1) as HL.
    { intros d offs vals Ev Hn. cbn [visitWith data isNull] in Ev.
      replace (depth s.1 <=? 0) with false in Ev by (symmetry; apply Z.leb_gt; lia).
      destruct (negb _ && _); [discriminate|].
      destruct (validityBitmap d) as [bm|e|m]; try discriminate.
      destruct (getZeroBasedValueOffsets d) as [vo|e|m]; try discriminate.
      destruct (listValues NewSlice d offs vals vo) as [child|e|m] eqn:El; try discriminate.
      apply nested_ok_visit in Ev as (s1 & E1 & ->); [|simpl; lia].
      exists bm, vo, child, s1. done. }
    intros d offs vals [E|E]; destruct (Hfuel _ E) as (n & Hn & Ev).
    + apply HL; [|lia]. by replace (Z.to_nat (depth s.1) - 1)%nat with n by lia.
    + apply HL; [|lia]. by replace (Z.to_nat (depth s.1) - 1)%nat with n by lia.
  - intros k d vals E. destruct (Hfuel _ E) as (n & Hn & Ev).
    cbn [visitWith data isNull] in Ev.
    rewrite (Hpos n Hn) in Ev. destruct (negb _ && _); [discriminate|].
    destruct (validityBitmap d) as [bm|e|m]; try discriminate.
    destruct (NewSlice vals _ _) as [child|] eqn:Es; try discriminate.
    apply nested_ok_visit in Ev as (s1 & E1 & ->); [|simpl; lia].
    exists bm, child, s1. done.
Qed.

End VisitShape.

(** ** The offsets buffers in the body *)

Lemma getZeroBasedValueOffsets_offsetsSpec d src :
  Buffers d !! 1%nat = Some (Some src) ->
  blen src mod 4 = 0 ->
  0 <= Offset d ->
  0 <= Len d ->
  (blen src = 0 /\ Offset d = 0)
  \/ Offset d + Len d + 1 <= Z.of_nat (length (Int32Traits.CastFromBytes src)) ->
  (forall i, 0 <= i <= Len d ->
     Int.in_i32 (nth (Z.to_nat (Offset d + i)) (Int32Traits.CastFromBytes src) 0
                 - nth (Z.to_nat (Offset d)) (Int32Traits.CastFromBytes src) 0)) ->
  exists vo, getZeroBasedValueOffsets d = Ok vo /\ offsetsSpec d src vo.
Proof.
  intros Hb Hm Ho Hl [[He H0]|Hn] Hr.
  - exists None. unfold getZeroBasedValueOffsets, offsetsSpec. rewrite Hb, He, H0. simpl.
    unfold Int32Traits.BytesRequired.
    replace (4 * (Len d + 1) <? 0) with false by (symmetry; apply Z.ltb_ge; lia). done.
  - set (offs := Int32Traits.CastFromBytes src) in *.
    assert (blen src = 4 * Z.of_nat (length offs)) as Hlen.
    { unfold offs. rewrite length_CastFromBytes.
      pose proof (Z.div_mod (blen src) 4 ltac:(lia)) as Hdm. rewrite Hm, Z.add_0_r in Hdm.
      exact Hdm. }
    unfold offsetsSpec. fold offs.
    replace (blen src =? 0) with false by (symmetry; apply Z.eqb_neq; lia).
    rewrite (getZeroBasedValueOffsets_spec d src Hb Ho Hl Hn). fold offs.
    replace (4 * (Len d + 1) <? blen src) with (Len d + 1 <? Z.of_nat (length offs)).
    2:{ rewrite Hlen. destruct (Z.ltb_spec (Len d + 1) (Z.of_nat (length offs)));
          symmetry; [apply Z.ltb_lt|apply Z.ltb_ge]; lia. }
    destruct (negb (Offset d =? 0) || (Len d + 1 <? Z.of_nat (length offs))); [|eauto].
    eexists. split; [reflexivity|]. eexists. split; [reflexivity|].
    rewrite CastFromBytes_CastToBytes, map_map.
    set (window := take (Z.to_nat (Len d + 1)) (drop (Z.to_nat (Offset d)) offs)).
    set (o0 := nth (Z.to_nat (Offset d)) offs 0).
    assert (length window = Z.to_nat (Len d + 1)) as Hw.
    { unfold window. rewrite length_take, length_drop. lia. }
    assert (forall i, 0 <= i <= Len d ->
              map (fun x => Int.i32 (Int.i32 (x - o0))) window !! Z.to_nat i
              = Some (nth (Z.to_nat (Offset d + i)) offs 0 - o0)) as Hi.
    { intros i Hi. rewrite list_lookup_fmap. unfold window.
      rewrite lookup_take_lt, lookup_drop by lia.
      replace (Z.to_nat (Offset d) + Z.to_nat i)%nat with (Z.to_nat (Offset d + i)) by lia.
      destruct (nth_lookup_or_length offs (Z.to_nat (Offset d + i)) 0) as [->|Hge]; [|lia].
      simpl. rewrite i32_idem, i32_id by (by apply Hr). done. }
    split; [by rewrite length_map; lia|]. split; [exact Hi|].
    specialize (Hi 0 ltac:(lia)). rewrite Z.add_0_r, Z.sub_diag in Hi. exact Hi.
Qed.

Section OffsetsInBody.

Variable NewSlice : Array -> Z -> Z -> option Array.

Lemma visit_ok_fuel arr s s' :
  visit NewSlice arr s = (Ok tt, s') ->
  exists n, S n = Z.to_nat (depth s.1)
    /\ visitWith NewSlice (Some (visitN NewSlice n)) arr s = Some (Ok tt, s').
Proof.
  intros E. pose proof (visit_visitN NewSlice arr s) as Ev. rewrite E in Ev.
  destruct (Z.to_nat (depth s.1)) as [|n] eqn:En; cbn [visitN] in Ev; [|eauto].
  exfalso. destruct arr; simpl in Ev;
    (replace (depth s.1 <=? 0) with true in Ev by (symmetry; apply Z.leb_le; lia));
    discriminate.
Qed.

(** The offsets buffer of a variable-width array is the body entry that
    follows its validity bitmap. *)
Lemma visit_offsets_in_body arr s s' :
  variableWidth arr = true ->
  visit NewSlice arr s = (Ok tt, s') ->
  exists bm vo rest,
    validityBitmap (data arr) = Ok bm
    /\ getZeroBasedValueOffsets (data arr) = Ok vo
    /\ body s'.2 = body s.2 ++ bm :: vo :: rest.
Proof.
  intros Hv E. destruct (visit_ok_fuel _ _ _ E) as (n & Hn & Ev). clear E.
  assert ((depth s.1 <=? 0) = false) as Hz by (apply Z.leb_gt; lia).
  assert (forall d, visitWith NewSlice (Some (visitN NewSlice n)) (Binary d) s = Some (Ok tt, s') ->
            exists bm vo rest,
              validityBitmap d = Ok bm /\ getZeroBasedValueOffsets d = Ok vo
              /\ body s'.2 = body s.2 ++ bm :: vo :: rest) as HB.
  { intros d Ed. cbn [visitWith data isNull] in Ed. rewrite Hz in Ed.
    destruct (negb _ && _); [discriminate|].
    destruct (validityBitmap d) as [bm|e|m]; try discriminate.
    unfold leaf in Ed. destruct (visitBinary d) as [bs|e|m] eqn:Eb; try discriminate.
    inversion Ed; subst; clear Ed. unfold visitBinary in Eb.
    destruct (getZeroBasedValueOffsets d) as [vo|e|m]; try discriminate.
    exists bm, vo.
    assert (exists v, bs = [vo; v]) as (v & ->).
    { destruct (Buffers d !! 2%nat) as [values|]; [|discriminate].
      destruct (match vo with Some _ => _ | None => _ end); try discriminate.
      destruct (needTruncate _ _ _); [|inversion Eb; eauto].
      destruct (ValueOffset0 d); try discriminate.
      destruct (slice _ _ _); inversion Eb; eauto. }
    exists [v]. repeat split; try done. simpl. by rewrite <- app_assoc. }
  assert (forall d offs vals,
            visitWith NewSlice (Some (visitN NewSlice n)) (List d offs vals) s = Some (Ok tt, s') ->
            exists bm vo rest,
              validityBitmap d = Ok bm /\ getZeroBasedValueOffsets d = Ok vo
              /\ body s'.2 = body s.2 ++ bm :: vo :: rest) as HL.
  { intros d offs vals Ed. cbn [visitWith data isNull] in Ed. rewrite Hz in Ed.
    destruct (negb _ && _); [discriminate|].
    destruct (validityBitmap d) as [bm|e|m]; try discriminate.
    destruct (getZeroBasedValueOffsets d) as [vo|e|m]; try discriminate.
    destruct (listValues NewSlice d offs vals vo) as [child|e|m]; try discriminate.
    apply nested_ok_visit in Ed as (s1 & E1 & ->); [|simpl; lia].
    destruct (visit_appendsTo _ _ _ _ _ E1) as (_ & (bs & Hbs) & _). simpl in *.
    exists bm, vo, bs. repeat split; try done. rewrite Hbs, <- !app_assoc. done. }
  destruct arr as [d|d|bw d|d|d|d fs|d offs vals|d offs vals|k d vals|d idx|d st|d];
    try discriminate; simpl data.
  - by apply HB.
  - by apply HB.
  - by apply (HL d offs vals).
  - by apply (HL d offs vals).
Qed.

(** C6 (as amended): for a variable-width array (Binary, String, List or
    Map) whose offsets buffer [src] is an int32 buffer that holds the
    entries the array refers to, with differences that fit an int32, or
    is empty: the offsets entry [vo] that [visit] appends to the body,
    right after the validity bitmap, is a new buffer of [len + 1] int32
    entries [src[offset + i] - src[offset]], the first one 0, when the
    logical offset is nonzero or [src] holds more than [len + 1]
    entries; it is [src] itself otherwise, except that an empty [src] is
    emitted as no buffer.  And every field-metadata triple that [visit]
    appends has offset 0. *)
Theorem offsets_are_rebased arr src s r s' :
  variableWidth arr = true ->
  Buffers (data arr) !! 1%nat = Some (Some src) ->
  blen src mod 4 = 0 ->
  0 <= Offset (data arr) ->
  0 <= Len (data arr) ->
  (blen src = 0 /\ Offset (data arr) = 0)
  \/ Offset (data arr) + Len (data arr) + 1
     <= Z.of_nat (length (Int32Traits.CastFromBytes src)) ->
  (forall i, 0 <= i <= Len (data arr) ->
     Int.in_i32 (nth (Z.to_nat (Offset (data arr) + i)) (Int32Traits.CastFromBytes src) 0
                 - nth (Z.to_nat (Offset (data arr))) (Int32Traits.CastFromBytes src) 0)) ->
  visit NewSlice arr s = (r, s') ->
  exists vo,
    getZeroBasedValueOffsets (data arr) = Ok vo
    /\ offsetsSpec (data arr) src vo
    /\ (r = Ok tt ->
        exists bm rest,
          validityBitmap (data arr) = Ok bm
          /\ body s'.2 = body s.2 ++ bm :: vo :: rest)
    /\ exists extra, fields s'.1 = fields s.1 ++ extra /\ Forall (fun f => fOffset f = 0) extra.
Proof.
  intros Hv Hb Hm Ho Hl Hn Hr E.
  destruct (getZeroBasedValueOffsets_offsetsSpec _ _ Hb Hm Ho Hl Hn Hr) as (vo & Eg & Hs).
  exists vo. split; [done|]. split; [done|]. split.
  - intros ->. destruct (visit_offsets_in_body _ _ _ Hv E) as (bm & vo' & rest & Eb & Eg' & Hbody).
    rewrite Eg in Eg'. inversion Eg'; subst. eauto.
  - exact (visit_zeroOffsets _ _ _ _ _ E).
Qed.

End OffsetsInBody.

Lemma offsets_are_rebased_witness :
  let src := Int32Traits.CastToBytes [0; 1; 3; 6] in
  let arr := Utf8 Cases.slicedStrings in
  let out := visit Example.NewSlice arr Cases.s0 in
  out.1 = Ok tt
  /\ body out.2.2 = [None; Some (Int32Traits.CastToBytes [0; 2; 5]); Some [98; 99; 100; 101; 102]]
  /\ exists vo,
       getZeroBasedValueOffsets (data arr) = Ok vo
       /\ offsetsSpec (data arr) src vo
       /\ (out.1 = Ok tt ->
           exists bm rest,
             validityBitmap (data arr) = Ok bm
             /\ body out.2.2 = body Cases.s0.2 ++ bm :: vo :: rest)
       /\ exists extra,
            fields out.2.1 = fields Cases.s0.1 ++ extra
            /\ Forall (fun f => fOffset f = 0) extra.
Proof.
  intros src arr out. split; [vm_compute; reflexivity|]. split; [vm_compute; reflexivity|].
  refine (offsets_are_rebased Example.NewSlice arr src Cases.s0 out.1 out.2 _ _ _ _ _ _ _ _).
  - reflexivity.
  - reflexivity.
  - reflexivity.
  - vm_compute. discriminate.
  - vm_compute. discriminate.
  - right. vm_compute. discriminate.
  - intros i Hi. assert (i = 0 \/ i = 1 \/ i = 2) as [->|[->| ->]] by (simpl in Hi; lia);
      vm_compute; split; first [discriminate|reflexivity].
  - vm_compute. reflexivity.
Defined.

(** An empty String array at offset 0: its offsets buffer holds no
    entry, so not more than [len + 1], yet the body gets no buffer in
    its place. *)
Lemma offsets_counterexample :
  let src : Buffer := [] in
  let d := Cases.emptyStrings in
  let out := visit Example.NewSlice (Utf8 d) Cases.s0 in
  Buffers d !! 1%nat = Some (Some src)
  /\ Offset d = 0
  /\ (Len d + 1 <? Z.of_nat (length (Int32Traits.CastFromBytes src))) = false
  /\ getZeroBasedValueOffsets d = Ok None
  /\ out.1 = Ok tt
  /\ body out.2.2 = [None; None; Some []]
  /\ body out.2.2 !! 1%nat <> Some (Some src).
Proof. vm_compute. repeat split; discriminate. Qed.

(** ** The values buffers of the leaves *)

Lemma paddedLength_CeilByte64 n : paddedLength n kArrowAlignment = bitutil.CeilByte64 n.
Proof. unfold paddedLength, kArrowAlignment, bitutil.CeilByte64. f_equal. f_equal. lia. Qed.

(** X7: for a fixed-width array whose values buffer holds the elements
    [[offset, offset + len)], [visit] emits a values buffer that starts
    with exactly the bytes of those elements and has at most the padding
    to the next multiple of 8 after them; the source buffer itself is
    emitted when the offset is 0 and the buffer is no longer than that. *)
Theorem fixed_width_values bw d vals :
  Buffers d !! 1%nat = Some (Some vals) ->
  0 <= bw -> 0 <= Offset d -> 0 <= Len d ->
  (Offset d + Len d) * (bw / 8) <= blen vals ->
  blen vals < 2 ^ 63 ->
  let n := Len d * (bw / 8) in
  exists out,
    visitFixedWidth bw d = Ok [Some out]
    /\ take (Z.to_nat n) out = take (Z.to_nat n) (drop (Z.to_nat (Offset d * (bw / 8))) vals)
    /\ n <= blen out <= bitutil.CeilByte64 n
    /\ (Offset d = 0 -> blen vals <= bitutil.CeilByte64 n -> out = vals).
Proof.
  intros Hb Hw Ho Hl Hfit Hlt n.
  assert (0 <= bw / 8) as Htw by (apply Z.div_pos; lia).
  assert (Z.quot bw 8 = bw / 8) as Hq by (apply Z.quot_div_nonneg; lia).
  assert (0 <= n) as Hn by (unfold n; nia).
  assert (0 <= Offset d * (bw / 8)) as Hoff by nia.
  assert (Offset d * (bw / 8) + n <= blen vals) as Hfit' by (unfold n; nia).
  pose proof (CeilByte64_ge n) as Hce.
  unfold visitFixedWidth. rewrite Hb, Hq. fold n. cbv zeta.
  rewrite (i64_id n) by (unfold Int.in_i64; lia).
  rewrite paddedLength_CeilByte64. unfold needTruncate.
  destruct (negb (Offset d =? 0) || (bitutil.CeilByte64 n <? blen vals)) eqn:Et.
  - rewrite (i64_id (Offset d * (bw / 8))) by (unfold Int.in_i64; lia).
    rewrite (i64_id (blen vals - _)) by (unfold Int.in_i64; lia).
    set (off := Offset d * (bw / 8)) in *.
    set (len := minI64 (bitutil.CeilByte64 n) (blen vals - off)).
    assert (n <= len <= bitutil.CeilByte64 n /\ len <= blen vals - off) as (Hl1 & Hl2).
    { unfold len, minI64. destruct (Z.ltb_spec (bitutil.CeilByte64 n) (blen vals - off)); lia. }
    unfold slice. simpl (default [] (Some vals)).
    replace ((0 <=? off) && (off <=? off + len) && (off + len <=? Z.of_nat (length vals)))
      with true.
    2:{ symmetry. rewrite !andb_true_iff, !Z.leb_le. unfold blen in *. lia. }
    replace (off + len - off) with len by lia.
    eexists. split; [reflexivity|]. split; [|split].
    + rewrite take_take. f_equal. lia.
    + unfold blen in *. rewrite length_take, length_drop. lia.
    + intros H0 Hsmall. 
      assert (off = 0) as -> by (unfold off; lia).
      simpl. apply take_ge. unfold blen in *. lia.
  - apply orb_false_iff in Et as [E1 E2]. apply negb_false_iff, Z.eqb_eq in E1.
    apply Z.ltb_ge in E2.
    eexists. split; [reflexivity|]. rewrite E1. simpl. split; [done|]. split; [lia|done].
Qed.

(** X8: an empty Boolean array emits a nil values buffer; a Boolean
    array of [len > 0] elements emits a bitmap whose bit [i] is bit
    [offset + i] of the source bitmap, for every [i < len]. *)
Theorem boolean_values d src :
  Buffers d !! 1%nat = Some (Some src) ->
  0 <= Offset d -> 0 <= Len d ->
  bitutil.BytesForBits (Offset d + Len d) <= blen src ->
  (Len d = 0 -> visitBoolean d = Ok [None])
  /\ (0 < Len d ->
      exists out,
        visitBoolean d = Ok [Some out]
        /\ bitutil.BytesForBits (Len d) <= blen out
        /\ forall i, 0 <= i < Len d ->
             bitutil.BitIsSet out i = bitutil.BitIsSet src (Offset d + i)).
Proof.
  intros Hb Ho Hl Hs. unfold visitBoolean. split.
  - intros ->. done.
  - intros Hpos. replace (Len d =? 0) with false by (symmetry; apply Z.eqb_neq; lia).
    simpl. rewrite Hb. unfold newTruncatedBitmap.
    assert (0 <= bitutil.BytesForBits (Len d)) as Hnb.
    { unfold bitutil.BytesForBits. apply Z.div_pos; lia. }
    pose proof (paddedLength_ge (bitutil.BytesForBits (Len d))) as Hp.
    destruct (negb (Offset d =? 0) || _) eqn:Et.
    + destruct (CopyBitmap_zeros src (Offset d) (Len d)
                  (paddedLength (bitutil.BytesForBits (Len d)) kArrowAlignment))
        as (out & E & H1 & H2 & H3); try done; try lia.
      rewrite E. exists out. split; [done|]. split; [lia|done].
    + apply orb_false_iff in Et as [E1 E2]. apply negb_false_iff, Z.eqb_eq in E1.
      exists src. split; [done|]. rewrite E1 in *. rewrite Z.add_0_l in Hs.
      split; [lia|]. intros i _. by rewrite Z.add_0_l.
Qed.

Lemma index_nth (l : list Z) i :
  0 <= i < Z.of_nat (length l) -> index l i = Some (nth (Z.to_nat i) l 0).
Proof.
  intros Hi. unfold index. replace (0 <=? i) with true by (symmetry; apply Z.leb_le; lia).
  destruct (lookup_lt_is_Some_2 l (Z.to_nat i)) as [x Hx]; [lia|].
  rewrite Hx. f_equal. symmetry. by eapply nth_lookup_Some.
Qed.

(** X9: for a Binary or String array whose offsets buffer holds the
    entries [[offset, offset + len]] and whose values buffer holds the
    bytes these refer to, [visit] emits an offsets buffer and, as values,
    exactly the bytes [[src[offset], src[offset + len])] of the values
    buffer, with no padding. *)
Theorem binary_values d src vals :
  Buffers d !! 1%nat = Some (Some src) ->
  Buffers d !! 2%nat = Some (Some vals) ->
  0 <= Offset d -> 0 <= Len d ->
  Offset d + Len d + 1 <= Z.of_nat (length (Int32Traits.CastFromBytes src)) ->
  let offs := Int32Traits.CastFromBytes src in
  let beg := nth (Z.to_nat (Offset d)) offs 0 in
  let fin := nth (Z.to_nat (Offset d + Len d)) offs 0 in
  0 <= beg <= fin -> fin <= blen vals ->
  exists vo,
    getZeroBasedValueOffsets d = Ok (Some vo)
    /\ visitBinary d
       = Ok [Some vo; Some (take (Z.to_nat (fin - beg)) (drop (Z.to_nat beg) vals))].
Proof.
  intros Hb1 Hb2 Ho Hl Hn offs beg fin Hbf Hfin.
  assert (exists vo, getZeroBasedValueOffsets d = Ok (Some vo)) as (vo & Hvo).
  { rewrite (getZeroBasedValueOffsets_spec d src Hb1 Ho Hl Hn).
    destruct (negb _ || _); eauto. }
  exists vo. split; [done|]. unfold visitBinary. rewrite Hvo, Hb2.
  unfold ValueBytesLen, ValueOffset0. rewrite Hb1. fold offs.
  rewrite (index_nth offs (Offset d)) by (fold offs in Hn; lia).
  rewrite (index_nth offs (Offset d + Len d)) by (fold offs in Hn; lia).
  fold beg fin. unfold needTruncate.
  destruct (negb (Offset d =? 0) || (fin - beg <? blen vals)) eqn:Et.
  - pose proof (paddedLength_ge (fin - beg)) as Hp.
    replace (minI64 (paddedLength (fin - beg) kArrowAlignment) (fin - beg)) with (fin - beg).
    2:{ unfold minI64. destruct (Z.ltb_spec (paddedLength (fin - beg) kArrowAlignment) (fin - beg)); lia. }
    unfold slice. simpl (default [] (Some vals)).
    replace ((0 <=? beg) && (beg <=? beg + (fin - beg))
             && (beg + (fin - beg) <=? Z.of_nat (length vals))) with true.
    2:{ symmetry. rewrite !andb_true_iff, !Z.leb_le. unfold blen in *. lia. }
    by replace (beg + (fin - beg) - beg) with (fin - beg) by lia.
  - apply orb_false_iff in Et as [_ E2]. apply Z.ltb_ge in E2.
    assert (beg = 0 /\ fin = blen vals) as [Hb0 Hf0] by lia.
    rewrite Hb0, Hf0, Z.sub_0_r. change (Z.to_nat 0) with 0%nat. rewrite drop_0.
    unfold blen. rewrite Nat2Z.id, firstn_all. done.
Qed.

(** ** The dictionary tracker, the other branches *)

Section TrackerMore.

Context {Elem : Type} (approx : Elem -> Elem -> bool).
Variable NewSlice : Array -> Z -> Z -> option Array.
Variable getCompressor : Z -> Buffer -> result Buffer.
Variable compressParallel :
  Z -> Z -> list (option Buffer) -> result unit * list (option Buffer).
Variable newSliceData : ArrayData -> ArrayData.
Context {Mapper : Type}.
Variable CollectDictionaries : Rec -> Mapper -> result (list (Z * @DictArray Elem)).
Context {PW : Type} `{PayloadWriter PW}.

#[local] Arguments dictStep : simpl never.
#[local] Arguments emitDict : simpl never.
#[local] Arguments dictEncoder_Encode : simpl never.

Local Abbreviation step := (dictStep approx NewSlice getCompressor compressParallel newSliceData).
Local Abbreviation loop := (dictLoop approx NewSlice getCompressor compressParallel newSliceData).
Local Abbreviation emit := (emitDict NewSlice getCompressor compressParallel).
Local Abbreviation writeDicts :=
  (writeDictionaryPayloads approx NewSlice getCompressor compressParallel newSliceData
     CollectDictionaries).

(** What a successful emission of [pdict] for [id] does: one dictionary
    batch goes to the payload writer, [pdict] becomes the last written
    dictionary of [id], the previous one is released and [pdict] retained. *)
Lemma emit_ok_full id isDelta lastD pdict dict (t t' : @Tracker Elem PW) :
  emit id isDelta lastD pdict dict t = (Ok tt, t') ->
  exists sink p sink' sz fs bs c,
    pw t = Some sink /\ WritePayload p sink = (None, sink') /\ pw t' = Some sink'
    /\ pmeta p = Some (DictionaryHeader id isDelta (dLen dict) sz fs bs c)
    /\ lastWrittenDicts t' = <[id := pdict]> (lastWrittenDicts t)
    /\ refLog t' = refLog t ++ match lastD with Some l => [Release l] | None => [] end
                            ++ [Retain pdict].
Proof.
  intros E. destruct (emit_ok _ _ _ _ _ _ _ _ _ _ E)
    as (sink & p & sink' & w & H1 & H2 & H3 & H4 & H5 & (sz & fs & bs & c & H6)).
  exists sink, p, sink', sz, fs, bs, c. repeat (split; [done|]).
  unfold emitDict in E. rewrite H2 in E. unfold sinkWrite in E. rewrite H1, H3 in E.
  by inversion E.
Qed.

(** X10: a dictionary whose id has no entry in the map of last written
    dictionaries is emitted whole with [isDelta = false], in the stream
    and in the file format alike; when the emission returns without
    error one batch with the id and all rows has gone to the payload
    writer, the dictionary is the last written one of its id and has
    been retained. *)
Theorem first_dictionary_is_emitted f e id D (t : @Tracker Elem PW) :
  lastWrittenDicts t !! id = None ->
  step f e (id, D) t = (emit id false None D D (resetEncoder t), None)
  /\ (forall t', emit id false None D D (resetEncoder t) = (Ok tt, t') ->
       exists sink p sink' sz fs bs c,
         pw t = Some sink /\ WritePayload p sink = (None, sink') /\ pw t' = Some sink'
         /\ pmeta p = Some (DictionaryHeader id false (dLen D) sz fs bs c)
         /\ lastWrittenDicts t' !! id = Some D
         /\ refLog t' = refLog t ++ [Retain D]).
Proof.
  intros Hn. split.
  - unfold dictStep. cbn [lastWrittenDicts]. rewrite Hn. done.
  - intros t' E. destruct (emit_ok_full _ _ _ _ _ _ _ E)
      as (sink & p & sink' & sz & fs & bs & c & H1 & H2 & H3 & H4 & H5 & H6).
    exists sink, p, sink', sz, fs, bs, c. repeat (split; [done|]).
    split; [|done]. rewrite H5. apply lookup_insert_eq.
Qed.

(** X11: in the stream format, a changed dictionary that does not
    qualify for a delta (deltas are off, or it has a nested dictionary
    type, or it is not longer than the previous one, or its first
    elements differ from the previous one) is emitted whole with
    [isDelta = false]; when the emission returns without error the
    dictionary has replaced the previous one in the map, the previous one
    has been released and the new one retained. *)
Theorem replacement_is_emitted e id D L (t : @Tracker Elem PW) :
  lastWrittenDicts t !! id = Some L ->
  adPtr (Data_ L) <> adPtr (Data_ D) ->
  dLen L <> dLen D \/ ApproxEqual approx L D = false ->
  e = false \/ hasNestedDict (Data_ D) = true \/ dLen D <= dLen L
    \/ SliceApproxEqual approx L 0 (dLen L) D 0 (dLen L) = false ->
  step false e (id, D) t = (emit id false (Some L) D D (resetEncoder t), None)
  /\ (forall t', emit id false (Some L) D D (resetEncoder t) = (Ok tt, t') ->
       exists sink p sink' sz fs bs c,
         pw t = Some sink /\ WritePayload p sink = (None, sink') /\ pw t' = Some sink'
         /\ pmeta p = Some (DictionaryHeader id false (dLen D) sz fs bs c)
         /\ lastWrittenDicts t' !! id = Some D
         /\ refLog t' = refLog t ++ [Release L; Retain D]).
Proof.
  intros HL Hp Hne Hno. split.
  - unfold dictStep. cbn [lastWrittenDicts]. rewrite HL. unfold deltaStartOf.
    apply Z.eqb_neq in Hp. rewrite Hp.
    replace ((dLen L =? dLen D) && ApproxEqual approx L D) with false.
    2:{ symmetry. apply andb_false_iff. destruct Hne as [Hne| ->]; [left|by right].
        by apply Z.eqb_neq. }
    replace ((dLen D >? dLen L) && e && negb (hasNestedDict (Data_ D))
             && SliceApproxEqual approx L 0 (dLen L) D 0 (dLen L)) with false.
    2:{ symmetry. destruct Hno as [->|[->|[Hle| ->]]].
        - by rewrite andb_false_r.
        - by rewrite andb_false_r.
        - replace (dLen D >? dLen L) with false; [done|].
          symmetry. rewrite Z.gtb_ltb. apply Z.ltb_ge. lia.
        - by rewrite andb_false_r. }
    done.
  - intros t' E. destruct (emit_ok_full _ _ _ _ _ _ _ E)
      as (sink & p & sink' & sz & fs & bs & c & H1 & H2 & H3 & H4 & H5 & H6).
    exists sink, p, sink', sz, fs, bs, c. repeat (split; [done|]).
    split; [|done]. rewrite H5. apply lookup_insert_eq.
Qed.

(** X12: after a pass of [writeDictionaryPayloads] that returned without
    error over dictionaries of distinct ids, the map of last written
    dictionaries holds, for every dictionary of the record, a dictionary
    with the same [Data] or the same length and approximately the same
    elements; the entries of the other ids are as before the pass. *)
Theorem map_after_dictionary_pass f e batch m pairs (t0 t : @Tracker Elem PW) :
  CollectDictionaries batch m = Ok pairs ->
  NoDup pairs.*1 ->
  writeDicts batch f e m t0 = (Ok tt, t) ->
  (forall id D, In (id, D) pairs ->
     exists L, lastWrittenDicts t !! id = Some L
       /\ (adPtr (Data_ L) = adPtr (Data_ D)
           \/ (dLen L = dLen D /\ ApproxEqual approx L D = true)))
  /\ (forall id, id ∉ pairs.*1 -> lastWrittenDicts t !! id = lastWrittenDicts t0 !! id).
Proof.
  intros Hc Hnd Hw. unfold writeDictionaryPayloads in Hw. rewrite Hc in Hw.
  destruct (loop f e pairs t0) as [r1 t1] eqn:El. inversion Hw; subst. split.
  - intros id D Hin.
    pose proof (loop_settles _ _ _ _ _ f e pairs t0 t1 Hnd El) as Hall.
    rewrite Forall_forall in Hall. apply list_elem_of_In in Hin.
    destruct (Hall _ Hin) as (L & HL & Hx). exists L. done.
  - intros id Hid. rewrite lastWrittenDicts_logRef.
    by eapply loop_lookup_other.
Qed.

End TrackerMore.

(** ** Compression of the body *)

Section CompressMore.

Variable getCompressor : Z -> Buffer -> result Buffer.
Variable compressParallel :
  Z -> Z -> list (option Buffer) -> result unit * list (option Buffer).

Local Abbreviation compressOne := (compress getCompressor).
Local Abbreviation serial := (compressSerial getCompressor).
Local Abbreviation compressAll := (compressBodyBuffers getCompressor compressParallel).

Lemma compress_ok codec b b' : compressOne codec b = Ok b' -> compressed getCompressor codec b b'.
Proof.
  unfold compress, compressed. destruct b as [buf|]; [|by intros E; inversion E].
  destruct (blen buf =? 0); [by intros E; inversion E|].
  destruct (getCompressor codec buf) as [out|e|m]; intros E; try discriminate.
  injection E as <-.
  exists out. split; [done|]. split; [done|]. intros Hlt.
  rewrite take_app_length' by (symmetry; apply length_le_bytes).
  rewrite le_val_le_bytes. apply Z.mod_small. pose proof (blen_nonneg buf).
  change (256 ^ Z.of_nat 8) with (2 ^ 64). lia.
Qed.

Lemma serial_ok codec bs bs' :
  serial codec bs = (Ok tt, bs') -> Forall2 (compressed getCompressor codec) bs bs'.
Proof.
  revert bs'. induction bs as [|b bs IH]; simpl; intros bs'.
  - intros E; inversion E. constructor.
  - destruct (compressOne codec b) as [b1|e|m] eqn:Eb; try (intros E; inversion E; fail).
    destruct (serial codec bs) as [r rest] eqn:Er. intros E; inversion E; subst.
    constructor; [by apply compress_ok|by apply IH].
Qed.

Lemma serial_err codec bs e bs' :
  serial codec bs = (Err e, bs') ->
  exists pre pre' buf post,
    bs = pre ++ Some buf :: post /\ bs' = pre' ++ Some buf :: post
    /\ Forall2 (compressed getCompressor codec) pre pre'
    /\ blen buf <> 0 /\ getCompressor codec buf = Err e.
Proof.
  revert bs'. induction bs as [|b bs IH]; simpl; intros bs'.
  - intros E; inversion E.
  - destruct (compressOne codec b) as [b1|e1|m] eqn:Eb.
    + destruct (serial codec bs) as [r rest] eqn:Er. intros E; inversion E; subst.
      destruct (IH _ eq_refl) as (pre & pre' & buf & post & -> & -> & Hf & Hn & Hg).
      exists (b :: pre), (b1 :: pre'), buf, post. repeat split; try done.
      constructor; [by apply compress_ok|done].
    + intros E; inversion E; subst. unfold compress in Eb.
      destruct b as [buf|]; [|discriminate].
      destruct (blen buf =? 0) eqn:Ez; [discriminate|].
      destruct (getCompressor codec buf) as [out|e2|m] eqn:Eg; inversion Eb; subst.
      exists [], [], buf, bs. repeat split; try done. by apply Z.eqb_neq.
    + intros E; inversion E.
Qed.

(** X13: a serial pass of [compressBodyBuffers] ([compressNP <= 1]) that
    returns without error keeps the number of body buffers, leaves nil
    and empty buffers as they are, and replaces every other buffer by
    its uncompressed length as 8 little-endian bytes (which read back as
    the length) followed by the output of the compressor; message kind,
    header and size of the payload are untouched. *)
Theorem serial_compression w p p' :
  compressNP w <= 1 ->
  compressAll w p = (Ok tt, p') ->
  Forall2 (compressed getCompressor (codec w)) (body p) (body p')
  /\ length (body p') = length (body p)
  /\ msg p' = msg p /\ pmeta p' = pmeta p /\ size p' = size p.
Proof.
  intros Hnp. unfold compressBodyBuffers.
  replace (compressNP w <=? 1) with true by (symmetry; apply Z.leb_le; lia).
  destruct (serial (codec w) (body p)) as [r bs'] eqn:Es. intros E; inversion E; subst.
  pose proof (serial_ok _ _ _ Es) as Hf. simpl. split; [done|]. split; [|done].
  symmetry. by eapply Forall2_length.
Qed.

(** X14: a serial pass of [compressBodyBuffers] that returns an error
    stopped at the first buffer the compressor failed on: the buffers
    before it are compressed, that buffer and the ones after it are left
    as they were, and the error is the compressor's. *)
Theorem serial_compression_stops w p e p' :
  compressNP w <= 1 ->
  compressAll w p = (Err e, p') ->
  exists pre pre' buf post,
    body p = pre ++ Some buf :: post
    /\ body p' = pre' ++ Some buf :: post
    /\ Forall2 (compressed getCompressor (codec w)) pre pre'
    /\ blen buf <> 0
    /\ getCompressor (codec w) buf = Err e.
Proof.
  intros Hnp. unfold compressBodyBuffers.
  replace (compressNP w <=? 1) with true by (symmetry; apply Z.leb_le; lia).
  destruct (serial (codec w) (body p)) as [r bs'] eqn:Es. intros E; inversion E; subst.
  simpl. by apply serial_err.
Qed.

End CompressMore.

(** ** What the encoders leave in a payload *)

Section EncodeMore.

Variable NewSlice : Array -> Z -> Z -> option Array.
Variable getCompressor : Z -> Buffer -> result Buffer.
Variable compressParallel :
  Z -> Z -> list (option Buffer) -> result unit * list (option Buffer).

Local Abbreviation encode' := (encode NewSlice getCompressor compressParallel).
Local Abbreviation Encode' := (Encode NewSlice getCompressor compressParallel).
Local Abbreviation compressAll := (compressBodyBuffers getCompressor compressParallel).

Lemma visitColumns_appendsTo cols s r s' :
  visitColumns NewSlice cols s = (r, s') -> appendsTo s s'.
Proof.
  revert s. induction cols as [|c cols IH]; intros s; simpl.
  - intros E; inversion E; subst. apply appendsTo_refl.
  - destruct (visit NewSlice c s) as [r1 s1] eqn:Ev.
    pose proof (visit_appendsTo _ _ _ _ _ Ev) as H1.
    destruct r1 as [[]|e|m].
    + intros E. eapply appendsTo_trans; [exact H1|by apply IH].
    + intros E; inversion E; subst. done.
    + intros E; inversion E; subst. done.
Qed.

(** What [encode] leaves in the encoder and the payload when it returns
    without error. *)
Lemma encode_ok_shape rec s w p :
  encode' rec s = (Ok tt, (w, p)) ->
  (exists fs, fields w = fields s.1 ++ fs /\ Forall (fun f => fOffset f = 0) fs)
  /\ meta w = (layout (start s.1) (body p)).1
  /\ size p = Int.i64 ((layout (start s.1) (body p)).2 - start s.1)
  /\ start w = start s.1 /\ codec w = codec s.1 /\ compressNP w = compressNP s.1
  /\ allow64b w = allow64b s.1 /\ depth w = depth s.1
  /\ msg p = msg s.2 /\ pmeta p = pmeta s.2.
Proof.
  unfold encode.
  destruct (visitColumns NewSlice (Columns rec) s) as [[[]|e|m] [w0 p0]] eqn:Ev;
    try (intros E; inversion E; fail).
  pose proof (visitColumns_appendsTo _ _ _ _ Ev)
    as (Hf & _ & _ & Hst & Ha & Hco & Hnp & Hmsg & Hpm & _).
  pose proof (visitColumns_ok _ _ _ _ Ev) as [Hd _]. simpl in *.
  assert (forall q, msg (compressAll w0 q).2 = msg q /\ pmeta (compressAll w0 q).2 = pmeta q)
    as Hq.
  { intros q. unfold compressBodyBuffers. by destruct (if compressNP w0 <=? 1 then _ else _). }
  match goal with |- context [let (_, _) := ?X in _] => 
    assert (forall r q, X = (r, q) -> msg q = msg p0 /\ pmeta q = pmeta p0) as Hc;
    [|destruct X as [[[]|e|m] p1] eqn:Ec; try (intros E; inversion E; fail)]
  end.
  { intros r q. destruct (negb (codec w0 =? -1)); [|by intros E; inversion E].
    specialize (Hq p0). destruct (compressAll w0 p0) as [[[]|e|m] p1]; simpl in Hq;
      intros E; inversion E; subst; done. }
  destruct (Hc _ _ eq_refl) as [Hm1 Hp1].
  destruct (layout (start w0) (body p1)) as [ms off] eqn:El.
  destruct (negb (bitutil.IsMultipleOf8 _)); intros E; inversion E; subst; clear E. simpl.
  rewrite <- Hst, El. simpl. rewrite Hm1, Hp1. done.
Qed.

End EncodeMore.

(** ** The payloads of the tracker and the writer *)

Section WriterMore.

Context {Elem : Type} (approx : Elem -> Elem -> bool).
Variable NewSlice : Array -> Z -> Z -> option Array.
Variable getCompressor : Z -> Buffer -> result Buffer.
Variable compressParallel :
  Z -> Z -> list (option Buffer) -> result unit * list (option Buffer).
Variable newSliceData : ArrayData -> ArrayData.
Context {Mapper : Type}.
Variable ImportSchema : Schema -> Mapper -> Mapper.
Variable payloadFromSchema : Schema -> Mapper -> list Payload.
Variable CollectDictionaries : Rec -> Mapper -> result (list (Z * @DictArray Elem)).
Context {PW : Type} `{PayloadWriter PW}.

#[local] Arguments dictStep : simpl never.
#[local] Arguments emitDict : simpl never.
#[local] Arguments dictEncoder_Encode : simpl never.
#[local] Arguments encode : simpl never.
#[local] Arguments Encode : simpl never.

Local Abbreviation encode' := (encode NewSlice getCompressor compressParallel).
Local Abbreviation Encode' := (Encode NewSlice getCompressor compressParallel).
Local Abbreviation dictEncode := (dictEncoder_Encode NewSlice getCompressor compressParallel).
Local Abbreviation emit := (emitDict NewSlice getCompressor compressParallel).
Local Abbreviation step := (dictStep approx NewSlice getCompressor compressParallel newSliceData).
Local Abbreviation loop := (dictLoop approx NewSlice getCompressor compressParallel newSliceData).
Local Abbreviation write :=
  (Writer_write approx NewSlice getCompressor compressParallel newSliceData ImportSchema
     payloadFromSchema CollectDictionaries).
Local Abbreviation Write :=
  (Writer_Write approx NewSlice getCompressor compressParallel newSliceData ImportSchema
     payloadFromSchema CollectDictionaries).
Local Abbreviation Close := (@Writer_Close Elem Mapper ImportSchema payloadFromSchema PW _).
Local Abbreviation start' := (@Writer_start Elem Mapper ImportSchema payloadFromSchema PW _).

(** X15: whatever start offset the encoder comes with, a dictionary
    batch that [dictEncoder.Encode] fills without error (its body below
    2^63 bytes) has a header with the id, the delta flag and the length
    of the dictionary as number of rows, buffer metadata laid out from
    offset 0 at multiples of 8, and a size that is the sum of the padded
    buffer lengths; the encoder is left with start offset 0 and its
    fields extended by fields of offset 0. *)
Theorem dictionary_batch_header id isDelta (dict : @DictArray Elem) s w p :
  dictEncode id isDelta dict s = (Ok tt, (w, p)) ->
  bodySize (body p) < 2 ^ 63 ->
  pmeta p = Some (DictionaryHeader id isDelta (dLen dict) (bodySize (body p)) (fields w)
                    (offsetsFrom 0 (body p)) (codec s.1))
  /\ size p = bodySize (body p)
  /\ size p mod 8 = 0
  /\ Forall (fun m => bOffset m mod 8 = 0) (offsetsFrom 0 (body p))
  /\ start w = 0
  /\ msg p = msg s.2
  /\ exists fs, fields w = fields s.1 ++ fs /\ Forall (fun f => fOffset f = 0) fs.
Proof.
  unfold dictEncoder_Encode.
  match goal with |- context [encode _ _ _ ?b ?s0] =>
    destruct (encode' b s0) as [r1 [w1 p1]] eqn:Ee
  end.
  destruct r1 as [[]|e|m]; try (intros E; inversion E; fail).
  destruct (encode_ok_shape _ _ _ _ _ _ _ Ee)
    as (Hf & Hm & Hsz & Hst & Hco & _ & _ & _ & Hmsg & _).
  intros E; inversion E; subst; clear E. simpl in *. intros Hlt.
  rewrite layout_offsetsFrom in Hm, Hsz by lia. simpl in Hm, Hsz.
  rewrite Z.add_0_l, Z.sub_0_r in Hsz. pose proof (bodySize_nonneg (body p1)).
  rewrite i64_id in Hsz by (unfold Int.in_i64; lia).
  rewrite Hsz, Hm, Hco. split; [done|]. split; [done|]. split; [apply bodySize_mod8|].
  split; [|done].
  pose proof (layout_offsets_mod8 (body p1) 0 eq_refl) as Hall.
  by rewrite layout_offsetsFrom in Hall by lia.
Qed.

(** X16: a record batch that [Encode] fills without error after [reset]
    (its body below 2^63 bytes) has a header with the number of rows of
    the record, the codec of the encoder, buffer metadata laid out from
    offset 0 at multiples of 8 and only fields of offset 0, and a size
    that is the sum of the padded buffer lengths. *)
Theorem record_batch_header rec enc data w p :
  Encode' rec (reset enc, data) = (Ok tt, (w, p)) ->
  bodySize (body p) < 2 ^ 63 ->
  pmeta p = Some (RecordHeader (NumRows rec) (bodySize (body p)) (fields w)
                    (offsetsFrom 0 (body p)) (codec enc))
  /\ size p = bodySize (body p)
  /\ size p mod 8 = 0
  /\ Forall (fun m => bOffset m mod 8 = 0) (offsetsFrom 0 (body p))
  /\ Forall (fun f => fOffset f = 0) (fields w)
  /\ msg p = msg data.
Proof.
  unfold Encode.
  destruct (encode' rec (reset enc, data)) as [r1 [w1 p1]] eqn:Ee.
  destruct r1 as [[]|e|m]; try (intros E; inversion E; fail).
  destruct (encode_ok_shape _ _ _ _ _ _ _ Ee)
    as ((fs & Hf & Hz) & Hm & Hsz & Hst & Hco & _ & _ & _ & Hmsg & _).
  intros E; inversion E; subst; clear E. simpl in *. intros Hlt.
  rewrite layout_offsetsFrom in Hm, Hsz by lia. simpl in Hm, Hsz.
  rewrite Z.add_0_l, Z.sub_0_r in Hsz. pose proof (bodySize_nonneg (body p1)).
  rewrite i64_id in Hsz by (unfold Int.in_i64; lia).
  rewrite Hsz, Hm, Hco, Hf. split; [done|]. split; [done|]. split; [apply bodySize_mod8|].
  split; [|done].
  pose proof (layout_offsets_mod8 (body p1) 0 eq_refl) as Hall.
  by rewrite layout_offsetsFrom in Hall by lia.
Qed.


(** *** Close and Write at the edges *)

Lemma start_started (w : @Writer Elem Mapper PW) r w' :
  start' w = (r, w') ->
  started w' = true /\ schema w' = schema w /\ w_lastWrittenDicts w' = ∅
  /\ emitDictDeltas w' = emitDictDeltas w /\ w_codec w' = w_codec w
  /\ w_compressNP w' = w_compressNP w /\ w_refLog w' = w_refLog w.
Proof.
  unfold Writer_start. destruct (writePayloads _ _) as [r0 o]. intros E; inversion E; subst.
  done.
Qed.

(** X17: after a [Close] that returned without error, on any writer and
    any payload writer, the writer is started and has let go of its
    payload writer, and a second [Close] returns without error and
    changes nothing; a started writer that still had its payload writer
    has released every dictionary of its map once, and one that had none
    has released nothing. *)
Theorem Close_is_idempotent (w w1 : @Writer Elem Mapper PW) o :
  Close w = (Ok tt, w1, o) ->
  Close w1 = (Ok tt, w1, None)
  /\ w_pw w1 = None
  /\ started w1 = true
  /\ (started w = true ->
      w_refLog w1
      = w_refLog w ++ match w_pw w with
                      | Some _ => map (fun kv => Release kv.2)
                                    (map_to_list (w_lastWrittenDicts w))
                      | None => []
                      end).
Proof.
  unfold Writer_Close at 1.
  destruct (if negb (started w) then start' w else (Ok tt, w)) as [r0 w0] eqn:E0.
  assert (started w0 = true) as Hs0.
  { destruct (started w) eqn:Es; simpl in E0.
    - by inversion E0; subst.
    - by destruct (start_started _ _ _ E0). }
  assert (started w = true -> w0 = w) as Hw0.
  { intros Hs. rewrite Hs in E0. simpl in E0. by inversion E0. }
  destruct r0 as [[]|e0|m0]; try (intros E; inversion E; fail).
  assert (forall x : @Writer Elem Mapper PW,
            started x = true -> w_pw x = None -> Close x = (Ok tt, x, None)) as Hclosed.
  { intros x Hx Hp. unfold Writer_Close. rewrite Hx. simpl. by rewrite Hp. }
  destruct (w_pw w0) as [p|] eqn:Hp.
  - destruct (pwClose p) as [[e|] p']; intros E; inversion E; subst; clear E.
    split; [by apply Hclosed|]. split; [done|]. split; [done|].
    intros Hs. rewrite <- (Hw0 Hs), Hp. done.
  - intros E; inversion E; subst. split; [by apply Hclosed|]. split; [done|]. split; [done|].
    intros Hs. rewrite <- (Hw0 Hs), Hp. by rewrite app_nil_r.
Qed.

Lemma sinkWrite_None p : @sinkWrite PW _ p None = (Panic "nil pointer dereference", None).
Proof. done. Qed.

Lemma emit_pw_None id isDelta lastD pdict dict (t t' : @Tracker Elem PW) r :
  pw t = None -> emit id isDelta lastD pdict dict t = (r, t') ->
  pw t' = None /\ r <> Ok tt.
Proof.
  intros Hp. unfold emitDict.
  destruct (dictEncode _ _ _ _) as [[[]|e|m] [w p]]; rewrite ?Hp;
    intros E; inversion E; subst; done.
Qed.

Lemma step_pw_None f e pr (t t' : @Tracker Elem PW) r def :
  pw t = None -> step f e pr t = (r, t', def) -> pw t' = None.
Proof.
  intros Hp. destruct pr as [id D]. unfold dictStep. cbn [lastWrittenDicts pw].
  destruct (deltaStartOf approx f e (lastWrittenDicts t !! id) D) as [[ds|]|err|m].
  - destruct (ds >? 0).
    + destruct (NewSliceDict _ _ _ _ _) as [S|].
      * intros E. inversion E as [[E1 E2]]. by eapply emit_pw_None; [|exact E1].
      * intros E; inversion E; subst. done.
    + intros E. inversion E as [[E1 E2]]. by eapply emit_pw_None; [|exact E1].
  - intros E; inversion E; subst. done.
  - intros E; inversion E; subst. done.
  - intros E; inversion E; subst. done.
Qed.

Lemma loop_pw_None f e pairs (t t' : @Tracker Elem PW) r :
  pw t = None -> loop f e pairs t = (r, t') -> pw t' = None.
Proof.
  revert t t' r. induction pairs as [|pr pairs IH]; intros t t' r Hp; simpl.
  - intros E; inversion E; subst. done.
  - destruct (step f e pr t) as [[r1 t1] def] eqn:Es.
    pose proof (step_pw_None _ _ _ _ _ _ _ Hp Es) as Hp1.
    destruct r1 as [[]|err|m].
    + destruct (loop f e pairs t1) as [r2 t2] eqn:El. intros E; inversion E; subst.
      rewrite pw_logRef. by eapply IH.
    + intros E; inversion E; subst. done.
    + intros E; inversion E; subst. done.
Qed.

Lemma writePayloads_None ps r o :
  @writePayloads PW _ ps None = (r, o) -> o = None.
Proof. destruct ps; simpl; intros E; by inversion E. Qed.

Lemma write_pw_None rec (w : @Writer Elem Mapper PW) :
  w_pw w = None -> (write rec w).1 <> Ok tt /\ w_pw (write rec w).2 = None.
Proof.
  intros Hp. unfold Writer_write.
  destruct (if negb (started w) then start' w else (Ok tt, w)) as [r0 w0] eqn:E0.
  assert (w_pw w0 = None) as Hp0.
  { destruct (negb (started w)); [|by inversion E0; subst].
    unfold Writer_start in E0. rewrite Hp in E0.
    destruct (writePayloads _ None) as [r1 o] eqn:Ew. apply writePayloads_None in Ew.
    inversion E0; subst. done. }
  destruct r0 as [[]|e0|m0]; [|done|done].
  destruct (match recSchema rec with Some sc => _ | None => true end); [done|].
  destruct (writeDictionaryPayloads _ _ _ _ _ _ _ _ _ _ _) as [r1 t] eqn:Ed.
  assert (pw t = None) as Hpt.
  { unfold writeDictionaryPayloads in Ed.
    destruct (CollectDictionaries rec (mapper w0)) as [pairs|e|m];
      try (inversion Ed; subst; done).
    destruct (loop false (emitDictDeltas w0) pairs _) as [r2 t2] eqn:El.
    inversion Ed; subst. rewrite pw_logRef. by eapply loop_pw_None; [|exact El]. }
  destruct r1 as [[]|e1|m1]; [|done|done].
  destruct (Encode' rec _) as [[[]|e2|m2] [w2 p2]]; [|done|done].
  cbn [w_pw]. rewrite Hpt. done.
Qed.

(** X18: [Write] on a writer that has no payload writer (as after
    [Close]) never reports success: it returns an error, be it the
    inconsistent-schema or an encoding error or the error made of the
    recovered nil dereference, and the writer stays without payload
    writer. *)
Theorem Write_without_payload_writer rec (w : @Writer Elem Mapper PW) :
  w_pw w = None ->
  exists e, (Write rec w).1 = Some e /\ w_pw (Write rec w).2 = None.
Proof.
  intros Hp. destruct (write_pw_None rec w Hp) as [Hr Ho]. unfold Writer_Write.
  destruct (write rec w) as [[[]|e|m] w']; simpl in *; [done| |]; eauto.
Qed.

(** X19: when [start] fails on the first [Write] (or [Close]), the call
    returns the error of the payload writer as it is, yet the writer is
    marked started with an empty map: [start] is not run again, and a
    later [Close] closes the payload writer without the schema having
    been handed over in full. *)
Theorem failed_start_is_not_retried rec (w w' : @Writer Elem Mapper PW) e :
  started w = false ->
  start' w = (Err e, w') ->
  Write rec w = (Some e, w')
  /\ Close w = (Err e, w', w_pw w')
  /\ started w' = true
  /\ w_lastWrittenDicts w' = ∅
  /\ (forall p p', w_pw w' = Some p -> pwClose p = (None, p') ->
        exists w2, Close w' = (Ok tt, w2, Some p') /\ w_pw w2 = None).
Proof.
  intros Hs Hst. destruct (start_started _ _ _ Hst) as (Hs' & _ & Hm & _).
  split; [|split; [|split; [done|split; [done|]]]].
  - unfold Writer_Write, Writer_write. rewrite Hs. simpl. by rewrite Hst.
  - unfold Writer_Close. rewrite Hs. simpl. by rewrite Hst.
  - intros p p' Hp Hc. unfold Writer_Close. rewrite Hs'. simpl. rewrite Hp, Hc.
    eexists. split; [reflexivity|done].
Qed.

(** X20: [Write] of a record without schema or with a schema other than
    the writer's returns the inconsistent-schema error; a started writer
    is left exactly as it was (nothing goes to the payload writer, no
    dictionary is tracked), and a writer not yet started has run [start]
    and nothing else. *)
Theorem inconsistent_schema rec (w : @Writer Elem Mapper PW) :
  match recSchema rec with
  | None => True
  | Some sc => schemaEqual sc (schema w) = false
  end ->
  (started w = true -> Write rec w = (Some errInconsistentSchema, w))
  /\ (forall w0, started w = false -> start' w = (Ok tt, w0) ->
        Write rec w = (Some errInconsistentSchema, w0)).
Proof.
  intros Hsc. split.
  - intros Hs. unfold Writer_Write, Writer_write. rewrite Hs. simpl.
    destruct (recSchema rec) as [sc|]; [|done]. by rewrite Hsc.
  - intros w0 Hs Hst. destruct (start_started _ _ _ Hst) as (_ & Hsch & _).
    unfold Writer_Write, Writer_write. rewrite Hs. simpl. rewrite Hst.
    destruct (recSchema rec) as [sc|]; [|done]. by rewrite Hsch, Hsc.
Qed.

End WriterMore.

(** ** The order of the payloads of a Write *)

Section WriteTrace.

Context {Elem : Type} (approx : Elem -> Elem -> bool).
Variable NewSlice : Array -> Z -> Z -> option Array.
Variable getCompressor : Z -> Buffer -> result Buffer.
Variable compressParallel :
  Z -> Z -> list (option Buffer) -> result unit * list (option Buffer).
Variable newSliceData : ArrayData -> ArrayData.
Context {Mapper : Type}.
Variable ImportSchema : Schema -> Mapper -> Mapper.
Variable payloadFromSchema : Schema -> Mapper -> list Payload.
Variable CollectDictionaries : Rec -> Mapper -> result (list (Z * @DictArray Elem)).
Context {PW : Type} (H : PayloadWriter PW).

#[local] Arguments dictStep : simpl never.
#[local] Arguments emitDict : simpl never.
#[local] Arguments dictEncoder_Encode : simpl never.
#[local] Arguments encode : simpl never.
#[local] Arguments Encode : simpl never.

Local Abbreviation TPW := (PW * list Payload)%type.
Local Abbreviation dictEncode := (dictEncoder_Encode NewSlice getCompressor compressParallel).
Local Abbreviation emit :=
  (@emitDict Elem NewSlice getCompressor compressParallel TPW (traced H)).
Local Abbreviation step :=
  (@dictStep Elem approx NewSlice getCompressor compressParallel newSliceData TPW (traced H)).
Local Abbreviation loop :=
  (@dictLoop Elem approx NewSlice getCompressor compressParallel newSliceData TPW (traced H)).
Local Abbreviation write :=
  (@Writer_write Elem approx NewSlice getCompressor compressParallel newSliceData Mapper
     ImportSchema payloadFromSchema CollectDictionaries TPW (traced H)).
Local Abbreviation start' :=
  (@Writer_start Elem Mapper ImportSchema payloadFromSchema TPW (traced H)).
Local Abbreviation send := (@sinkWrite TPW (traced H)).

Lemma send_trace p o r o' :
  send p o = (r, o') ->
  (o = None /\ o' = None /\ r <> Ok tt) \/ trace o' = trace o ++ [p].
Proof.
  unfold sinkWrite. destruct o as [[s l]|]; [|intros E; inversion E; left; done].
  cbn [WritePayload traced]. simpl.
  destruct (WritePayload p s) as [[e|] s']; intros E; inversion E; subst; right; done.
Qed.

Lemma dictEncode_batch id isDelta (dict : @DictArray Elem) enc w p :
  dictEncode id isDelta dict (enc, mkPayload MessageDictionaryBatch None 0 []) = (Ok tt, (w, p)) ->
  msg p = MessageDictionaryBatch
  /\ exists nrows sz fs bs c, pmeta p = Some (DictionaryHeader id isDelta nrows sz fs bs c).
Proof.
  unfold dictEncoder_Encode.
  match goal with |- context [encode _ _ _ ?b ?s0] =>
    destruct (encode NewSlice getCompressor compressParallel b s0) as [r1 [w1 p1]] eqn:Ee
  end.
  pose proof (encode_msg _ _ _ _ _ _ _ Ee) as Hm.
  destruct r1 as [[]|e|m]; intros E; inversion E; subst. simpl in *.
  split; [done|]. eauto 10.
Qed.

Lemma emit_trace deltas id isDelta lastD pdict dict (t t' : @Tracker Elem TPW) r :
  (deltas = false -> isDelta = false) ->
  emit id isDelta lastD pdict dict t = (r, t') ->
  exists l, trace (pw t') = trace (pw t) ++ l /\ Forall (dictionaryBatch deltas) l.
Proof.
  intros Hd. unfold emitDict.
  destruct (dictEncode id isDelta dict _) as [r1 [w p]] eqn:Ee.
  destruct r1 as [[]|e|m];
    try (intros E; inversion E; subst; exists []; by rewrite app_nil_r).
  destruct (dictEncode_batch _ _ _ _ _ _ Ee) as (Hm & n & sz & fs & bs & c & Hp).
  destruct (send p (pw t)) as [r2 o] eqn:Es.
  assert (exists l, trace o = trace (pw t) ++ l /\ Forall (dictionaryBatch deltas) l) as Hl.
  { destruct (send_trace _ _ _ _ Es) as [(-> & -> & _) | Ho].
    - exists []. by rewrite app_nil_r.
    - exists [p]. split; [exact Ho|]. repeat constructor; [done|]. eauto 10. }
  destruct r2 as [[]|e|m]; intros E; inversion E; subst; done.
Qed.

Lemma deltaStartOf_off f lastD (D : @DictArray Elem) ds :
  deltaStartOf approx f false lastD D = Ok (Some ds) -> ds = 0.
Proof.
  unfold deltaStartOf. destruct lastD as [L|]; [|by intros E; inversion E].
  destruct (_ =? _); [done|]. destruct (_ && _); [done|]. destruct f; [done|].
  rewrite andb_false_r. simpl. by intros E; inversion E.
Qed.

Lemma step_trace f e pr (t t' : @Tracker Elem TPW) r def :
  step f e pr t = (r, t', def) ->
  exists l, trace (pw t') = trace (pw t) ++ l /\ Forall (dictionaryBatch e) l.
Proof.
  destruct pr as [id D]. unfold dictStep. cbn [lastWrittenDicts pw].
  destruct (deltaStartOf approx f e (lastWrittenDicts t !! id) D) as [[ds|]|err|m] eqn:Ed;
    try (intros E; inversion E; subst; exists []; by rewrite app_nil_r).
  assert (e = false -> (ds >? 0) = false) as Hd.
  { intros ->. by rewrite (deltaStartOf_off _ _ _ _ Ed). }
  destruct (ds >? 0).
  - destruct (NewSliceDict _ _ _ _ _) as [S|].
    + intros E. inversion E as [[E1 E2]].
      destruct (emit_trace e _ _ _ _ _ _ _ _ Hd E1) as (l & El & Fl). by exists l.
    + intros E; inversion E; subst; exists []; by rewrite app_nil_r.
  - intros E. inversion E as [[E1 E2]].
    destruct (emit_trace e _ _ _ _ _ _ _ _ Hd E1) as (l & El & Fl). by exists l.
Qed.

Lemma loop_trace f e pairs (t t' : @Tracker Elem TPW) r :
  loop f e pairs t = (r, t') ->
  exists l, trace (pw t') = trace (pw t) ++ l /\ Forall (dictionaryBatch e) l.
Proof.
  revert t t' r. induction pairs as [|pr pairs IH]; intros t t' r; simpl.
  - intros E; inversion E; subst. exists []. by rewrite app_nil_r.
  - destruct (step f e pr t) as [[r1 t1] def] eqn:Es.
    destruct (step_trace _ _ _ _ _ _ _ Es) as (l1 & E1 & F1).
    destruct r1 as [[]|err|m].
    + destruct (loop f e pairs t1) as [r2 t2] eqn:El.
      destruct (IH _ _ _ El) as (l2 & E2 & F2).
      intros E; inversion E; subst. rewrite pw_logRef. exists (l1 ++ l2).
      rewrite E2, E1, app_assoc. split; [done|]. by apply Forall_app.
    + intros E; inversion E; subst. rewrite pw_logRef. by exists l1.
    + intros E; inversion E; subst. rewrite pw_logRef. by exists l1.
Qed.

(** X21: the payloads a [Write] on a started writer hands to the payload
    writer, whatever it returns: first dictionary batches, none of them
    a delta when [emitDictDeltas] is off, then at most one record batch
    with the number of rows of the record, and exactly one when the
    [Write] returns without error; and [Write] leaves [emitDictDeltas] as
    it is. *)
Theorem Write_hands_dictionaries_then_record rec (w : @Writer Elem Mapper TPW) :
  started w = true ->
  exists ds tail,
    trace (w_pw (write rec w).2) = trace (w_pw w) ++ ds ++ tail
    /\ Forall (dictionaryBatch (emitDictDeltas w)) ds
    /\ (tail = [] \/ exists p, tail = [p] /\ recordBatch (NumRows rec) p)
    /\ ((write rec w).1 = Ok tt -> tail <> [])
    /\ emitDictDeltas (write rec w).2 = emitDictDeltas w.
Proof.
  intros Hs. unfold Writer_write. rewrite Hs. cbn [negb].
  destruct (match recSchema rec with Some sc => _ | None => true end).
  { exists [], []. simpl. rewrite app_nil_r. repeat split; try done. by left. }
  destruct (writeDictionaryPayloads _ _ _ _ _ _ _ _ _ _ _) as [r1 t] eqn:Ed.
  assert (exists l, trace (pw t) = trace (w_pw w) ++ l
                    /\ Forall (dictionaryBatch (emitDictDeltas w)) l) as (ds & Ht & Hf).
  { unfold writeDictionaryPayloads in Ed.
    destruct (CollectDictionaries rec (mapper w)) as [pairs|e|m];
      try (inversion Ed; subst; exists []; simpl; by rewrite app_nil_r).
    destruct (loop false (emitDictDeltas w) pairs _) as [r2 t2] eqn:El.
    destruct (loop_trace _ _ _ _ _ _ El) as (l & E1 & F1).
    inversion Ed; subst. rewrite pw_logRef. by exists l. }
  destruct r1 as [[]|e1|m1].
  - destruct (Encode NewSlice getCompressor compressParallel rec _) as [r2 [w2 p2]] eqn:Ee.
    destruct r2 as [[]|e2|m2].
    + destruct (send p2 _) as [r3 o] eqn:Es. cbn [w_pw] in Es.
      exists ds. destruct (send_trace _ _ _ _ Es) as [(Hn & -> & Hr)|Ho].
      * exists []. simpl. rewrite app_nil_r, Hn in *. repeat split; try done. by left.
      * exists [p2]. simpl. rewrite Ho, Ht, <- app_assoc. repeat split; try done.
        right. exists p2. split; [done|].
        pose proof (Encode_msg _ _ _ _ _ _ _ Ee) as Hm. simpl in Hm.
        unfold Encode in Ee.
        destruct (encode _ _ _ rec _) as [[[]|e|m] s1]; inversion Ee; subst.
        split; [done|]. simpl. eauto 10.
    + exists ds, []. simpl. rewrite app_nil_r. repeat split; try done. by left.
    + exists ds, []. simpl. rewrite app_nil_r. repeat split; try done. by left.
  - exists ds, []. simpl. rewrite app_nil_r. repeat split; try done. by left.
  - exists ds, []. simpl. rewrite app_nil_r. repeat split; try done. by left.
Qed.

End WriteTrace.

(** ** What [start] hands over *)

(** What [handedOver] says: the payloads handed over are the first
    ones of the list, all of them when there is no error and otherwise
    up to the one that was refused, with nothing after it; and the
    payloads and the state fix the outcome. *)
Lemma handedOver_prefix {PW : Type} `{PayloadWriter PW} (x : PW) ps sent r x' :
  handedOver x ps sent r x' ->
  sent `prefix_of` ps
  /\ (r = Ok tt -> sent = ps)
  /\ (forall e, r = Err e ->
        exists before p y, sent = before ++ [p] /\ (WritePayload p y).1 = Some e)
  /\ (forall m, r <> Panic m).
Proof.
  induction 1 as [x|x p ps sent r x1 x' Hw Hh (IH1 & IH2 & IH3 & IH4)|x p ps e x1 Hw].
  - repeat split; try done.
  - split; [by apply prefix_cons|]. split; [intros Hr; by rewrite IH2|]. split; [|done].
    intros e He. destruct (IH3 e He) as (before & q & y & -> & Hq).
    by exists (p :: before), q, y.
  - split; [apply prefix_cons, prefix_nil|]. split; [done|]. split; [|done].
    intros e' He. inversion He; subst. exists [], p, x. by rewrite Hw.
Qed.

Lemma handedOver_unique {PW : Type} `{PayloadWriter PW} (x : PW) ps sent1 r1 x1 sent2 r2 x2 :
  handedOver x ps sent1 r1 x1 -> handedOver x ps sent2 r2 x2 ->
  sent1 = sent2 /\ r1 = r2 /\ x1 = x2.
Proof.
  intros H1. revert sent2 r2 x2.
  induction H1 as [x|x p ps sent r y x' Hw Hh IH|x p ps e y Hw]; intros sent2 r2 x2 H2;
    inversion H2; subst; try done.
  - match goal with
    | [ A : WritePayload p x = _, B : WritePayload p x = _ |- _ ] =>
        rewrite A in B; inversion B; subst
    end.
    match goal with
    | [ A : handedOver _ ps _ _ _ |- _ ] => destruct (IH _ _ _ A) as (-> & -> & ->)
    end.
    done.
  - congruence.
  - congruence.
  - match goal with
    | [ A : WritePayload p x = _, B : WritePayload p x = _ |- _ ] =>
        rewrite A in B; inversion B; subst
    end.
    done.
Qed.

Section StartMore.

Context {Elem Mapper : Type}.
Variable ImportSchema : Schema -> Mapper -> Mapper.
Variable payloadFromSchema : Schema -> Mapper -> list Payload.
Context {PW : Type} `{PayloadWriter PW}.

Local Abbreviation start' := (@Writer_start Elem Mapper ImportSchema payloadFromSchema PW _).

Lemma writePayloads_handedOver ps (x : PW) :
  exists sent x',
    handedOver x ps sent (writePayloads ps (Some x)).1 x'
    /\ (writePayloads ps (Some x)).2 = Some x'.
Proof.
  revert x. induction ps as [|p ps IH]; intros x; simpl.
  - exists [], x. split; [constructor|done].
  - destruct (WritePayload p x) as [[e|] x1] eqn:Ew.
    + exists [p], x1. split; [by eapply handed_refused|done].
    + destruct (IH x1) as (sent & x' & Hh & Hx). exists (p :: sent), x'.
      split; [by eapply handed_next|done].
Qed.

(** X22: [start] on a writer with a payload writer hands the payloads
    of the schema to it one after the other, in order, each to the state
    the call before left; it stops right after the first payload that is
    refused and returns that error, and returns no error when none is
    refused, all of them then handed over.  In every case it leaves the
    writer started, with the mapper that imported the schema, an empty
    map of last written dictionaries and the payload writer as the last
    call left it, and changes nothing else. *)
Theorem start_hands_schema_payloads (w : @Writer Elem Mapper PW) x :
  w_pw w = Some x ->
  let m := ImportSchema (schema w) (mapper w) in
  exists sent x',
    handedOver x (payloadFromSchema (schema w) m) sent (start' w).1 x'
    /\ (start' w).2
       = mkWriter (Some x') true (schema w) m (w_codec w) (w_compressNP w) ∅
           (emitDictDeltas w) (w_refLog w).
Proof.
  intros Hp m. unfold Writer_start. fold m. rewrite Hp.
  destruct (writePayloads_handedOver (payloadFromSchema (schema w) m) x)
    as (sent & x' & Hh & Hx).
  destruct (writePayloads _ (Some x)) as [r o]. simpl in *. subst o.
  exists sent, x'. done.
Qed.

End StartMore.

(** ** The further properties at concrete inputs *)

Lemma Example_NewSlice_height a i j a' :
  Example.NewSlice a i j = Some a' -> (height a' <= height a)%nat.
Proof.
  destruct a; simpl; try discriminate;
    destruct (Example.sliceData d i j); simpl; intros E; inversion E; subst; simpl; lia.
Qed.

Lemma depth_budget_suffices_witness :
  Z.of_nat (height Cases.tower) < depth Cases.s0.1
  /\ (visit Example.NewSlice Cases.tower Cases.s0).1 = Ok tt
  /\ notRec (visit Example.NewSlice Cases.tower Cases.s0).1.
Proof.
  split; [vm_compute; reflexivity|]. split; [vm_compute; reflexivity|].
  apply (depth_budget_suffices Example.NewSlice Example_NewSlice_height Cases.tower Cases.s0).
  vm_compute. reflexivity.
Defined.

Lemma visit_through_wrappers_witness :
  let d := mkData 3 0 0 [] in
  let inner := Example.int32s [1; 2; 3] in
  visit Example.NewSlice (Dictionary d inner) Cases.s0 = visit Example.NewSlice inner Cases.s0
  /\ visit Example.NewSlice (Extension d inner) Cases.s0
     = match visit Example.NewSlice inner Cases.s0 with
       | (Err e, s') => (Err (Wrapf "failed visiting storage of for array" e), s')
       | r => r
       end.
Proof.
  intros d inner. apply (visit_through_wrappers Example.NewSlice d inner Cases.s0).
  - vm_compute. reflexivity.
  - left. reflexivity.
Defined.

Lemma leaf_fields_and_buffers_witness :
  let arr := Example.int32s [1; 2; 3] in
  let s' := (visit Example.NewSlice arr Cases.s0).2 in
  fields s'.1 = fields Cases.s0.1 ++ [mkField (Len (data arr)) (NullN (data arr)) 0]
  /\ exists bs, body s'.2 = body Cases.s0.2 ++ bs /\ length bs = 2%nat.
Proof.
  intros arr s'. apply (leaf_fields_and_buffers Example.NewSlice arr 2%nat Cases.s0 s').
  - reflexivity.
  - vm_compute. reflexivity.
Defined.

Lemma fixed_width_values_witness :
  let d := Cases.slicedInts in
  let vals := Int32Traits.CastToBytes [7; 8; 9; 10] in
  visitFixedWidth 32 d = Ok [Some (Int32Traits.CastToBytes [8; 9])]
  /\ (let n := Len d * (32 / 8) in
      exists out,
        visitFixedWidth 32 d = Ok [Some out]
        /\ take (Z.to_nat n) out = take (Z.to_nat n) (drop (Z.to_nat (Offset d * (32 / 8))) vals)
        /\ n <= blen out <= bitutil.CeilByte64 n
        /\ (Offset d = 0 -> blen vals <= bitutil.CeilByte64 n -> out = vals)).
Proof.
  intros d vals. split; [vm_compute; reflexivity|].
  apply (fixed_width_values 32 d vals).
  - reflexivity.
  - vm_compute. discriminate.
  - vm_compute. discriminate.
  - vm_compute. discriminate.
  - vm_compute. discriminate.
  - vm_compute. reflexivity.
Defined.

Lemma binary_values_witness :
  let d := Cases.slicedStrings in
  let src := Int32Traits.CastToBytes [0; 1; 3; 6] in
  let vals := [97; 98; 99; 100; 101; 102] in
  visitBinary d = Ok [Some (Int32Traits.CastToBytes [0; 2; 5]); Some [98; 99; 100; 101; 102]]
  /\ (let offs := Int32Traits.CastFromBytes src in
      let beg := nth (Z.to_nat (Offset d)) offs 0 in
      let fin := nth (Z.to_nat (Offset d + Len d)) offs 0 in
      exists vo,
        getZeroBasedValueOffsets d = Ok (Some vo)
        /\ visitBinary d
           = Ok [Some vo; Some (take (Z.to_nat (fin - beg)) (drop (Z.to_nat beg) vals))]).
Proof.
  intros d src vals. split; [vm_compute; reflexivity|].
  intros offs beg fin.
  apply (binary_values d src vals).
  - reflexivity.
  - reflexivity.
  - vm_compute. discriminate.
  - vm_compute. discriminate.
  - vm_compute. discriminate.
  - vm_compute. split; discriminate.
  - vm_compute. discriminate.
Defined.

Lemma boolean_values_witness :
  let d := Cases.slicedBits in
  visitBoolean d = Ok [Some [3; 0; 0; 0; 0; 0; 0; 0]]
  /\ (Len d = 0 -> visitBoolean d = Ok [None])
  /\ (0 < Len d ->
      exists out,
        visitBoolean d = Ok [Some out]
        /\ bitutil.BytesForBits (Len d) <= blen out
        /\ forall i, 0 <= i < Len d ->
             bitutil.BitIsSet out i = bitutil.BitIsSet [22] (Offset d + i)).
Proof.
  intros d. split; [vm_compute; reflexivity|].
  apply (boolean_values d [22]).
  - reflexivity.
  - vm_compute. discriminate.
  - vm_compute. discriminate.
  - vm_compute. discriminate.
Defined.

Lemma first_dictionary_is_emitted_witness :
  let D := Example.dict 2 [10; 20] in
  let t := Example.tracker0 ∅ in
  TrackerExamples.stepZ false false (7, D) t
  = (emitDict Example.NewSlice Example.store Example.noParallel 7 false None D D
       (resetEncoder t), None)
  /\ (forall t',
        emitDict Example.NewSlice Example.store Example.noParallel 7 false None D D
          (resetEncoder t) = (Ok tt, t') ->
        exists sink p sink' sz fs bs c,
          pw t = Some sink /\ WritePayload p sink = (None, sink') /\ pw t' = Some sink'
          /\ pmeta p = Some (DictionaryHeader 7 false (dLen D) sz fs bs c)
          /\ lastWrittenDicts t' !! 7 = Some D
          /\ refLog t' = refLog t ++ [Retain D]).
Proof.
  intros D t.
  apply (first_dictionary_is_emitted Z.eqb Example.NewSlice Example.store Example.noParallel
           Example.newSliceData false false 7 D t).
  reflexivity.
Defined.

Lemma replacement_is_emitted_witness :
  let L := Example.dict 1 [10; 20] in
  let D := Example.dict 2 [10; 30] in
  let t := Example.tracker0 (TrackerExamples.one 1 [10; 20]) in
  TrackerExamples.stepZ false true (7, D) t
  = (emitDict Example.NewSlice Example.store Example.noParallel 7 false (Some L) D D
       (resetEncoder t), None)
  /\ (forall t',
        emitDict Example.NewSlice Example.store Example.noParallel 7 false (Some L) D D
          (resetEncoder t) = (Ok tt, t') ->
        exists sink p sink' sz fs bs c,
          pw t = Some sink /\ WritePayload p sink = (None, sink') /\ pw t' = Some sink'
          /\ pmeta p = Some (DictionaryHeader 7 false (dLen D) sz fs bs c)
          /\ lastWrittenDicts t' !! 7 = Some D
          /\ refLog t' = refLog t ++ [Release L; Retain D]).
Proof.
  intros L D t.
  apply (replacement_is_emitted Z.eqb Example.NewSlice Example.store Example.noParallel
           Example.newSliceData true 7 D L t).
  - reflexivity.
  - vm_compute. discriminate.
  - right. reflexivity.
  - right. right. left. vm_compute. discriminate.
Defined.

Lemma map_after_dictionary_pass_witness :
  let pairs := [(7, Example.dict 2 [10; 20])] in
  let t := (TrackerExamples.writeZ pairs TrackerExamples.batch0 false false tt
              (Example.tracker0 (TrackerExamples.one 1 [10]))).2 in
  lastWrittenDicts t !! 7 = Some (Example.dict 2 [10; 20])
  /\ (forall id D, In (id, D) pairs ->
        exists L, lastWrittenDicts t !! id = Some L
          /\ (adPtr (Data_ L) = adPtr (Data_ D)
              \/ (dLen L = dLen D /\ ApproxEqual Z.eqb L D = true)))
  /\ (forall id, id ∉ pairs.*1 ->
        lastWrittenDicts t !! id
        = lastWrittenDicts (Example.tracker0 (TrackerExamples.one 1 [10])) !! id).
Proof.
  intros pairs t. split; [vm_compute; reflexivity|].
  apply (map_after_dictionary_pass Z.eqb Example.NewSlice Example.store Example.noParallel
           Example.newSliceData (TrackerExamples.collect pairs) false false
           TrackerExamples.batch0 tt pairs
           (Example.tracker0 (TrackerExamples.one 1 [10])) t).
  - reflexivity.
  - apply NoDup_singleton.
  - vm_compute. reflexivity.
Defined.

Lemma serial_compression_witness :
  let p' := (compressBodyBuffers Example.store Example.noParallel Cases.encZ Cases.body3).2 in
  body p' = [None; Some ([3; 0; 0; 0; 0; 0; 0; 0] ++ [1; 2; 3]); Some []]
  /\ Forall2 (compressed Example.store (codec Cases.encZ)) (body Cases.body3) (body p')
  /\ length (body p') = length (body Cases.body3)
  /\ msg p' = msg Cases.body3 /\ pmeta p' = pmeta Cases.body3 /\ size p' = size Cases.body3.
Proof.
  intros p'. split; [vm_compute; reflexivity|].
  apply (serial_compression Example.store Example.noParallel Cases.encZ Cases.body3 p').
  - vm_compute. discriminate.
  - vm_compute. reflexivity.
Defined.

Lemma serial_compression_stops_witness :
  let p' := (compressBodyBuffers Example.failing Example.noParallel Cases.encZ Cases.body3).2 in
  exists pre pre' buf post,
    body Cases.body3 = pre ++ Some buf :: post
    /\ body p' = pre' ++ Some buf :: post
    /\ Forall2 (compressed Example.failing (codec Cases.encZ)) pre pre'
    /\ blen buf <> 0
    /\ Example.failing (codec Cases.encZ) buf = Err (errExternal 1).
Proof.
  intros p'.
  apply (serial_compression_stops Example.failing Example.noParallel Cases.encZ Cases.body3
           (errExternal 1) p').
  - vm_compute. discriminate.
  - vm_compute. reflexivity.
Defined.

Lemma dictionary_batch_header_witness :
  let dict := Example.dict 1 [10; 20] in
  let s := (set_start 24 Example.enc0, mkPayload MessageDictionaryBatch None 0 []) in
  let r := dictEncoder_Encode Example.NewSlice Example.store Example.noParallel 7 true dict s in
  body r.2.2 = [None; Some (Int32Traits.CastToBytes [10; 20])]
  /\ pmeta r.2.2
     = Some (DictionaryHeader 7 true (dLen dict) (bodySize (body r.2.2)) (fields r.2.1)
               (offsetsFrom 0 (body r.2.2)) (codec s.1))
  /\ size r.2.2 = bodySize (body r.2.2)
  /\ size r.2.2 mod 8 = 0
  /\ Forall (fun m => bOffset m mod 8 = 0) (offsetsFrom 0 (body r.2.2))
  /\ start r.2.1 = 0
  /\ msg r.2.2 = msg s.2
  /\ exists fs, fields r.2.1 = fields s.1 ++ fs /\ Forall (fun f => fOffset f = 0) fs.
Proof.
  intros dict s r. split; [vm_compute; reflexivity|].
  apply (dictionary_batch_header Example.NewSlice Example.store Example.noParallel 7 true
           dict s r.2.1 r.2.2).
  - vm_compute. reflexivity.
  - vm_compute. reflexivity.
Defined.

Lemma record_batch_header_witness :
  let enc := set_start 24 Example.enc0 in
  let r := Encode Example.NewSlice Example.store Example.noParallel Example.rec3
             (reset enc, Example.payload0) in
  pmeta r.2.2
  = Some (RecordHeader (NumRows Example.rec3) (bodySize (body r.2.2)) (fields r.2.1)
            (offsetsFrom 0 (body r.2.2)) (codec enc))
  /\ size r.2.2 = bodySize (body r.2.2)
  /\ size r.2.2 mod 8 = 0
  /\ Forall (fun m => bOffset m mod 8 = 0) (offsetsFrom 0 (body r.2.2))
  /\ Forall (fun f => fOffset f = 0) (fields r.2.1)
  /\ msg r.2.2 = msg Example.payload0.
Proof.
  intros enc r.
  apply (record_batch_header Example.NewSlice Example.store Example.noParallel Example.rec3
           enc Example.payload0 r.2.1 r.2.2).
  - vm_compute. reflexivity.
  - vm_compute. reflexivity.
Defined.

Lemma Close_is_idempotent_witness :
  let close := @Writer_Close Z unit Example.importSchema Example.schemaPayloads Example.Log _ in
  let w := Cases.startedWriter in
  let w1 := (close w).1.2 in
  close w = (Ok tt, w1, Some (Example.mkLog [] 1))
  /\ w_refLog w1 = [Release (Example.dict 1 [10])]
  /\ close w1 = (Ok tt, w1, None)
  /\ w_pw w1 = None
  /\ started w1 = true
  /\ (started w = true ->
      w_refLog w1
      = w_refLog w ++ match w_pw w with
                      | Some _ => map (fun kv => Release kv.2)
                                    (map_to_list (w_lastWrittenDicts w))
                      | None => []
                      end).
Proof.
  intros close w w1. split; [vm_compute; reflexivity|]. split; [vm_compute; reflexivity|].
  apply (Close_is_idempotent Example.importSchema Example.schemaPayloads w w1
           (Some (Example.mkLog [] 1))).
  vm_compute. reflexivity.
Defined.

Lemma Write_without_payload_writer_witness :
  let close := @Writer_Close Z unit Example.importSchema Example.schemaPayloads Example.Log _ in
  let w := (close (Example.writerLog (-1) 0)).1.2 in
  w_pw w = None
  /\ exists e, (Example.WriteLog Example.store Example.rec3 w).1 = Some e
       /\ w_pw (Example.WriteLog Example.store Example.rec3 w).2 = None.
Proof.
  intros close w. split; [vm_compute; reflexivity|].
  apply (Write_without_payload_writer Z.eqb Example.NewSlice Example.store Example.noParallel
           Example.newSliceData Example.importSchema Example.schemaPayloads Example.noDicts
           Example.rec3 w).
  vm_compute. reflexivity.
Defined.

Lemma failed_start_is_not_retried_witness :
  let H := Cases.Refusing_PayloadWriter in
  let w := Cases.refusedWriter in
  let w' := (@Writer_start Z unit Example.importSchema Example.schemaPayloads _ H w).2 in
  @Writer_Write Z Z.eqb Example.NewSlice Example.store Example.noParallel Example.newSliceData
    unit Example.importSchema Example.schemaPayloads Example.noDicts _ H Example.rec3 w
  = (Some (errExternal 2), w')
  /\ @Writer_Close Z unit Example.importSchema Example.schemaPayloads _ H w
     = (Err (errExternal 2), w', w_pw w')
  /\ started w' = true
  /\ w_lastWrittenDicts w' = ∅
  /\ (forall p p', w_pw w' = Some p -> pwClose p = (None, p') ->
        exists w2,
          @Writer_Close Z unit Example.importSchema Example.schemaPayloads _ H w'
          = (Ok tt, w2, Some p') /\ w_pw w2 = None).
Proof.
  intros H w w'.
  apply (@failed_start_is_not_retried Z Z.eqb Example.NewSlice Example.store Example.noParallel
           Example.newSliceData unit Example.importSchema Example.schemaPayloads
           Example.noDicts _ H Example.rec3 w w' (errExternal 2)).
  - reflexivity.
  - vm_compute. reflexivity.
Defined.

Lemma inconsistent_schema_witness :
  let w := Cases.startedWriter in
  (started w = true ->
   @Writer_Write Z Z.eqb Example.NewSlice Example.store Example.noParallel Example.newSliceData
     unit Example.importSchema Example.schemaPayloads Example.noDicts _ _ Cases.recY w
   = (Some errInconsistentSchema, w))
  /\ (forall w0, started w = false ->
        @Writer_start Z unit Example.importSchema Example.schemaPayloads _ _ w = (Ok tt, w0) ->
        @Writer_Write Z Z.eqb Example.NewSlice Example.store Example.noParallel
          Example.newSliceData unit Example.importSchema Example.schemaPayloads
          Example.noDicts _ _ Cases.recY w
        = (Some errInconsistentSchema, w0)).
Proof.
  intros w.
  apply (inconsistent_schema Z.eqb Example.NewSlice Example.store Example.noParallel
           Example.newSliceData Example.importSchema Example.schemaPayloads Example.noDicts
           Cases.recY w).
  vm_compute. reflexivity.
Defined.

Lemma Write_hands_dictionaries_then_record_witness :
  let pairs := [(7, Example.dict 2 [10; 20])] in
  let write :=
    @Writer_write Z Z.eqb Example.NewSlice Example.store Example.noParallel
      Example.newSliceData unit Example.importSchema Example.schemaPayloads
      (TrackerExamples.collect pairs) _ (traced Example.Log_PayloadWriter) in
  let w := Cases.tracedWriter in
  map msg (trace (w_pw (write TrackerExamples.recD w).2))
  = [MessageDictionaryBatch; MessageRecordBatch]
  /\ exists ds tail,
       trace (w_pw (write TrackerExamples.recD w).2) = trace (w_pw w) ++ ds ++ tail
       /\ Forall (dictionaryBatch (emitDictDeltas w)) ds
       /\ (tail = [] \/ exists p, tail = [p] /\ recordBatch (NumRows TrackerExamples.recD) p)
       /\ ((write TrackerExamples.recD w).1 = Ok tt -> tail <> [])
       /\ emitDictDeltas (write TrackerExamples.recD w).2 = emitDictDeltas w.
Proof.
  intros pairs write w. split; [vm_compute; reflexivity|].
  apply (Write_hands_dictionaries_then_record Z.eqb Example.NewSlice Example.store
           Example.noParallel Example.newSliceData Example.importSchema Example.schemaPayloads
           (TrackerExamples.collect pairs) Example.Log_PayloadWriter TrackerExamples.recD w).
  reflexivity.
Defined.

Lemma start_hands_schema_payloads_witness :
  let H := Cases.Quota_PayloadWriter in
  let w := Cases.quotaWriter in
  let start := @Writer_start Z unit Example.importSchema Cases.schemaPayloads3 _ H in
  (start w).1 = Err (errExternal 3)
  /\ Cases.taken <$> w_pw (start w).2
     = Some [mkPayload MessageSchema (Some (SchemaHeader 1)) 0 []]
  /\ (let m := Example.importSchema (schema w) (mapper w) in
      exists sent x',
        handedOver (Cases.mkQuota 1 []) (Cases.schemaPayloads3 (schema w) m) sent
          (start w).1 x'
        /\ (start w).2
           = mkWriter (Some x') true (schema w) m (w_codec w) (w_compressNP w) ∅
               (emitDictDeltas w) (w_refLog w)).
Proof.
  intros H w start. split; [vm_compute; reflexivity|]. split; [vm_compute; reflexivity|].
  apply (@start_hands_schema_payloads Z unit Example.importSchema Cases.schemaPayloads3 _ H w
           (Cases.mkQuota 1 [])).
  reflexivity.
Defined.
